(** * epub-splitter: the chunk partitioner and the chapter extraction

    A shallow embedding of the two algorithmic parts of the repository:
    the EPUB parser's chapter extraction ([class EPUBParser]) and the
    application's chunk partitioner ([class EPUBSplitterApp]), followed
    by the properties of the written specification that concern them.
    The navigation parsers, the selection and export of the application
    and the guard of the file routes of [server.js] are embedded as well,
    with further properties read from the code.

    JavaScript numbers that hold array indices and word counts are
    modelled as [Z]; strings as sequences of UTF-16 code units. *)

From Stdlib Require Import Ascii String DecimalString.
From Stdlib Require Import ZArith NArith QArith Qround List Bool Lia Permutation.
From Stdlib Require Import DecimalPos Sorted.
Import ListNotations.

Open Scope Z_scope.

(* ================================================================== *)
(** ** JavaScript strings *)

Module JS.

(** A string is its sequence of UTF-16 code units. *)
Definition jsstring := list N.

(** A literal of the source, written as a Rocq string. *)
Definition lit (s : string) : jsstring := map N_of_ascii (list_ascii_of_string s).

Definition len {A : Type} (l : list A) : Z := Z.of_nat (length l).

(** [\s]: WhiteSpace and LineTerminator of ECMAScript. *)
Definition isSpace (c : N) : bool :=
  ((9 <=? c) && (c <=? 13) || (c =? 32) || (c =? 160) || (c =? 5760)
   || (8192 <=? c) && (c <=? 8202) || (c =? 8232) || (c =? 8233)
   || (c =? 8239) || (c =? 8287) || (c =? 12288) || (c =? 65279))%N.

Definition isDigit (c : N) : bool := ((48 <=? c) && (c <=? 57))%N.
Definition isUpperAZ (c : N) : bool := ((65 <=? c) && (c <=? 90))%N.
Definition isLowerAZ (c : N) : bool := ((97 <=? c) && (c <=? 122))%N.

(** [\w] is [[A-Za-z0-9_]]. *)
Definition isWordChar (c : N) : bool :=
  isUpperAZ c || isLowerAZ c || isDigit c || (c =? 95)%N.

(** [/\w/.test(s)] *)
Definition testWordChar (s : jsstring) : bool := existsb isWordChar s.

Fixpoint eqs (a b : jsstring) : bool :=
  match a, b with
  | [], [] => true
  | x :: a', y :: b' => (x =? y)%N && eqs a' b'
  | _, _ => false
  end.

(** [s.startsWith(p)] *)
Fixpoint startsWith (s p : jsstring) : bool :=
  match p, s with
  | [], _ => true
  | x :: p', y :: s' => (x =? y)%N && startsWith s' p'
  | _ :: _, [] => false
  end.

(** [s.includes(p)]: some suffix of [s] starts with [p]. *)
Fixpoint includes (s p : jsstring) : bool :=
  startsWith s p ||
  match s with
  | [] => false
  | _ :: s' => includes s' p
  end.

(** [s.endsWith(p)] *)
Definition endsWith (s p : jsstring) : bool := startsWith (rev s) (rev p).

(** [s.match(/[cls]$/)] as a truth value: without the [m] flag [$] is the
    end of the input, so the last code unit must be in the class. *)
Definition matchClassAtEnd (cls : N -> bool) (s : jsstring) : bool :=
  match rev s with
  | c :: _ => cls c
  | [] => false
  end.

(** [s.toLowerCase()] restricted to the basic Latin letters.  The source
    only looks for the lower-case ASCII words [chapter], [however], ...
    inside the result; the full Unicode mapping sends no code unit outside
    [A-Z] to a letter of one of these words, except U+0130, whose image is
    [i] followed by U+0307, which none of the words continues.  The two
    mappings therefore decide these searches alike. *)
Definition toLowerCase (s : jsstring) : jsstring :=
  map (fun c => if isUpperAZ c then (c + 32)%N else c) s.

(** [s.trim()] *)
Fixpoint dropSpaces (s : jsstring) : jsstring :=
  match s with
  | c :: s' => if isSpace c then dropSpaces s' else s
  | [] => []
  end.

Definition trim (s : jsstring) : jsstring := rev (dropSpaces (rev (dropSpaces s))).

(** [s.split(/\s+/)]: the pieces between the maximal runs of white space.
    [acc] is the piece being read, reversed; [inSep] tells that the last
    unit read was white space.  A leading or trailing run leaves an empty
    piece, and the empty string splits into one empty piece. *)
Fixpoint splitSpacesFrom (s acc : jsstring) (inSep : bool) : list jsstring :=
  match s with
  | [] => [rev acc]
  | c :: s' =>
      if isSpace c then
        if inSep then splitSpacesFrom s' [] true
        else rev acc :: splitSpacesFrom s' [] true
      else splitSpacesFrom s' (c :: acc) false
  end.

Definition splitSpaces (s : jsstring) : list jsstring := splitSpacesFrom s [] false.

Definition nonEmpty (w : jsstring) : bool := 0 <? len w.

(** [s.split(/\s+/).filter(w => w.length > 0)] *)
Definition splitWords (s : jsstring) : list jsstring := filter nonEmpty (splitSpaces s).

(** [s.split(c)] for a single code unit [c]. *)
Fixpoint splitAtFrom (c : N) (s acc : jsstring) : list jsstring :=
  match s with
  | [] => [rev acc]
  | x :: s' => if (x =? c)%N then rev acc :: splitAtFrom c s' [] else splitAtFrom c s' (x :: acc)
  end.

Definition splitAt (c : N) (s : jsstring) : list jsstring := splitAtFrom c s [].

(** [a.join(' ')] *)
Fixpoint join (sep : jsstring) (ws : list jsstring) : jsstring :=
  match ws with
  | [] => []
  | [w] => w
  | w :: ws' => w ++ sep ++ join sep ws'
  end.

(** [`${n}`] for an integer [n]. *)
Definition showZ (n : Z) : jsstring := lit (NilEmpty.string_of_int (Z.to_int n)).

(** The number a non-negative integer becomes: the nearest double, ties
    to the even significand.  An integer below 2^53 is a double; above,
    the 53 leading bits are kept and the rest is rounded.  Integers from
    2^1024 on, which become [Infinity], are outside the model. *)
Definition toDouble (n : Z) : Z :=
  let e := Z.log2 n in
  if e <? 53 then n
  else
    let scale := 2 ^ (e - 52) in
    let q := n / scale in
    let r := n mod scale in
    let rounded :=
      if 2 * r <? scale then q
      else if 2 * r >? scale then q + 1
      else if Z.even q then q else q + 1 in
    rounded * scale.

(** [parseInt(s)] for a string of decimal digits; [None] is [NaN], the
    result for the empty string.  The digits give an integer, and the
    result is the number nearest to it.  (Beyond twenty digits the
    language lets an implementation read the digits less exactly; the
    model rounds the exact integer.) *)
Definition parseDigits (s : jsstring) : option Z :=
  match s with
  | [] => None
  | _ => Some (toDouble (fold_left (fun n c => 10 * n + (Z.of_N c - 48)) s 0))
  end.

(** [a.slice(start, end)] with the relative indices of ECMAScript. *)
Definition clampIndex (n i : Z) : Z := if i <? 0 then Z.max (n + i) 0 else Z.min i n.

Definition slice {A : Type} (l : list A) (start stop : Z) : list A :=
  let k := clampIndex (len l) start in
  let final := clampIndex (len l) stop in
  firstn (Z.to_nat (Z.max (final - k) 0)) (skipn (Z.to_nat k) l).

(** [a.slice(start)] *)
Definition sliceFrom {A : Type} (l : list A) (start : Z) : list A :=
  slice l start (len l).

(** [a.splice(i, 1, ...items)] for an index inside the array. *)
Definition splice1 {A : Type} (l : list A) (i : nat) (items : list A) : list A :=
  firstn i l ++ items ++ skipn (S i) l.

(** The string of two line feeds. *)
Definition doubleNewline : jsstring := [10%N; 10%N].

(** Integers [lo, lo+1, ..., hi - 1]: the values of a counting [for] loop. *)
Definition range (lo hi : Z) : list Z :=
  map (fun k => lo + Z.of_nat k) (seq 0 (Z.to_nat (hi - lo))).

End JS.
Import JS.

(** Outcome of a computation that can throw or loop: a value, a thrown
    exception (in the partitioner always the [TypeError] of a property
    read on [undefined]), or exhausted fuel. *)
Inductive result (A : Type) : Type :=
| Ok (a : A)
| Thrown
| OutOfFuel.
Arguments Ok {A} a.
Arguments Thrown {A}.
Arguments OutOfFuel {A}.

Definition bind {A B : Type} (r : result A) (k : A -> result B) : result B :=
  match r with
  | Ok a => k a
  | Thrown => Thrown
  | OutOfFuel => OutOfFuel
  end.

Notation "x <- r ;; k" := (bind r (fun x => k))
  (at level 61, r at next level, right associativity).

(** [k] applied [n] times in sequence. *)
Fixpoint iterate {A : Type} (n : nat) (k : A -> result A) (a : A) : result A :=
  match n with
  | O => Ok a
  | S n' => a' <- k a ;; iterate n' k a'
  end.

(* ================================================================== *)
(** ** The chapter record shared by the parser and the application *)

Record Chapter : Type := mkChapter {
  ch_id : jsstring;
  ch_title : jsstring;
  ch_htmlContent : jsstring;
  ch_textContent : jsstring;
  ch_wordCount : Z;
  spineOrder : Z
}.

(* ================================================================== *)
(** ** Chapter extraction ([EPUBParser]) *)

Module EPUBParser.

Record ManifestItem : Type := mkManifestItem {
  href : jsstring;
  mediaType : jsstring;
  properties : jsstring
}.

(** The manifest object, as the list [Object.entries] enumerates. *)
Definition Manifest : Type := list (jsstring * ManifestItem).

Record SpineItem : Type := mkSpineItem {
  idref : jsstring;
  order : Z;
  linear : bool
}.

Record NavItem : Type := mkNavItem {
  nav_id : jsstring;
  nav_title : jsstring;
  nav_href : jsstring
}.

(** [countWords] of the parser: a token counts when it holds a word
    character. *)
Definition countWords (text : jsstring) : Z :=
  match trim text with
  | [] => 0
  | trimmed =>
      len (filter (fun word => nonEmpty word && testWordChar word) (splitSpaces trimmed))
  end.

(** [manifest[id]] *)
Definition manifestGet (manifest : Manifest) (key : jsstring) : option ManifestItem :=
  option_map snd (find (fun entry => eqs (fst entry) key) manifest).

(** [parseInt(id.replace(/\D/g, '')) || 0], or 999 without an entry. *)
Definition findSpineOrder (manifest : Manifest) (path : jsstring) : Z :=
  match find (fun entry => eqs (href (snd entry)) path) manifest with
  | Some manifestEntry =>
      match parseDigits (filter isDigit (fst manifestEntry)) with
      | Some n => n
      | None => 0
      end
  | None => 999
  end.

Section Extraction.

(** The archive and the browser's markup parser are black boxes:
    [zipHas path] tells whether [zip.files[path]] exists, and the three
    DOM-based helpers return [None] when they throw. *)
Variable zipHas : jsstring -> bool.
Variable extractHTMLContent : jsstring -> option jsstring.
Variable extractTextContent : jsstring -> option jsstring.
Variable extractFragmentContent : jsstring -> jsstring -> option jsstring.

Definition hash : N := 35%N.
Definition slash : N := 47%N.

(** Body of the [try] block once the manifest item is known: the cleaned
    markup and its plain text, or [None] when something throws. *)
Definition extractNavContent (manifestItem : ManifestItem) (navItem : NavItem)
    : option (jsstring * jsstring) :=
  match extractHTMLContent (href manifestItem) with
  | None => None
  | Some htmlContent =>
      let sliced :=
        if includes (nav_href navItem) [hash] then
          let fragmentId := nth 1 (splitAt hash (nav_href navItem)) [] in
          match extractFragmentContent htmlContent fragmentId with
          | None => None
          | Some [] => Some htmlContent
          | Some fragment => Some fragment
          end
        else Some htmlContent in
      match sliced with
      | None => None
      | Some htmlContent =>
          match extractTextContent htmlContent with
          | None => None
          | Some textContent => Some (htmlContent, textContent)
          end
      end
  end.

(** One round of the loop over the navigation; the state is the set
    [processedFiles] and the array [chapters]. *)
Definition extractNavItem (manifest : Manifest) (state : list jsstring * list Chapter)
    (navItem : NavItem) : list jsstring * list Chapter :=
  let '(processedFiles, chapters) := state in
  match find (fun item =>
                endsWith (href item) (nav_href navItem)
                || includes (href item) (hd [] (splitAt hash (nav_href navItem))))
             (map snd manifest) with
  | None => state
  | Some manifestItem =>
      if zipHas (href manifestItem) then
        let fileKey := href manifestItem ++ [hash] ++ nav_href navItem in
        if existsb (eqs fileKey) processedFiles then state
        else
          let processedFiles := fileKey :: processedFiles in
          match extractNavContent manifestItem navItem with
          | None => (processedFiles, chapters)
          | Some (htmlContent, textContent) =>
              let wordCount := countWords textContent in
              if wordCount >? 10 then
                (processedFiles,
                 chapters ++
                   [mkChapter (nav_id navItem) (nav_title navItem) htmlContent textContent
                      wordCount (findSpineOrder manifest (href manifestItem))])
              else (processedFiles, chapters)
          end
      else state
  end.

Definition extractChaptersFromNavigation (manifest : Manifest) (navigation : list NavItem)
    (chapters : list Chapter) : list Chapter :=
  snd (fold_left (extractNavItem manifest) navigation ([], chapters)).

(** One round of the loop over the spine, at index [i]. *)
Definition extractSpineItem (manifest : Manifest) (chapters : list Chapter)
    (entry : Z * SpineItem) : list Chapter :=
  let '(i, spineItem) := entry in
  match manifestGet manifest (idref spineItem) with
  | None => chapters
  | Some manifestItem =>
      if zipHas (href manifestItem) then
        match extractHTMLContent (href manifestItem) with
        | None => chapters
        | Some htmlContent =>
            match extractTextContent htmlContent with
            | None => chapters
            | Some textContent =>
                let wordCount := countWords textContent in
                let filename := last (splitAt slash (href manifestItem)) [] in
                chapters ++
                  [mkChapter (lit "spine-" ++ showZ i)
                     (lit "Chapter " ++ showZ (i + 1) ++ lit " (" ++ filename ++ lit ")")
                     htmlContent textContent wordCount i]
            end
        end
      else chapters
  end.

Definition extractChaptersFromSpine (manifest : Manifest) (spine : list SpineItem)
    (chapters : list Chapter) : list Chapter :=
  fold_left (extractSpineItem manifest) (combine (range 0 (len spine)) spine) chapters.

(** [navigation] is [None] for [null]. *)
Definition extractChapters (manifest : Manifest) (spine : list SpineItem)
    (navigation : option (list NavItem)) : list Chapter :=
  match navigation with
  | Some (navItem :: items) => extractChaptersFromNavigation manifest (navItem :: items) []
  | _ => extractChaptersFromSpine manifest spine []
  end.

End Extraction.

(** *** The navigation documents

    The documents are seen through the queries the parser makes.  A list
    item of the EPUB 3 table of contents gives [li.querySelector('a')],
    with the [href] attribute and the text of the link, and
    [li.querySelector('ol')], with its [:scope > li] children.  A
    [navPoint] of the NCX gives the text of
    [navPoint.querySelector('navLabel text')], the [src] attribute of
    [navPoint.querySelector('content')] and its [:scope > navPoint]
    children.  [None] is [null]. *)
#[warnings="-register-all"]
Inductive ListItem : Type :=
| mkListItem (link : option (option jsstring * jsstring))
    (nestedOl : option (list ListItem)).

#[warnings="-register-all"]
Inductive NavPoint : Type :=
| mkNavPoint (navLabel : option jsstring) (content : option (option jsstring))
    (children : list NavPoint).

(** [title || 'Untitled'] *)
Definition titleOrUntitled (title : jsstring) : jsstring :=
  match title with
  | [] => lit "Untitled"
  | _ => title
  end.

(** [href ? href.split('#')[0] : ''] *)
Definition withoutFragment (href : option jsstring) : jsstring :=
  match href with
  | None | Some [] => []
  | Some href => hd [] (splitAt hash href)
  end.

(** [`${prefix}-${parentId || 'root'}-${index}-${depth}`] *)
Definition navId (prefix : jsstring) (parentId : option jsstring) (index depth : Z)
    : jsstring :=
  prefix ++ lit "-"
  ++ match parentId with
     | None | Some [] => lit "root"
     | Some parentId => parentId
     end
  ++ lit "-" ++ showZ index ++ lit "-" ++ showZ depth.

(** One round of the [forEach] of [parseNavigationList], at [index]. *)
Fixpoint parseListItem (li : ListItem) (parentId : option jsstring) (index depth : Z)
    (items : list NavItem) {struct li} : list NavItem :=
  match li with
  | mkListItem None _ => items
  | mkListItem (Some (href, textContent)) nestedOl =>
      let title := trim textContent in
      let id := navId (lit "nav") parentId index depth in
      let items := items ++ [mkNavItem id (titleOrUntitled title) (withoutFragment href)] in
      match nestedOl with
      | None => items
      | Some ol =>
          snd (fold_left
                 (fun state li' =>
                    (fst state + 1, parseListItem li' (Some id) (fst state) (depth + 1)
                                      (snd state)))
                 ol (0, items))
      end
  end.

Definition parseNavigationList (ol : option (list ListItem)) (parentId : option jsstring)
    (items : list NavItem) (depth : Z) : list NavItem :=
  match ol with
  | None => items
  | Some listItems =>
      snd (fold_left
             (fun state li =>
                (fst state + 1, parseListItem li parentId (fst state) depth (snd state)))
             listItems (0, items))
  end.

(** One round of the [forEach] of [parseNCXNavPoints], at [index]. *)
Fixpoint parseNavPoint (navPoint : NavPoint) (parentId : option jsstring) (index depth : Z)
    (items : list NavItem) {struct navPoint} : list NavItem :=
  match navPoint with
  | mkNavPoint (Some textContent) (Some src) nestedNavPoints =>
      let title := trim textContent in
      let id := navId (lit "ncx") parentId index depth in
      let items := items ++ [mkNavItem id (titleOrUntitled title) (withoutFragment src)] in
      match nestedNavPoints with
      | [] => items
      | _ =>
          snd (fold_left
                 (fun state navPoint' =>
                    (fst state + 1, parseNavPoint navPoint' (Some id) (fst state) (depth + 1)
                                      (snd state)))
                 nestedNavPoints (0, items))
      end
  | _ => items
  end.

Definition parseNCXNavPoints (navPoints : list NavPoint) (parentId : option jsstring)
    (items : list NavItem) (depth : Z) : list NavItem :=
  snd (fold_left
         (fun state navPoint =>
            (fst state + 1, parseNavPoint navPoint parentId (fst state) depth (snd state)))
         navPoints (0, items)).

(** [navMap.querySelectorAll('navPoint')]: every [navPoint] below the
    map, in document order. *)
Fixpoint descendants (navPoint : NavPoint) : list NavPoint :=
  match navPoint with
  | mkNavPoint _ _ nestedNavPoints => navPoint :: flat_map descendants nestedNavPoints
  end.

(** [parseEPUB3Navigation] from the parsed document on: [tocNav] is the
    result of the query for the table of contents, holding the result of
    its query for a list. *)
Definition parseEPUB3Navigation (tocNav : option (option (list ListItem)))
    : result (list NavItem) :=
  match tocNav with
  | None => Thrown
  | Some ol => Ok (parseNavigationList ol None [] 0)
  end.

(** [parseEPUB2Navigation] from the parsed document on: [navMap] holds
    the [navPoint] children of the map. *)
Definition parseEPUB2Navigation (navMap : option (list NavPoint)) : result (list NavItem) :=
  match navMap with
  | None => Thrown
  | Some navPoints => Ok (parseNCXNavPoints (flat_map descendants navPoints) None [] 0)
  end.

End EPUBParser.

(* ================================================================== *)
(** ** The chunk partitioner ([EPUBSplitterApp]) *)

Module EPUBSplitterApp.

(** The objects [splitIntoChunks] maps the chapters to. *)
Record Content : Type := mkContent {
  c_title : jsstring;
  c_textContent : jsstring;
  c_htmlContent : jsstring
}.

(** A working chunk of the refinement. *)
Record Chunk : Type := mkChunk {
  id : jsstring;
  title : jsstring;
  words : list jsstring;
  wordCount : Z;
  startWordIndex : Z;
  endWordIndex : Z
}.

(** [`chunk-${n}`] and [`Chunk ${n}`] *)
Definition chunkId (n : Z) : jsstring := lit "chunk-" ++ showZ n.
Definition chunkTitle (n : Z) : jsstring := lit "Chunk " ++ showZ n.

(** [countWords] of the application: every non-empty token counts. *)
Definition countWords (text : jsstring) : Z :=
  match text with
  | [] => 0
  | _ => len (splitWords text)
  end.

Record marker : Type := mkMarker {
  m_title : jsstring;
  startPosition : Z;
  endPosition : Z;
  m_textContent : jsstring;
  m_htmlContent : jsstring
}.

Record fullText : Type := mkFullText {
  text : jsstring;
  html : jsstring;
  totalWords : Z;
  chapterMarkers : list marker
}.

Definition combineContentWithMarkers (contents : list Content) : fullText :=
  fold_left
    (fun acc chapter =>
       let chapterText := c_textContent chapter in
       let chapterHtml := c_htmlContent chapter in
       let currentPosition := totalWords acc in
       mkFullText
         (text acc ++ chapterText ++ doubleNewline)
         (html acc ++ chapterHtml ++ doubleNewline)
         (currentPosition + countWords chapterText)
         (chapterMarkers acc ++
            [mkMarker (c_title chapter) currentPosition
               (currentPosition + countWords chapterText) chapterText chapterHtml]))
    contents
    (mkFullText [] [] 0 []).

Definition initialChunkSplit (full : fullText) (chunkCount targetWords : Z) : list Chunk :=
  let words := splitWords (text full) in
  let wordsPerChunk := len words / chunkCount in
  map (fun i =>
         let startIndex := i * wordsPerChunk in
         let endIndex := if i =? chunkCount - 1 then len words else (i + 1) * wordsPerChunk in
         let chunkWords := slice words startIndex endIndex in
         mkChunk (chunkId (i + 1)) (chunkTitle (i + 1)) chunkWords (len chunkWords)
           startIndex endIndex)
      (range 0 chunkCount).

Definition isSentenceEnd (c : N) : bool := ((c =? 46) || (c =? 33) || (c =? 63))%N.
Definition isPunctuation (c : N) : bool :=
  ((c =? 46) || (c =? 33) || (c =? 63) || (c =? 59) || (c =? 58))%N.

Definition transitionWords : list jsstring :=
  [lit "however"; lit "therefore"; lit "meanwhile"; lit "furthermore"; lit "moreover";
   lit "consequently"].

(** [afterWord && afterWord[0] && afterWord[0] === afterWord[0].toUpperCase()
     && afterWord[0].match(/[A-Z]/)]: a unit of [[A-Z]] is its own upper
    case, so the conjunction is the last test. *)
Definition startsWithCapital (w : jsstring) : bool :=
  match w with
  | c :: _ => isUpperAZ c
  | [] => false
  end.

Definition calculateBreakPointScore (words : list jsstring) (splitIndex : Z) : Z :=
  if (splitIndex <=? 0) || (splitIndex >=? len words) then 0
  else
    let score := 0 in
    let beforeWord := nth (Z.to_nat (splitIndex - 1)) words [] in
    let afterWord := nth (Z.to_nat splitIndex) words [] in
    let score := if matchClassAtEnd isSentenceEnd beforeWord then score + 100 else score in
    let score :=
      if includes beforeWord doubleNewline || includes afterWord doubleNewline
      then score + 80 else score in
    let score := if matchClassAtEnd isPunctuation beforeWord then score + 60 else score in
    let score := if startsWithCapital afterWord then score + 40 else score in
    let score :=
      if includes (toLowerCase beforeWord) (lit "chapter")
         || includes (toLowerCase afterWord) (lit "chapter")
      then score + 90 else score in
    let score :=
      if existsb (fun word => startsWith (toLowerCase afterWord) word) transitionWords
      then score + 30 else score in
    score.

(** [Math.floor(words.length * 0.1)] is [words.length / 10]: the double
    product is within one unit in the last place of the tenth, which is an
    integer or at least 0.1 away from one. *)
Definition findOptimalSplitPoint (words : list jsstring) (targetSplit : Z) : Z :=
  let searchRange := Z.min 50 (len words / 10) in
  let minSplit := Z.max 1 (targetSplit - searchRange) in
  let maxSplit := Z.min (len words - 1) (targetSplit + searchRange) in
  fst (fold_left
         (fun best i =>
            let '(bestSplit, bestScore) := best in
            let score := calculateBreakPointScore words i in
            if score >? bestScore then (i, score) else (bestSplit, bestScore))
         (range minSplit (maxSplit + 1))
         (targetSplit, calculateBreakPointScore words targetSplit)).

(** The two halves built when [chunk] is split at [splitPoint]; [n] is the
    number the first half is given. *)
Definition firstPart (n : Z) (chunk : Chunk) (splitPoint : Z) : Chunk :=
  mkChunk (chunkId n) (chunkTitle n)
    (slice (words chunk) 0 splitPoint)
    splitPoint
    (startWordIndex chunk)
    (startWordIndex chunk + splitPoint).

Definition secondPart (n : Z) (chunk : Chunk) (splitPoint : Z) : Chunk :=
  mkChunk (chunkId (n + 1)) (chunkTitle (n + 1))
    (sliceFrom (words chunk) splitPoint)
    (len (words chunk) - splitPoint)
    (startWordIndex chunk + splitPoint)
    (endWordIndex chunk).

Definition splitPointOf (chunk : Chunk) : Z :=
  findOptimalSplitPoint (words chunk) (len (words chunk) / 2).

Definition mergedChunk (n : Z) (chunk nextChunk : Chunk) : Chunk :=
  mkChunk (chunkId n) (chunkTitle n)
    (words chunk ++ words nextChunk)
    (wordCount chunk + wordCount nextChunk)
    (startWordIndex chunk)
    (endWordIndex nextChunk).

(** [combinedWordCount <= maxWords * 1.2].  For integers below 2^53 the
    double product [maxWords * 1.2] is exactly [6 * maxWords / 5] when that
    is an integer and otherwise at least 0.2 away from every integer, so
    the comparison is the one of the exact rationals. *)
Definition fitsMerged (combinedWordCount maxWords : Z) : bool :=
  5 * combinedWordCount <=? 6 * maxWords.

(** The first loop of [performChunkRefinement]: one scan of [chunks]; the
    argument [refinedChunks] is the array being filled. *)
Fixpoint refineScan (chunks : list Chunk) (minWords maxWords : Z)
    (refinedChunks : list Chunk) : list Chunk :=
  match chunks with
  | [] => refinedChunks
  | chunk :: rest =>
      if wordCount chunk >? maxWords then
        let splitPoint := splitPointOf chunk in
        refineScan rest minWords maxWords
          (refinedChunks ++ [firstPart (len refinedChunks + 1) chunk splitPoint;
                             secondPart (len refinedChunks + 1) chunk splitPoint])
      else
        match rest with
        | nextChunk :: rest' =>
            (* here [i < chunks.length - 1] *)
            if wordCount chunk <? minWords then
              let combinedWordCount := wordCount chunk + wordCount nextChunk in
              if fitsMerged combinedWordCount maxWords then
                refineScan rest' minWords maxWords
                  (refinedChunks ++ [mergedChunk (len refinedChunks + 1) chunk nextChunk])
              else refineScan rest minWords maxWords (refinedChunks ++ [chunk])
            else refineScan rest minWords maxWords (refinedChunks ++ [chunk])
        | [] => refineScan rest minWords maxWords (refinedChunks ++ [chunk])
        end
  end.

(** [refinedChunks[i].wordCount] inside the two search loops, whose
    indices stay below the length. *)
Definition wordCountAt (refinedChunks : list Chunk) (i : nat) : Z :=
  match nth_error refinedChunks i with
  | Some c => wordCount c
  | None => 0
  end.

Definition findSmallestIndex (refinedChunks : list Chunk) : nat :=
  fold_left
    (fun smallestIndex i =>
       if wordCountAt refinedChunks i <? wordCountAt refinedChunks smallestIndex
       then i else smallestIndex)
    (seq 1 (length refinedChunks - 2))
    0%nat.

Definition findLargestIndex (refinedChunks : list Chunk) : nat :=
  fold_left
    (fun largestIndex i =>
       if wordCountAt refinedChunks i >? wordCountAt refinedChunks largestIndex
       then i else largestIndex)
    (seq 1 (length refinedChunks - 1))
    0%nat.

(** Body of the loop [while (refinedChunks.length > targetCount)]. *)
Definition mergeSmallest (refinedChunks : list Chunk) : result (list Chunk) :=
  let smallestIndex := findSmallestIndex refinedChunks in
  let targetIndex := if (smallestIndex =? 0)%nat then 1%nat else (smallestIndex - 1)%nat in
  let lo := Nat.min smallestIndex targetIndex in
  let hi := Nat.max smallestIndex targetIndex in
  match nth_error refinedChunks lo, nth_error refinedChunks hi,
        nth_error refinedChunks smallestIndex, nth_error refinedChunks targetIndex with
  | Some first, Some second, Some smallest, Some target =>
      let merged :=
        mkChunk (chunkId (Z.of_nat targetIndex + 1)) (chunkTitle (Z.of_nat targetIndex + 1))
          (words first ++ words second)
          (wordCount smallest + wordCount target)
          (Z.min (startWordIndex smallest) (startWordIndex target))
          (Z.max (endWordIndex smallest) (endWordIndex target)) in
      Ok (splice1 (splice1 refinedChunks hi []) lo [merged])
  | _, _, _, _ => Thrown
  end.

(** Body of the loop [while (refinedChunks.length < targetCount)]. *)
Definition splitLargest (refinedChunks : list Chunk) : result (list Chunk) :=
  let largestIndex := findLargestIndex refinedChunks in
  match nth_error refinedChunks largestIndex with
  | Some chunk =>
      let splitPoint := splitPointOf chunk in
      Ok (splice1 refinedChunks largestIndex
            [firstPart (Z.of_nat largestIndex + 1) chunk splitPoint;
             secondPart (Z.of_nat largestIndex + 1) chunk splitPoint])
  | None => Thrown
  end.

Fixpoint mergeLoop (fuel : nat) (targetCount : Z) (refinedChunks : list Chunk)
    : result (list Chunk) :=
  if len refinedChunks >? targetCount then
    match fuel with
    | O => OutOfFuel
    | S fuel' => merged <- mergeSmallest refinedChunks ;; mergeLoop fuel' targetCount merged
    end
  else Ok refinedChunks.

Fixpoint splitLoop (fuel : nat) (targetCount : Z) (refinedChunks : list Chunk)
    : result (list Chunk) :=
  if len refinedChunks <? targetCount then
    match fuel with
    | O => OutOfFuel
    | S fuel' => parts <- splitLargest refinedChunks ;; splitLoop fuel' targetCount parts
    end
  else Ok refinedChunks.

Definition renumber (refinedChunks : list Chunk) : list Chunk :=
  map (fun p =>
         let '(index, chunk) := p in
         mkChunk (chunkId (Z.of_nat index + 1)) (chunkTitle (Z.of_nat index + 1))
           (words chunk) (wordCount chunk) (startWordIndex chunk) (endWordIndex chunk))
      (combine (seq 0 (length refinedChunks)) refinedChunks).

Definition performChunkRefinement (fuel : nat) (chunks : list Chunk)
    (targetCount targetWords tolerance : Z) : result (list Chunk) :=
  let minWords := targetWords - tolerance in
  let maxWords := targetWords + tolerance in
  let refinedChunks := refineScan chunks minWords maxWords [] in
  refinedChunks <- mergeLoop fuel targetCount refinedChunks ;;
  refinedChunks <- splitLoop fuel targetCount refinedChunks ;;
  Ok (renumber refinedChunks).

Definition needsRefinement (chunks : list Chunk) (targetCount minWords maxWords : Z) : bool :=
  existsb (fun chunk => (wordCount chunk <? minWords) || (wordCount chunk >? maxWords)) chunks
  || negb (len chunks =? targetCount).

Fixpoint refineChunksRecursively (fuel : nat) (chunks : list Chunk)
    (targetCount targetWords tolerance iteration maxIterations : Z) : result (list Chunk) :=
  if iteration >=? maxIterations then Ok chunks
  else
    let minWords := targetWords - tolerance in
    let maxWords := targetWords + tolerance in
    if negb (needsRefinement chunks targetCount minWords maxWords) then Ok chunks
    else
      match fuel with
      | O => OutOfFuel
      | S fuel' =>
          refinedChunks <- performChunkRefinement fuel chunks targetCount targetWords tolerance ;;
          refineChunksRecursively fuel' refinedChunks targetCount targetWords tolerance
            (iteration + 1) maxIterations
      end.

(** [escapeHtml]: the text is stored in a [div] and read back as markup,
    which the HTML serialisation of a text node escapes. *)
Definition escapeHtml (text : jsstring) : jsstring :=
  flat_map (fun c =>
              if (c =? 38)%N then lit "&amp;"
              else if (c =? 160)%N then lit "&nbsp;"
              else if (c =? 60)%N then lit "&lt;"
              else if (c =? 62)%N then lit "&gt;"
              else [c])
           text.

Fixpoint findChapterFrom (wordPosition currentPosition : Z) (remaining : list Content)
    (fallback : option Content) : option Content :=
  match remaining with
  | [] => fallback
  | chapter :: rest =>
      let chapterWordCount := countWords (c_textContent chapter) in
      if (wordPosition >=? currentPosition)
         && (wordPosition <? currentPosition + chapterWordCount)
      then Some chapter
      else findChapterFrom wordPosition (currentPosition + chapterWordCount) rest fallback
  end.

(** The fallback [originalContent[originalContent.length - 1]] is
    [undefined] for an empty array. *)
Definition findChapterAtPosition (wordPosition : Z) (originalContent : list Content)
    : option Content :=
  findChapterFrom wordPosition 0 originalContent
    (last (map Some originalContent) None).

(** [chapter?.title || 'Unknown'] *)
Definition titleOrUnknown (chapter : option Content) : jsstring :=
  match chapter with
  | Some c => match c_title c with [] => lit "Unknown" | t => t end
  | None => lit "Unknown"
  end.

(** A chunk as handed to the display and the export. *)
Record FinalChunk : Type := mkFinalChunk {
  f_id : jsstring;
  f_title : jsstring;
  f_textContent : jsstring;
  f_htmlContent : jsstring;
  f_wordCount : Z;
  startChapter : jsstring;
  endChapter : jsstring
}.

Definition quote : N := 34%N.

Definition formatFinalChunks (chunks : list Chunk) (originalContent : list Content)
    : list FinalChunk :=
  map (fun chunk =>
         let textContent := join (lit " ") (words chunk) in
         let startChapter := findChapterAtPosition (startWordIndex chunk) originalContent in
         let endChapter := findChapterAtPosition (endWordIndex chunk - 1) originalContent in
         let htmlContent :=
           lit "<div class=" ++ [quote] ++ lit "chunk-content" ++ [quote] ++ lit ">"
           ++ escapeHtml textContent ++ lit "</div>" in
         mkFinalChunk (id chunk) (title chunk) textContent htmlContent (wordCount chunk)
           (titleOrUnknown startChapter) (titleOrUnknown endChapter))
      chunks.

(** The working chunks [createIntelligentChunks] formats at its end. *)
Definition refinedChunksOf (fuel : nat) (contents : list Content)
    (chunkCount targetWords tolerance : Z) : result (list Chunk) :=
  let full := combineContentWithMarkers contents in
  let chunks := initialChunkSplit full chunkCount targetWords in
  refineChunksRecursively fuel chunks chunkCount targetWords tolerance 0 5.

Definition createIntelligentChunks (fuel : nat) (contents : list Content)
    (chunkCount targetWords tolerance : Z) : result (list FinalChunk) :=
  chunks <- refinedChunksOf fuel contents chunkCount targetWords tolerance ;;
  Ok (formatFinalChunks chunks contents).

(** [chapters.sort((a, b) => a.spineOrder - b.spineOrder)]: the sort of
    an array is stable. *)
Fixpoint insertBySpineOrder (a : Chapter) (sorted : list Chapter) : list Chapter :=
  match sorted with
  | [] => [a]
  | b :: rest =>
      if spineOrder a <=? spineOrder b then a :: sorted
      else b :: insertBySpineOrder a rest
  end.

Definition sortBySpineOrder (chapters : list Chapter) : list Chapter :=
  fold_right insertBySpineOrder [] chapters.

(** [chapters.reduce((sum, chapter) => sum + (chapter.wordCount || 0), 0)] *)
Definition sumWordCounts (chapters : list Chapter) : Z :=
  fold_left (fun sum chapter => sum + ch_wordCount chapter) chapters 0.

(** The constants [targetWordsPerChunk] and [tolerance] of
    [splitIntoChunks] and [calculateChunks].  [Math.floor(t * 0.1)] is
    [t / 10] for an integer below 2^53, as in [findOptimalSplitPoint]. *)
Definition targetWordsPerChunk (chapters : list Chapter) (chunkCount : Z) : Z :=
  sumWordCounts chapters / chunkCount.

Definition toleranceOf (targetWordsPerChunk : Z) : Z := targetWordsPerChunk / 10.

Definition fullContentOf (chapters : list Chapter) : list Content :=
  map (fun chapter =>
         mkContent (ch_title chapter) (ch_textContent chapter) (ch_htmlContent chapter))
      (sortBySpineOrder chapters).

(** [splitIntoChunks] up to the assignment of [this.currentChunks];
    [chunkCount] is the integer [parseInt] read from the input field (the
    not-a-number result is outside this model). *)
Definition splitIntoChunks (fuel : nat) (chapters : list Chapter) (chunkCount : Z)
    : result (list FinalChunk) :=
  let target := targetWordsPerChunk chapters chunkCount in
  let tolerance := toleranceOf target in
  createIntelligentChunks fuel (fullContentOf chapters) chunkCount target tolerance.

(** What [calculateChunks] shows: the alert, or the preview figures
    (total, target, lower and upper bound).  [None] is [NaN]. *)
Inductive Preview : Type :=
| Alert (message : jsstring)
| Figures (totalWords targetWordsPerChunk minWords maxWords : Z).

Definition calculateChunks (chapters : list Chapter) (chunkCount : option Z) : Preview :=
  match chunkCount with
  | None => Alert (lit "Please enter a valid number of chunks (minimum 2)")
  | Some chunkCount =>
      if chunkCount <? 2 then Alert (lit "Please enter a valid number of chunks (minimum 2)")
      else
        let totalWords := sumWordCounts chapters in
        let target := totalWords / chunkCount in
        let tolerance := target / 10 in
        Figures totalWords target (target - tolerance) (target + tolerance)
  end.

(** *** Selection and export

    The selections are [Set]s of identifiers, used through [add],
    [delete], [has], [size] and [clear]: lists without repetition, in the
    order of insertion. *)
Definition setHas (key : jsstring) (set : list jsstring) : bool := existsb (eqs key) set.

Definition setAdd (key : jsstring) (set : list jsstring) : list jsstring :=
  if setHas key set then set else set ++ [key].

Definition setDelete (key : jsstring) (set : list jsstring) : list jsstring :=
  filter (fun k => negb (eqs k key)) set.

Definition selectAllChapters (chapters : list Chapter) (selectedChapters : list jsstring)
    : list jsstring :=
  fold_left (fun set chapter => setAdd (ch_id chapter) set) chapters selectedChapters.

Definition deselectAllChapters (selectedChapters : list jsstring) : list jsstring := [].

Definition selectAllChunks (currentChunks : list FinalChunk) (selectedChunks : list jsstring)
    : list jsstring :=
  fold_left (fun set chunk => setAdd (f_id chunk) set) currentChunks selectedChunks.

Definition deselectAllChunks (currentChunks : list FinalChunk)
    (selectedChunks : list jsstring) : list jsstring :=
  fold_left (fun set chunk => setDelete (f_id chunk) set) currentChunks selectedChunks.

(** [parseInt(s)] without a radix: leading white space, a sign, the
    prefix [0x] for radix 16, and the longest run of digits; [None] is
    [NaN].  The value is exact below 2^53. *)
Definition digitValue (c : N) : option Z :=
  if isDigit c then Some (Z.of_N c - 48)
  else if ((97 <=? c) && (c <=? 122))%N then Some (Z.of_N c - 87)
  else if ((65 <=? c) && (c <=? 90))%N then Some (Z.of_N c - 55)
  else None.

Fixpoint digitsPrefix (radix : Z) (s : jsstring) : list Z :=
  match s with
  | [] => []
  | c :: s' =>
      match digitValue c with
      | Some d => if d <? radix then d :: digitsPrefix radix s' else []
      | None => []
      end
  end.

Definition parseInt (s : jsstring) : option Z :=
  let s := dropSpaces s in
  let '(sign, s) :=
    match s with
    | c :: rest => if (c =? 45)%N then (-1, rest) else if (c =? 43)%N then (1, rest) else (1, s)
    | [] => (1, s)
    end in
  let '(radix, s) :=
    match s with
    | zero :: x :: rest =>
        if ((zero =? 48) && ((x =? 120) || (x =? 88)))%N then (16, rest) else (10, s)
    | _ => (10, s)
    end in
  match digitsPrefix radix s with
  | [] => None
  | digits => Some (sign * fold_left (fun n d => radix * n + d) digits 0)
  end.

(** [parseInt(chunk.id.split('-')[1])]; the second piece is [undefined]
    for an identifier without a dash, which [parseInt] reads as [NaN]. *)
Definition chunkNumber (chunk : FinalChunk) : option Z :=
  match nth_error (splitAt 45%N (f_id chunk)) 1 with
  | Some piece => parseInt piece
  | None => None
  end.

(** [chunks.sort((a, b) => number(a) - number(b))].  With a [NaN] among
    the numbers the comparator is not consistent and the order is left to
    the implementation: that case is [None]. *)
Fixpoint insertByNumber (a : Z * FinalChunk) (sorted : list (Z * FinalChunk))
    : list (Z * FinalChunk) :=
  match sorted with
  | [] => [a]
  | b :: rest =>
      if fst a <=? fst b then a :: sorted else b :: insertByNumber a rest
  end.

Fixpoint withNumbers (chunks : list FinalChunk) : option (list (Z * FinalChunk)) :=
  match chunks with
  | [] => Some []
  | chunk :: rest =>
      match chunkNumber chunk, withNumbers rest with
      | Some n, Some numbered => Some ((n, chunk) :: numbered)
      | _, _ => None
      end
  end.

Definition sortByChunkNumber (chunks : list FinalChunk) : option (list FinalChunk) :=
  option_map (fun numbered => map snd (fold_right insertByNumber [] numbered))
    (withNumbers chunks).

(** [exportSelectedChapters] up to the items handed to the generation of
    the document. *)
Inductive Mode : Type := ChaptersMode | ChunksMode.

Inductive Export : Type :=
| NothingExported
| ExportedChapters (selectedItems : list Chapter)
| ExportedChunks (selectedItems : list FinalChunk)
| OrderUnspecified.

Definition exportSelectedChapters (currentMode : Mode) (chapters : list Chapter)
    (currentChunks : list FinalChunk) (selectedChapters selectedChunks : list jsstring)
    : Export :=
  match currentMode with
  | ChunksMode =>
      if len selectedChunks =? 0 then NothingExported
      else
        match sortByChunkNumber
                (filter (fun chunk => setHas (f_id chunk) selectedChunks) currentChunks) with
        | Some selectedItems => ExportedChunks selectedItems
        | None => OrderUnspecified
        end
  | ChaptersMode =>
      if len selectedChapters =? 0 then NothingExported
      else
        ExportedChapters
          (sortBySpineOrder (filter (fun ch => setHas (ch_id ch) selectedChapters) chapters))
  end.

End EPUBSplitterApp.

(* ================================================================== *)
(** ** The file server ([server.js]) *)

Module Server.

(** [path.join] and [path.resolve] of POSIX for an absolute path: the
    segments between the slashes are read from the left; an empty segment
    and [.] are dropped, [..] removes the segment before it, if there is
    one, and any other segment is kept. *)
Definition slash : N := 47%N.
Definition dot : N := 46%N.

Definition normalizeStep (kept : list jsstring) (segment : jsstring) : list jsstring :=
  if eqs segment [] || eqs segment [dot] then kept
  else if eqs segment [dot; dot] then removelast kept
  else kept ++ [segment].

Definition normalizeSegments (path : jsstring) : list jsstring :=
  fold_left normalizeStep (splitAt slash path) [].

(** [path.resolve(p)] for an absolute [p]: no trailing slash. *)
Definition resolve (path : jsstring) : jsstring :=
  [slash] ++ join [slash] (normalizeSegments path).

(** [path.join(a, b, c)] for an absolute [a]: empty arguments are left
    out, and a trailing slash is kept. *)
Definition joinPaths (a b c : jsstring) : jsstring :=
  let joined :=
    a ++ (match b with [] => [] | _ => [slash] ++ b end)
      ++ (match c with [] => [] | _ => [slash] ++ c end) in
  let normalized := normalizeSegments joined in
  [slash] ++ join [slash] normalized
  ++ (if endsWith joined [slash] && negb (eqs (join [slash] normalized) [])
      then [slash] else []).

(** The file system and the response, as the two routes use them: each
    field tells whether the call succeeds, that is, does not throw.
    [setHeader] stands for the three calls of [res.setHeader], of which
    the last is given the value built from the file name. *)
Record FileSystem : Type := mkFileSystem {
  access : jsstring -> bool;
  stat : jsstring -> bool;
  setHeader : jsstring -> bool;
  readFile : jsstring -> bool;
  unlink : jsstring -> bool
}.

(** The answers of [GET /api/files/:filename] and of
    [DELETE /api/files/:filename], from the decoded file name on:
    403, 404, the file or the confirmation of the deletion, and the 500
    of the outer [catch].  [dirname] is [__dirname]. *)
Inductive Response : Type :=
| AccessDenied
| FileNotFound
| FileServed (filePath : jsstring)
| FileDeleted (filePath : jsstring)
| ServerError.

Definition withinFiles (dirname filename : jsstring) : bool :=
  let filePath := joinPaths dirname (lit "files") filename in
  let resolvedPath := resolve filePath in
  let filesDir := resolve (joinPaths dirname (lit "files") []) in
  startsWith resolvedPath filesDir.

(** [`attachment; filename="${filename}"`] *)
Definition contentDisposition (filename : jsstring) : jsstring :=
  lit "attachment; filename=" ++ [34%N] ++ filename ++ [34%N].

Definition getFile (dirname : jsstring) (fs : FileSystem) (filename : jsstring)
    : Response :=
  let filePath := joinPaths dirname (lit "files") filename in
  if negb (withinFiles dirname filename) then AccessDenied
  else if negb (access fs filePath) then FileNotFound
  else if negb (stat fs filePath) then ServerError
  else if negb (setHeader fs (contentDisposition filename)) then ServerError
  else if negb (readFile fs filePath) then ServerError
  else FileServed filePath.

Definition deleteFile (dirname : jsstring) (fs : FileSystem) (filename : jsstring)
    : Response :=
  let filePath := joinPaths dirname (lit "files") filename in
  if negb (withinFiles dirname filename) then AccessDenied
  else if negb (access fs filePath) then FileNotFound
  else if negb (unlink fs filePath) then ServerError
  else FileDeleted filePath.

End Server.

(* ================================================================== *)
(** ** Vocabulary of the specification *)

Import EPUBSplitterApp.

(** The corpus: the word sequence of the concatenated chapter texts. *)
Definition corpusWords (contents : list Content) : list jsstring :=
  splitWords (text (combineContentWithMarkers contents)).

(** A chunk agrees with itself: its count is the number of its words and
    its range has that length. *)
Definition wellFormed (c : Chunk) : Prop :=
  wordCount c = len (words c) /\ endWordIndex c = startWordIndex c + wordCount c.

(** The chunks, in their order, tile the interval from [from] to [to]:
    each one starts where its predecessor ends. *)
Fixpoint tiles (from : Z) (chunks : list Chunk) (to : Z) : Prop :=
  match chunks with
  | [] => from = to
  | c :: rest => startWordIndex c = from /\ wellFormed c /\ tiles (endWordIndex c) rest to
  end.

Definition flatWords (chunks : list Chunk) : list jsstring := concat (map words chunks).

(** Half-open word-index ranges, their stable sort by start, and what it
    means for a sequence of ranges to cover an interval without gap or
    overlap. *)
Definition wordRange (c : Chunk) : Z * Z := (startWordIndex c, endWordIndex c).

Fixpoint insertByStart (r : Z * Z) (sorted : list (Z * Z)) : list (Z * Z) :=
  match sorted with
  | [] => [r]
  | r' :: rest => if fst r <=? fst r' then r :: sorted else r' :: insertByStart r rest
  end.

Definition sortByStart (ranges : list (Z * Z)) : list (Z * Z) :=
  fold_right insertByStart [] ranges.

Fixpoint Contiguous (from : Z) (ranges : list (Z * Z)) (to : Z) : Prop :=
  match ranges with
  | [] => from = to
  | r :: rest => fst r = from /\ fst r <= snd r /\ Contiguous (snd r) rest to
  end.

Definition sumZ (l : list Z) : Z := fold_right Z.add 0 l.

(** Break-point rules in the words of the specification. *)
Definition EndsIn (class : list N) (w : jsstring) : Prop :=
  exists p c, w = p ++ [c] /\ In c class.

Definition Contains (sub w : jsstring) : Prop :=
  exists p q, w = p ++ sub ++ q.

Definition StartsWith (sub w : jsstring) : Prop :=
  exists q, w = sub ++ q.

(** Two units are the same letter up to case when they are equal or are
    the two cases of one basic Latin letter. *)
Definition sameLetter (x y : N) : Prop :=
  x = y \/ (isUpperAZ x = true /\ y = (x + 32)%N) \/ (isUpperAZ y = true /\ x = (y + 32)%N).

(** A word none of whose units is a capital. *)
Definition noCapital (w : jsstring) : Prop := Forall (fun c => isUpperAZ c = false) w.

Definition ContainsNoCase (sub w : jsstring) : Prop :=
  exists p u q, w = p ++ u ++ q /\ Forall2 sameLetter u sub.

Definition StartsWithNoCase (sub w : jsstring) : Prop :=
  exists u q, w = u ++ q /\ Forall2 sameLetter u sub.

(** What the code tests for the fourth rule: the word begins with a
    capital of the basic Latin alphabet, [A] to [Z]. *)
Definition StartsWithCapital (w : jsstring) : Prop :=
  exists c rest, w = c :: rest /\ (65 <= c <= 90)%N.

Definition bonus (applies : bool) (points : Z) : Z := if applies then points else 0.

Definition sentenceEnds : list N := [46%N; 33%N; 63%N].
Definition punctuation : list N := [46%N; 33%N; 63%N; 59%N; 58%N].

(** The fourth rule in the words of the specification: the word begins
    with an uppercase letter.  The letters listed are the capitals of the
    basic Latin alphabet, of the Latin-1 supplement (U+00C0 to U+00D6 and
    U+00D8 to U+00DE), of the Greek alphabet (U+0391 to U+03A1 and U+03A3
    to U+03AB) and of the Cyrillic one (U+0400 to U+042F); the alphabets
    further up in Unicode have capitals too, and this list does not weigh
    on what is stated with it below. *)
Definition UppercaseLetter (c : N) : Prop :=
  ((65 <= c <= 90) \/ (192 <= c <= 214) \/ (216 <= c <= 222)
   \/ (913 <= c <= 929) \/ (931 <= c <= 939) \/ (1024 <= c <= 1071))%N.

Definition BeginsWithUppercaseLetter (w : jsstring) : Prop :=
  exists c rest, w = c :: rest /\ UppercaseLetter c.

(** The score as the specification describes it, with the fourth rule in
    its wording: [score] is 0 at index 0 and from the length on, and
    inside the sequence the sum of the bonuses of the rules that apply. *)
Definition scoreAsSpecified (words : list jsstring) (splitIndex score : Z) : Prop :=
  (splitIndex <= 0 \/ len words <= splitIndex -> score = 0)
  /\ (0 < splitIndex < len words ->
      exists beforeWord afterWord,
        nth_error words (Z.to_nat (splitIndex - 1)) = Some beforeWord
        /\ nth_error words (Z.to_nat splitIndex) = Some afterWord
        /\ exists b100 b80 b60 b40 b90 b30 : bool,
             (b100 = true <-> EndsIn sentenceEnds beforeWord)
             /\ (b80 = true <->
                   Contains doubleNewline beforeWord \/ Contains doubleNewline afterWord)
             /\ (b60 = true <-> EndsIn punctuation beforeWord)
             /\ (b40 = true <-> BeginsWithUppercaseLetter afterWord)
             /\ (b90 = true <->
                   ContainsNoCase (lit "chapter") beforeWord
                   \/ ContainsNoCase (lit "chapter") afterWord)
             /\ (b30 = true <->
                   exists t, In t transitionWords /\ StartsWithNoCase t afterWord)
             /\ score = bonus b100 100 + bonus b80 80 + bonus b60 60
                        + bonus b40 40 + bonus b90 90 + bonus b30 30).

(** The working chunks [splitIntoChunks] hands to [formatFinalChunks]. *)
Definition workingChunks (fuel : nat) (chapters : list Chapter) (chunkCount : Z)
    : result (list Chunk) :=
  refinedChunksOf fuel (fullContentOf chapters) chunkCount
    (targetWordsPerChunk chapters chunkCount)
    (toleranceOf (targetWordsPerChunk chapters chunkCount)).

(** Fuel that suffices for a partition into [chunkCount] chunks. *)
Definition enoughFuel (fuel : nat) (chunkCount : Z) : Prop :=
  3 * chunkCount + 5 <= Z.of_nat fuel.

(** The reading order of the archive: the resources the spine names, in
    document order. *)
Definition readingOrder (manifest : EPUBParser.Manifest) (spine : list EPUBParser.SpineItem)
    : list jsstring :=
  flat_map (fun spineItem =>
              match EPUBParser.manifestGet manifest (EPUBParser.idref spineItem) with
              | Some manifestItem => [EPUBParser.href manifestItem]
              | None => []
              end)
           spine.

(** The chapter the spine fallback builds for entry [i]. *)
Definition spineChapter (i : Z) (manifestItem : EPUBParser.ManifestItem)
    (htmlContent textContent : jsstring) : Chapter :=
  mkChapter (lit "spine-" ++ showZ i)
    (lit "Chapter " ++ showZ (i + 1) ++ lit " ("
     ++ last (splitAt EPUBParser.slash (EPUBParser.href manifestItem)) [] ++ lit ")")
    htmlContent textContent (EPUBParser.countWords textContent) i.

(** The meaningful-content condition of navigation-driven extraction. *)
Definition meaningful (ch : Chapter) : Prop :=
  10 < ch_wordCount ch /\ ch_wordCount ch = EPUBParser.countWords (ch_textContent ch).

(** A chapter as the parser builds it: the stored word count is the
    parser's count of the chapter text. *)
Definition parserCounted (ch : Chapter) : Prop :=
  ch_wordCount ch = EPUBParser.countWords (ch_textContent ch).

(** A chunk is substantial for an upper bound when it holds more than a
    fifth of the bound, less one word: too much to be merged with an
    oversized neighbour within 1.2 times the bound. *)
Definition substantial (maxWords : Z) (c : Chunk) : Prop := maxWords < 5 * wordCount c + 5.

(** A chunk of a working sequence: well formed and substantial. *)
Definition sound (maxWords : Z) (c : Chunk) : Prop :=
  wellFormed c /\ substantial maxWords c.

(** Where a chunk written by the scan of a refinement iteration comes
    from: it is a half of an oversized chunk, a chunk kept as it is, or
    the union of an undersized chunk and its successor, neither of them
    oversized and together within 1.2 times the upper bound. *)
Inductive ScanOrigin (minWords maxWords : Z) (chunks : list Chunk) (d : Chunk) : Prop :=
| HalfOfOversized (n : Z) (c : Chunk) :
    In c chunks -> maxWords < wordCount c ->
    d = firstPart n c (splitPointOf c) \/ d = secondPart n c (splitPointOf c) ->
    ScanOrigin minWords maxWords chunks d
| KeptAsIs :
    In d chunks -> wordCount d <= maxWords ->
    ScanOrigin minWords maxWords chunks d
| MergedPair (n : Z) (pre post : list Chunk) (c next : Chunk) :
    chunks = pre ++ c :: next :: post ->
    d = mergedChunk n c next ->
    wordCount c < minWords -> wordCount c <= maxWords -> wordCount next <= maxWords ->
    5 * (wordCount c + wordCount next) <= 6 * maxWords ->
    ScanOrigin minWords maxWords chunks d.

(** The band of [splitIntoChunks] and the working sequence its
    refinement holds after [j] iterations. *)
Definition lowerBound (chapters : list Chapter) (chunkCount : Z) : Z :=
  targetWordsPerChunk chapters chunkCount
  - toleranceOf (targetWordsPerChunk chapters chunkCount).

Definition upperBound (chapters : list Chapter) (chunkCount : Z) : Z :=
  targetWordsPerChunk chapters chunkCount
  + toleranceOf (targetWordsPerChunk chapters chunkCount).

Definition workingSequence (fuel j : nat) (chapters : list Chapter) (chunkCount : Z)
    : result (list Chunk) :=
  iterate j
    (fun cs => performChunkRefinement fuel cs chunkCount
                 (targetWordsPerChunk chapters chunkCount)
                 (toleranceOf (targetWordsPerChunk chapters chunkCount)))
    (initialChunkSplit (combineContentWithMarkers (fullContentOf chapters)) chunkCount
       (targetWordsPerChunk chapters chunkCount)).

(** The working sequences of a partition of [total] words: they tile the
    corpus and all their chunks are substantial. *)
Definition reachable (total maxWords : Z) (chunks : list Chunk) : Prop :=
  tiles 0 chunks total /\ Forall (substantial maxWords) chunks.

(** Two short chapters used to exercise the statements below. *)
Definition sampleChapters : list Chapter :=
  [mkChapter (lit "nav-root-0-0") (lit "One") (lit "<p>alpha beta gamma delta.</p>")
     (lit "alpha beta gamma delta.") 4 1;
   mkChapter (lit "nav-root-1-0") (lit "Two") (lit "<p>Epsilon zeta eta</p>")
     (lit "Epsilon zeta eta") 3 2].

(** A small archive: the spine reads the prologue first, and the manifest
    identifiers carry numbers in the other order.  The markup helpers are
    stand-ins that return the path as markup and a fixed text. *)
Definition sampleManifest : EPUBParser.Manifest :=
  [(lit "item2",
    EPUBParser.mkManifestItem (lit "OEBPS/prologue.xhtml") (lit "application/xhtml+xml") []);
   (lit "item1",
    EPUBParser.mkManifestItem (lit "OEBPS/story.xhtml") (lit "application/xhtml+xml") [])].

Definition sampleSpine : list EPUBParser.SpineItem :=
  [EPUBParser.mkSpineItem (lit "item2") 0 true;
   EPUBParser.mkSpineItem (lit "item1") 1 true].

Definition sampleNavigation : list EPUBParser.NavItem :=
  [EPUBParser.mkNavItem (lit "nav-root-0-0") (lit "Prologue") (lit "prologue.xhtml");
   EPUBParser.mkNavItem (lit "nav-root-1-0") (lit "Story") (lit "story.xhtml")].

Definition sampleZipHas : jsstring -> bool := fun _ => true.
Definition sampleHTML : jsstring -> option jsstring := fun path => Some path.
Definition sampleFragment : jsstring -> jsstring -> option jsstring :=
  fun htmlContent _ => Some htmlContent.
Definition sampleLongText : jsstring -> option jsstring :=
  fun _ => Some (lit "one two three four five six seven eight nine ten eleven twelve").
Definition sampleShortText : jsstring -> option jsstring :=
  fun _ => Some (lit "Dedication").

(** A chapter of list items: the dashes are tokens without a word
    character. *)
Definition listChapters : list Chapter :=
  [mkChapter (lit "nav-root-0-0") (lit "Shopping") (lit "<ul><li>milk</li></ul>")
     (lit "- milk - eggs - bread - tea") 4 1].

(** An array no partition produces: a chunk of one word before a chunk of
    twelve. *)
Definition tinyChunk : Chunk :=
  mkChunk (chunkId 1) (chunkTitle 1) [lit "It"] 1 0 1.

Definition largeChunk : Chunk :=
  mkChunk (chunkId 2) (chunkTitle 2) (repeat (lit "rained") 12) 12 1 13.

(** A sentence end before a name that begins with U+00C9, the capital E
    with an acute accent. *)
Definition accentedName : jsstring := 201%N :: lit "ric".

Definition accentedWords : list jsstring := [lit "End."; accentedName].

(* ================================================================== *)
(** ** Further vocabulary *)

(** A word without white space, and a word as the corpus holds them. *)
Definition spaceFree (w : jsstring) : Prop := Forall (fun c => isSpace c = false) w.

Definition plainWord (w : jsstring) : Prop := w <> [] /\ spaceFree w.

(** The number of corpus words the chapters [pre] contribute. *)
Definition wordsOf (pre : list Content) : Z :=
  sumZ (map (fun c => countWords (c_textContent c)) pre).

(** The chapter markers follow each other from [from] to [to], each one
    as long as its chapter text has words. *)
Fixpoint markersTile (from : Z) (markers : list marker) (to : Z) : Prop :=
  match markers with
  | [] => from = to
  | m :: rest =>
      startPosition m = from
      /\ endPosition m = from + countWords (m_textContent m)
      /\ markersTile (endPosition m) rest to
  end.

(** The chunk the initial split puts at index [i]. *)
Definition initialChunk (corpus : list jsstring) (chunkCount i : Z) : Chunk :=
  let q := len corpus / chunkCount in
  let size := if i =? chunkCount - 1 then q + len corpus mod chunkCount else q in
  mkChunk (chunkId (i + 1)) (chunkTitle (i + 1))
    (firstn (Z.to_nat size) (skipn (Z.to_nat (i * q)) corpus))
    size (i * q) (i * q + size).

(** The identifiers and titles [chunk-1], [chunk-2], ... of [n] chunks. *)
Definition sequentialIds (n : Z) : list jsstring := map chunkId (range 1 (n + 1)).
Definition sequentialTitles (n : Z) : list jsstring := map chunkTitle (range 1 (n + 1)).

(** What a chunk holds apart from its number. *)
Definition chunkData (c : Chunk) : list jsstring * Z * Z * Z :=
  (words c, wordCount c, startWordIndex c, endWordIndex c).

(** A third chunk after [tinyChunk] and [largeChunk]. *)
Definition trailingChunk : Chunk :=
  mkChunk (chunkId 3) (chunkTitle 3) [lit "down"] 1 13 14.

(** The value of a computation that returned. *)
Definition valueOr {A : Type} (default : A) (r : result A) : A :=
  match r with
  | Ok a => a
  | _ => default
  end.

(** *** The navigation documents *)

(** Induction on the list items and on the navigation points, with the
    property known of the nested ones. *)
Section DocumentInduction.

Variable P : EPUBParser.ListItem -> Prop.
Hypothesis item_step :
  forall link nestedOl,
    (forall ol, nestedOl = Some ol -> Forall P ol) ->
    P (EPUBParser.mkListItem link nestedOl).

Fixpoint ListItem_nested_ind (li : EPUBParser.ListItem) : P li :=
  match li with
  | EPUBParser.mkListItem link nestedOl =>
      item_step link nestedOl
        (match nestedOl as o return forall ol, o = Some ol -> Forall P ol with
         | None => fun ol H => match H in _ = x return
                                     match x with Some _ => Forall P ol | None => True end
                               with eq_refl => I end
         | Some ol0 =>
             fun ol H =>
               match H in _ = x return
                     match x with Some y => Forall P y | None => True end
               with
               | eq_refl =>
                   (fix each (l : list EPUBParser.ListItem) : Forall P l :=
                      match l with
                      | [] => Forall_nil P
                      | x :: rest => Forall_cons x (ListItem_nested_ind x) (each rest)
                      end) ol0
               end
         end)
  end.

Variable Q : EPUBParser.NavPoint -> Prop.
Hypothesis point_step :
  forall navLabel content children,
    Forall Q children -> Q (EPUBParser.mkNavPoint navLabel content children).

Fixpoint NavPoint_nested_ind (navPoint : EPUBParser.NavPoint) : Q navPoint :=
  match navPoint with
  | EPUBParser.mkNavPoint navLabel content children =>
      point_step navLabel content children
        ((fix each (l : list EPUBParser.NavPoint) : Forall Q l :=
            match l with
            | [] => Forall_nil Q
            | x :: rest => Forall_cons x (NavPoint_nested_ind x) (each rest)
            end) children)
  end.

End DocumentInduction.

(** The entries a list item and a navigation point stand for: the item
    or point itself, when it has what an entry needs, and then the
    entries of the nested ones, in document order. *)
Fixpoint listedItems (li : EPUBParser.ListItem) : list jsstring :=
  match li with
  | EPUBParser.mkListItem None _ => []
  | EPUBParser.mkListItem (Some (href, _)) nestedOl =>
      EPUBParser.withoutFragment href
      :: match nestedOl with
         | None => []
         | Some ol => flat_map listedItems ol
         end
  end.

Fixpoint listedPoints (navPoint : EPUBParser.NavPoint) : list jsstring :=
  match navPoint with
  | EPUBParser.mkNavPoint (Some _) (Some src) children =>
      EPUBParser.withoutFragment src :: flat_map listedPoints children
  | _ => []
  end.

(** A navigation entry as the two parsers build them: the href holds no
    [#] and the title is not empty. *)
Definition parsedEntry (navItem : EPUBParser.NavItem) : Prop :=
  includes (EPUBParser.nav_href navItem) [EPUBParser.hash] = false
  /\ EPUBParser.nav_title navItem <> [].

(** The key under which navigation-driven extraction remembers an entry
    it has handled: [`${manifestItem.href}#${navItem.href}`], when a
    manifest item matches the entry and is in the archive. *)
Definition fileKeyOf (zipHas : jsstring -> bool) (manifest : EPUBParser.Manifest)
    (navItem : EPUBParser.NavItem) : option jsstring :=
  match find (fun item =>
                endsWith (EPUBParser.href item) (EPUBParser.nav_href navItem)
                || includes (EPUBParser.href item)
                     (hd [] (splitAt EPUBParser.hash (EPUBParser.nav_href navItem))))
             (map snd manifest) with
  | Some manifestItem =>
      if zipHas (EPUBParser.href manifestItem)
      then Some (EPUBParser.href manifestItem ++ [EPUBParser.hash]
                 ++ EPUBParser.nav_href navItem)
      else None
  | None => None
  end.

(** A table of contents with a nested list, and the same book as an NCX
    map. *)
Definition sampleToc : list EPUBParser.ListItem :=
  [EPUBParser.mkListItem (Some (Some (lit "prologue.xhtml"), lit " Prologue ")) None;
   EPUBParser.mkListItem (Some (Some (lit "story.xhtml#part1"), lit "Story"))
     (Some [EPUBParser.mkListItem (Some (Some (lit "story.xhtml#part2"), [])) None])].

Definition sampleNavMap : list EPUBParser.NavPoint :=
  [EPUBParser.mkNavPoint (Some (lit "Prologue")) (Some (Some (lit "prologue.xhtml"))) [];
   EPUBParser.mkNavPoint (Some (lit "Story")) (Some (Some (lit "story.xhtml#part1")))
     [EPUBParser.mkNavPoint (Some (lit "Part 2")) (Some (Some (lit "story.xhtml#part2")))
        []]].

(** *** Paths *)

(** A segment of a normalized path, and the absolute path of a list of
    segments. *)
Definition plainSegment (segment : jsstring) : Prop :=
  segment <> [] /\ segment <> [Server.dot] /\ segment <> [Server.dot; Server.dot]
  /\ ~ In Server.slash segment.

Definition absolutePath (segments : list jsstring) : jsstring :=
  [Server.slash] ++ join [Server.slash] segments.

(** Chapters as a navigation can give them: out of order, two of them
    with the same [spineOrder]. *)
Definition unsortedChapters : list Chapter :=
  [mkChapter (lit "nav-root-0-0") (lit "Three") (lit "<p>gamma</p>") (lit "gamma") 1 3;
   mkChapter (lit "nav-root-1-0") (lit "One") (lit "<p>alpha</p>") (lit "alpha") 1 1;
   mkChapter (lit "nav-root-2-0") (lit "Three, again") (lit "<p>delta</p>") (lit "delta") 1 3;
   mkChapter (lit "nav-root-3-0") (lit "Two") (lit "<p>beta</p>") (lit "beta") 1 2].

(** A file system with two entries beside the [files] directory of
    [/srv/app]: the regular file [files.json] and the directory
    [files-dir], which is there but can be neither read nor unlinked. *)
Definition besideFiles : Server.FileSystem :=
  Server.mkFileSystem
    (fun path => eqs path (lit "/srv/app/files.json") || eqs path (lit "/srv/app/files-dir"))
    (fun path => eqs path (lit "/srv/app/files.json") || eqs path (lit "/srv/app/files-dir"))
    (fun _ => true)
    (fun path => eqs path (lit "/srv/app/files.json"))
    (fun path => eqs path (lit "/srv/app/files.json")).

(* ================================================================== *)
(** ** Facts about the string operations *)

Lemma len_nonneg {A : Type} (l : list A) : 0 <= len l.
Proof. unfold len. lia. Qed.

Lemma len_app {A : Type} (l1 l2 : list A) : len (l1 ++ l2) = len l1 + len l2.
Proof. unfold len. rewrite length_app. lia. Qed.

Lemma startsWith_spec (s p : jsstring) :
  startsWith s p = true <-> StartsWith p s.
Proof.
  revert s. induction p as [|x p IH]; intros [|y s]; simpl.
  - split; [intros _; exists []; reflexivity | reflexivity].
  - split; [intros _; exists (y :: s); reflexivity | reflexivity].
  - split; [discriminate | intros [q H]; discriminate].
  - rewrite andb_true_iff, N.eqb_eq, IH. split.
    + intros [-> [q ->]]. exists q. reflexivity.
    + intros [q H]. injection H as -> ->. split; [reflexivity | exists q; reflexivity].
Qed.

Lemma includes_spec (s p : jsstring) :
  includes s p = true <-> Contains p s.
Proof.
  induction s as [|y s IH].
  - change (includes [] p) with (startsWith [] p || false).
    rewrite orb_false_r, startsWith_spec. split.
    + intros [q H]. exists [], q. exact H.
    + intros [a [b H]]. destruct a; [exists b; exact H | discriminate].
  - change (includes (y :: s) p) with (startsWith (y :: s) p || includes s p).
    rewrite orb_true_iff, startsWith_spec, IH. split.
    + intros [[q H] | [a [b H]]].
      * exists [], q. exact H.
      * exists (y :: a), b. simpl. rewrite H. reflexivity.
    + intros [a [b H]]. destruct a as [|z a].
      * left. exists b. exact H.
      * right. injection H as _ H. exists a, b. exact H.
Qed.

Lemma matchClassAtEnd_spec (cls : N -> bool) (class : list N) (s : jsstring) :
  (forall c, cls c = true <-> In c class) ->
  matchClassAtEnd cls s = true <-> EndsIn class s.
Proof.
  intros Hcls. unfold matchClassAtEnd, EndsIn.
  destruct (rev s) as [|c r] eqn:E.
  - apply (f_equal (@rev N)) in E. rewrite rev_involutive in E. subst s. simpl. split.
    + discriminate.
    + intros [p [c [H _]]]. destruct p; discriminate.
  - apply (f_equal (@rev N)) in E. rewrite rev_involutive in E. simpl in E. subst s.
    rewrite Hcls. split.
    + intros H. exists (rev r), c. split; [reflexivity | exact H].
    + intros [p [c' [H Hin]]]. apply app_inj_tail in H. destruct H as [_ ->]. exact Hin.
Qed.

Lemma isSentenceEnd_spec (c : N) : isSentenceEnd c = true <-> In c sentenceEnds.
Proof.
  unfold isSentenceEnd, sentenceEnds. simpl.
  rewrite !orb_true_iff, !N.eqb_eq. intuition congruence.
Qed.

Lemma isPunctuation_spec (c : N) : isPunctuation c = true <-> In c punctuation.
Proof.
  unfold isPunctuation, punctuation. simpl.
  rewrite !orb_true_iff, !N.eqb_eq. intuition congruence.
Qed.

Lemma startsWithCapital_spec (w : jsstring) :
  startsWithCapital w = true <-> StartsWithCapital w.
Proof.
  unfold startsWithCapital, StartsWithCapital, isUpperAZ. destruct w as [|c w].
  - split; [discriminate | intros [c [r [H _]]]; discriminate].
  - rewrite andb_true_iff, !N.leb_le. split.
    + intros H. exists c, w. split; [reflexivity | exact H].
    + intros [c' [r [H Hc]]]. injection H as -> _. exact Hc.
Qed.

Lemma lower_sameLetter (x y : N) :
  isUpperAZ y = false ->
  ((if isUpperAZ x then (x + 32)%N else x) = y <-> sameLetter x y).
Proof.
  intros Hy. unfold sameLetter. destruct (isUpperAZ x) eqn:Hx.
  - split.
    + intros <-. right. left. split; reflexivity.
    + intros [-> | [[_ ->] | [Hy' _]]]; [congruence | reflexivity | congruence].
  - split.
    + intros ->. left. reflexivity.
    + intros [-> | [[Hx' _] | [Hy' _]]]; [reflexivity | congruence | congruence].
Qed.

Lemma toLowerCase_eq (u sub : jsstring) :
  noCapital sub -> (toLowerCase u = sub <-> Forall2 sameLetter u sub).
Proof.
  intros Hsub. revert u. induction Hsub as [|y sub Hy _ IH]; intros u.
  - destruct u; simpl; split; try discriminate; try constructor.
    intros H. inversion H.
  - destruct u as [|x u]; simpl.
    + split; [discriminate | intros H; inversion H].
    + split.
      * intros H. injection H as Hx Hu. constructor.
        -- apply lower_sameLetter; assumption.
        -- apply IH. exact Hu.
      * intros H. inversion H; subst. f_equal.
        -- apply lower_sameLetter; assumption.
        -- apply IH. assumption.
Qed.

Lemma toLowerCase_app (a b : jsstring) : toLowerCase (a ++ b) = toLowerCase a ++ toLowerCase b.
Proof. apply map_app. Qed.

Lemma includes_lower_spec (w sub : jsstring) :
  noCapital sub -> (includes (toLowerCase w) sub = true <-> ContainsNoCase sub w).
Proof.
  intros Hsub. rewrite includes_spec. unfold Contains, ContainsNoCase. split.
  - intros [p [q H]]. unfold toLowerCase in H.
    apply map_eq_app in H. destruct H as [p' [r [-> [Hp Hr]]]].
    apply map_eq_app in Hr. destruct Hr as [u [q' [-> [Hu Hq]]]].
    exists p', u, q'. split; [reflexivity | apply toLowerCase_eq; assumption].
  - intros [p [u [q [-> H]]]]. exists (toLowerCase p), (toLowerCase q).
    rewrite !toLowerCase_app. apply toLowerCase_eq in H; [|assumption]. rewrite H. reflexivity.
Qed.

Lemma startsWith_lower_spec (w sub : jsstring) :
  noCapital sub -> (startsWith (toLowerCase w) sub = true <-> StartsWithNoCase sub w).
Proof.
  intros Hsub. rewrite startsWith_spec. unfold StartsWith, StartsWithNoCase. split.
  - intros [q H]. unfold toLowerCase in H.
    apply map_eq_app in H. destruct H as [u [q' [-> [Hu Hq]]]].
    exists u, q'. split; [reflexivity | apply toLowerCase_eq; assumption].
  - intros [u [q [-> H]]]. exists (toLowerCase q).
    rewrite toLowerCase_app. apply toLowerCase_eq in H; [|assumption]. rewrite H. reflexivity.
Qed.

Lemma noCapital_lit_chapter : noCapital (lit "chapter").
Proof. repeat constructor. Qed.

Lemma noCapital_transitionWords : Forall noCapital transitionWords.
Proof. repeat constructor. Qed.

(* ================================================================== *)
(** ** Splitting a text into words *)

Lemma splitSpacesFrom_after_space (s : jsstring) :
  filter nonEmpty (splitSpacesFrom s [] true) = filter nonEmpty (splitSpacesFrom s [] false).
Proof.
  destruct s as [|c s]; simpl.
  - reflexivity.
  - destruct (isSpace c); reflexivity.
Qed.

Lemma splitSpacesFrom_app (a b : jsstring) (c : N) :
  isSpace c = true ->
  forall acc inSep,
    (inSep = true -> acc = []) ->
    filter nonEmpty (splitSpacesFrom (a ++ c :: b) acc inSep)
    = filter nonEmpty (splitSpacesFrom a acc inSep)
      ++ filter nonEmpty (splitSpacesFrom b [] true).
Proof.
  intros Hc. induction a as [|x a IH]; intros acc inSep Hinv.
  - simpl. rewrite Hc. destruct inSep.
    + rewrite (Hinv eq_refl). reflexivity.
    + simpl. destruct (nonEmpty (rev acc)); reflexivity.
  - simpl. destruct (isSpace x).
    + destruct inSep.
      * apply IH. intros _. reflexivity.
      * simpl. rewrite (IH [] true (fun _ => eq_refl)). destruct (nonEmpty (rev acc)); reflexivity.
    + apply IH. discriminate.
Qed.

Lemma splitWords_app (a b : jsstring) (c : N) :
  isSpace c = true -> splitWords (a ++ c :: b) = splitWords a ++ splitWords b.
Proof.
  intros Hc. unfold splitWords, splitSpaces.
  rewrite (splitSpacesFrom_app a b c Hc) by discriminate.
  rewrite splitSpacesFrom_after_space. reflexivity.
Qed.

Lemma splitWords_nil : splitWords [] = [].
Proof. reflexivity. Qed.

Lemma splitWords_space (c : N) (s : jsstring) :
  isSpace c = true -> splitWords (c :: s) = splitWords s.
Proof. intros Hc. exact (splitWords_app [] s c Hc). Qed.

Lemma splitWords_dropSpaces (s : jsstring) : splitWords (dropSpaces s) = splitWords s.
Proof.
  induction s as [|c s IH]; simpl.
  - reflexivity.
  - destruct (isSpace c) eqn:E; [|reflexivity].
    rewrite IH. symmetry. apply splitWords_space. exact E.
Qed.

Lemma splitWords_dropTrailing (s : jsstring) :
  splitWords (rev (dropSpaces (rev s))) = splitWords s.
Proof.
  induction s as [|c s IH] using rev_ind.
  - reflexivity.
  - rewrite rev_app_distr. simpl. destruct (isSpace c) eqn:E.
    + rewrite IH. rewrite (splitWords_app s [] c E), splitWords_nil, app_nil_r. reflexivity.
    + simpl. rewrite rev_involutive. reflexivity.
Qed.

Lemma splitWords_trim (s : jsstring) : splitWords (trim s) = splitWords s.
Proof. unfold trim. rewrite splitWords_dropTrailing. apply splitWords_dropSpaces. Qed.

Lemma filter_both {A : Type} (p q : A -> bool) (l : list A) :
  filter (fun x => p x && q x) l = filter q (filter p l).
Proof.
  induction l as [|x l IH]; simpl.
  - reflexivity.
  - destruct (p x); simpl; [destruct (q x)|]; rewrite IH; reflexivity.
Qed.

(** The parser counts the words of a text that hold a word character. *)
Lemma parser_countWords_spec (text : jsstring) :
  EPUBParser.countWords text = len (filter testWordChar (splitWords text)).
Proof.
  unfold EPUBParser.countWords. rewrite <- (splitWords_trim text).
  destruct (trim text) as [|c t] eqn:E.
  - reflexivity.
  - rewrite filter_both. reflexivity.
Qed.

(** The application counts all of them. *)
Lemma app_countWords_spec (text : jsstring) :
  countWords text = len (splitWords text).
Proof. destruct text; reflexivity. Qed.

Lemma combine_text_from (contents : list Content) (acc : fullText) :
  text (fold_left
          (fun acc chapter =>
             let chapterText := c_textContent chapter in
             let chapterHtml := c_htmlContent chapter in
             let currentPosition := totalWords acc in
             mkFullText
               (text acc ++ chapterText ++ doubleNewline)
               (html acc ++ chapterHtml ++ doubleNewline)
               (currentPosition + countWords chapterText)
               (chapterMarkers acc ++
                  [mkMarker (c_title chapter) currentPosition
                     (currentPosition + countWords chapterText) chapterText chapterHtml]))
          contents acc)
  = text acc ++ concat (map (fun c => c_textContent c ++ doubleNewline) contents).
Proof.
  revert acc. induction contents as [|c contents IH]; intros acc; simpl.
  - rewrite app_nil_r. reflexivity.
  - rewrite IH. simpl. rewrite <- !app_assoc. reflexivity.
Qed.

Lemma corpusWords_concat (contents : list Content) :
  corpusWords contents = concat (map (fun c => splitWords (c_textContent c)) contents).
Proof.
  unfold corpusWords, combineContentWithMarkers. rewrite combine_text_from. simpl.
  induction contents as [|c contents IH]; simpl.
  - reflexivity.
  - rewrite <- app_assoc. simpl.
    rewrite (splitWords_app (c_textContent c) _ 10%N eq_refl).
    rewrite (splitWords_space 10%N _ eq_refl). rewrite IH. reflexivity.
Qed.

Lemma fold_left_add (l : list Chapter) (acc : Z) :
  fold_left (fun sum chapter => sum + ch_wordCount chapter) l acc
  = acc + sumZ (map ch_wordCount l).
Proof.
  revert acc. induction l as [|c l IH]; intros acc; simpl.
  - lia.
  - rewrite IH. lia.
Qed.

Lemma sumWordCounts_spec (chapters : list Chapter) :
  sumWordCounts chapters = sumZ (map ch_wordCount chapters).
Proof. unfold sumWordCounts. rewrite fold_left_add. lia. Qed.

Lemma insertBySpineOrder_perm (a : Chapter) (l : list Chapter) :
  Permutation (a :: l) (insertBySpineOrder a l).
Proof.
  induction l as [|b l IH]; simpl.
  - apply Permutation_refl.
  - destruct (spineOrder a <=? spineOrder b).
    + apply Permutation_refl.
    + apply perm_trans with (b :: a :: l); [apply perm_swap|].
      apply perm_skip. exact IH.
Qed.

Lemma sortBySpineOrder_perm (l : list Chapter) : Permutation l (sortBySpineOrder l).
Proof.
  induction l as [|a l IH]; simpl.
  - apply perm_nil.
  - apply perm_trans with (a :: sortBySpineOrder l); [apply perm_skip; exact IH|].
    apply insertBySpineOrder_perm.
Qed.

Lemma sumZ_perm (l l' : list Z) : Permutation l l' -> sumZ l = sumZ l'.
Proof. intros H. induction H; simpl; lia. Qed.

Lemma len_filter_concat {A : Type} (p : A -> bool) (ls : list (list A)) :
  len (filter p (concat ls)) = sumZ (map (fun l => len (filter p l)) ls).
Proof.
  induction ls as [|l ls IH]; simpl.
  - reflexivity.
  - rewrite filter_app, len_app, IH. reflexivity.
Qed.

Lemma len_filter_le {A : Type} (p : A -> bool) (l : list A) : len (filter p l) <= len l.
Proof. unfold len. pose proof (filter_length_le p l). lia. Qed.

(** For chapters as the parser builds them, the stored word counts add up
    to the number of words of the corpus that hold a word character. *)
Lemma sumWordCounts_corpus (chapters : list Chapter) :
  Forall parserCounted chapters ->
  sumWordCounts chapters = len (filter testWordChar (corpusWords (fullContentOf chapters))).
Proof.
  intros H. rewrite sumWordCounts_spec, corpusWords_concat, len_filter_concat.
  unfold fullContentOf. rewrite !map_map. simpl.
  rewrite (sumZ_perm _ (map ch_wordCount (sortBySpineOrder chapters)))
    by (apply Permutation_map, sortBySpineOrder_perm).
  assert (Hs : Forall parserCounted (sortBySpineOrder chapters)).
  { rewrite Forall_forall in *. intros ch Hin. apply H.
    apply (Permutation_in ch (Permutation_sym (sortBySpineOrder_perm chapters))). exact Hin. }
  induction Hs as [|ch l Hch _ IH]; simpl.
  - reflexivity.
  - unfold parserCounted in Hch. rewrite IH, Hch, parser_countWords_spec. reflexivity.
Qed.

(* ================================================================== *)
(** ** The two products with a decimal constant, in exact arithmetic *)

Lemma toleranceOf_is_floor_of_tenth (target : Z) :
  toleranceOf target = Qfloor (inject_Z target * (1 # 10)).
Proof.
  unfold toleranceOf, Qfloor, Qmult, inject_Z. simpl. rewrite Z.mul_1_r. reflexivity.
Qed.

Lemma fitsMerged_is_rational (combinedWordCount maxWords : Z) :
  fitsMerged combinedWordCount maxWords
  = Qle_bool (inject_Z combinedWordCount) (inject_Z maxWords * (12 # 10)).
Proof.
  unfold fitsMerged.
  change (Qle_bool (inject_Z combinedWordCount) (inject_Z maxWords * (12 # 10)))
    with (combinedWordCount * 10 <=? maxWords * 12 * 1).
  destruct (Z.leb_spec (5 * combinedWordCount) (6 * maxWords));
    destruct (Z.leb_spec (combinedWordCount * 10) (maxWords * 12 * 1)); try reflexivity; lia.
Qed.

(* ================================================================== *)
(** ** Lists, slices and ranges *)

Lemma clampIndex_inside (n i : Z) : 0 <= i <= n -> clampIndex n i = i.
Proof. intros H. unfold clampIndex. destruct (i <? 0) eqn:E; lia. Qed.

Lemma slice_inside {A : Type} (l : list A) (a b : Z) :
  0 <= a <= b -> b <= len l ->
  slice l a b = firstn (Z.to_nat (b - a)) (skipn (Z.to_nat a) l).
Proof.
  intros Hab Hb. unfold slice.
  rewrite !clampIndex_inside by lia. f_equal. lia.
Qed.

Lemma slice_prefix {A : Type} (l : list A) (sp : Z) :
  0 <= sp <= len l -> slice l 0 sp = firstn (Z.to_nat sp) l.
Proof.
  intros H. rewrite slice_inside by lia. simpl. f_equal. lia.
Qed.

Lemma sliceFrom_suffix {A : Type} (l : list A) (sp : Z) :
  0 <= sp <= len l -> sliceFrom l sp = skipn (Z.to_nat sp) l.
Proof.
  intros H. unfold sliceFrom. rewrite slice_inside by lia.
  apply firstn_all2. rewrite length_skipn. unfold len in *. lia.
Qed.

Lemma len_firstn {A : Type} (l : list A) (n : Z) :
  0 <= n <= len l -> len (firstn (Z.to_nat n) l) = n.
Proof. intros H. unfold len in *. rewrite length_firstn. lia. Qed.

Lemma len_skipn {A : Type} (l : list A) (n : Z) :
  0 <= n <= len l -> len (skipn (Z.to_nat n) l) = len l - n.
Proof. intros H. unfold len in *. rewrite length_skipn. lia. Qed.

Lemma in_range (lo hi i : Z) : In i (range lo hi) <-> lo <= i < hi.
Proof.
  unfold range. rewrite in_map_iff. split.
  - intros [k [<- Hk]]. apply in_seq in Hk. lia.
  - intros H. exists (Z.to_nat (i - lo)). split; [lia|]. apply in_seq. lia.
Qed.

Lemma range_empty (lo hi : Z) : hi <= lo -> range lo hi = [].
Proof. intros H. unfold range. replace (Z.to_nat (hi - lo)) with 0%nat by lia. reflexivity. Qed.

Lemma range_cons (lo hi : Z) : lo < hi -> range lo hi = lo :: range (lo + 1) hi.
Proof.
  intros H. unfold range.
  replace (Z.to_nat (hi - lo)) with (S (Z.to_nat (hi - (lo + 1)))) by lia.
  simpl. f_equal; [lia|]. rewrite <- seq_shift, map_map.
  apply map_ext. intros k. lia.
Qed.

Lemma splice1_at {A : Type} (pre post items : list A) (x : A) :
  splice1 (pre ++ x :: post) (length pre) items = pre ++ items ++ post.
Proof.
  unfold splice1. induction pre as [|y pre IH]; simpl.
  - reflexivity.
  - f_equal. exact IH.
Qed.

(* ================================================================== *)
(** ** The break-point search stays inside the word sequence *)

Lemma fold_best_bounds (ws : list jsstring) (candidates : list Z) (best : Z * Z) (lo hi : Z) :
  lo <= fst best <= hi ->
  (forall i, In i candidates -> lo <= i <= hi) ->
  lo <= fst (fold_left
               (fun best i =>
                  let '(bestSplit, bestScore) := best in
                  let score := calculateBreakPointScore ws i in
                  if score >? bestScore then (i, score) else (bestSplit, bestScore))
               candidates best) <= hi.
Proof.
  revert best. induction candidates as [|i candidates IH]; intros best Hbest Hall.
  - exact Hbest.
  - simpl. apply IH.
    + destruct best as [bestSplit bestScore].
      destruct (calculateBreakPointScore ws i >? bestScore); simpl.
      * apply Hall. left. reflexivity.
      * exact Hbest.
    + intros j Hj. apply Hall. right. exact Hj.
Qed.

Lemma findOptimalSplitPoint_bounds (ws : list jsstring) (targetSplit : Z) :
  0 <= targetSplit <= len ws ->
  0 <= findOptimalSplitPoint ws targetSplit <= len ws.
Proof.
  intros H. unfold findOptimalSplitPoint. apply fold_best_bounds.
  - exact H.
  - intros i Hi. apply in_range in Hi. lia.
Qed.

Lemma splitPointOf_bounds (c : Chunk) : 0 <= splitPointOf c <= len (words c).
Proof.
  unfold splitPointOf. apply findOptimalSplitPoint_bounds.
  pose proof (len_nonneg (words c)).
  split; [apply Z.div_pos; lia|]. apply Z.div_le_upper_bound; lia.
Qed.

(* ================================================================== *)
(** ** Tilings *)

Lemma flatWords_app (l1 l2 : list Chunk) : flatWords (l1 ++ l2) = flatWords l1 ++ flatWords l2.
Proof. unfold flatWords. rewrite map_app, concat_app. reflexivity. Qed.

Lemma tiles_app (a c : Z) (l1 l2 : list Chunk) :
  tiles a (l1 ++ l2) c <-> exists b, tiles a l1 b /\ tiles b l2 c.
Proof.
  revert a. induction l1 as [|x l1 IH]; intros a; simpl.
  - split.
    + intros H. exists a. split; [reflexivity | exact H].
    + intros [b [-> H]]. exact H.
  - rewrite IH. split.
    + intros [H1 [H2 [b [H3 H4]]]]. exists b. exact (conj (conj H1 (conj H2 H3)) H4).
    + intros [b [[H1 [H2 H3]] H4]].
      refine (conj H1 (conj H2 _)). exists b. exact (conj H3 H4).
Qed.

Lemma tiles_span (a b : Z) (cs : list Chunk) :
  tiles a cs b -> b = a + len (flatWords cs).
Proof.
  revert a. induction cs as [|c cs IH]; intros a; simpl.
  - intros ->. unfold flatWords, len. simpl. lia.
  - intros [H1 [[H2 H3] H4]]. apply IH in H4.
    change (flatWords (c :: cs)) with (words c ++ flatWords cs).
    rewrite len_app. lia.
Qed.

Lemma tiles_split (n : Z) (c : Chunk) :
  wellFormed c ->
  tiles (startWordIndex c)
    [firstPart n c (splitPointOf c); secondPart n c (splitPointOf c)] (endWordIndex c)
  /\ flatWords [firstPart n c (splitPointOf c); secondPart n c (splitPointOf c)] = words c.
Proof.
  intros [Hc He]. pose proof (splitPointOf_bounds c) as Hsp.
  set (sp := splitPointOf c) in *. split.
  - simpl. unfold wellFormed. simpl.
    rewrite slice_prefix, sliceFrom_suffix by lia.
    rewrite len_firstn, len_skipn by lia. repeat split; lia.
  - unfold flatWords. simpl.
    rewrite slice_prefix, sliceFrom_suffix by lia.
    rewrite app_nil_r. apply firstn_skipn.
Qed.

Lemma tiles_merged (n a b : Z) (x y : Chunk) :
  tiles a [x; y] b ->
  tiles a [mergedChunk n x y] b /\ flatWords [mergedChunk n x y] = flatWords [x; y].
Proof.
  simpl. unfold wellFormed. intros [H1 [[H2 H3] [H4 [[H5 H6] H7]]]]. split.
  - simpl. rewrite len_app. repeat split; lia.
  - unfold flatWords. simpl. rewrite !app_nil_r. reflexivity.
Qed.

(* ================================================================== *)
(** ** The scan of [performChunkRefinement] *)

Lemma list_pair_ind {A : Type} (P : list A -> Prop) :
  P [] -> (forall x, P [x]) -> (forall x y l, P l -> P (y :: l) -> P (x :: y :: l)) ->
  forall l, P l.
Proof.
  intros H0 H1 H2 l.
  assert (H : P l /\ forall x, P (x :: l)).
  { induction l as [|y l [IH1 IH2]].
    - split; [exact H0 | exact H1].
    - split; [apply IH2|]. intros x. apply H2; [exact IH1 | apply IH2]. }
  exact (proj1 H).
Qed.

Lemma refineScan_cons (chunk : Chunk) (rest : list Chunk) (minWords maxWords : Z)
    (refinedChunks : list Chunk) :
  refineScan (chunk :: rest) minWords maxWords refinedChunks =
  if wordCount chunk >? maxWords then
    refineScan rest minWords maxWords
      (refinedChunks ++ [firstPart (len refinedChunks + 1) chunk (splitPointOf chunk);
                         secondPart (len refinedChunks + 1) chunk (splitPointOf chunk)])
  else
    match rest with
    | nextChunk :: rest' =>
        if wordCount chunk <? minWords then
          if fitsMerged (wordCount chunk + wordCount nextChunk) maxWords then
            refineScan rest' minWords maxWords
              (refinedChunks ++ [mergedChunk (len refinedChunks + 1) chunk nextChunk])
          else refineScan rest minWords maxWords (refinedChunks ++ [chunk])
        else refineScan rest minWords maxWords (refinedChunks ++ [chunk])
    | [] => refineScan rest minWords maxWords (refinedChunks ++ [chunk])
    end.
Proof. destruct rest; reflexivity. Qed.

(** What the scan has written stays in front. *)
Lemma refineScan_prefix (minWords maxWords : Z) (chunks : list Chunk) :
  forall acc, exists tail, refineScan chunks minWords maxWords acc = acc ++ tail.
Proof.
  induction chunks as [| x | x y l IHl IHyl] using list_pair_ind; intros acc.
  - exists []. rewrite app_nil_r. reflexivity.
  - rewrite refineScan_cons. destruct (wordCount x >? maxWords); simpl; eexists; reflexivity.
  - rewrite refineScan_cons.
    destruct (wordCount x >? maxWords);
      [|destruct (wordCount x <? minWords);
        [destruct (fitsMerged (wordCount x + wordCount y) maxWords)|]].
    + destruct (IHyl (acc ++ [firstPart (len acc + 1) x (splitPointOf x);
                              secondPart (len acc + 1) x (splitPointOf x)])) as [t Ht].
      rewrite Ht, <- app_assoc. eexists; reflexivity.
    + destruct (IHl (acc ++ [mergedChunk (len acc + 1) x y])) as [t Ht].
      rewrite Ht, <- app_assoc. eexists; reflexivity.
    + destruct (IHyl (acc ++ [x])) as [t Ht]. rewrite Ht, <- app_assoc. eexists; reflexivity.
    + destruct (IHyl (acc ++ [x])) as [t Ht]. rewrite Ht, <- app_assoc. eexists; reflexivity.
Qed.

Lemma refineScan_length (minWords maxWords : Z) (chunks : list Chunk) :
  forall acc,
    (length (refineScan chunks minWords maxWords acc) <= length acc + 2 * length chunks)%nat
    /\ (chunks <> [] -> (length acc < length (refineScan chunks minWords maxWords acc))%nat).
Proof.
  induction chunks as [| x | x y l IHl IHyl] using list_pair_ind; intros acc.
  - simpl. split; [lia | congruence].
  - rewrite refineScan_cons. destruct (wordCount x >? maxWords); simpl;
      rewrite length_app; simpl; split; intros; lia.
  - rewrite refineScan_cons.
    destruct (wordCount x >? maxWords);
      [|destruct (wordCount x <? minWords);
        [destruct (fitsMerged (wordCount x + wordCount y) maxWords)|]].
    + destruct (IHyl (acc ++ [firstPart (len acc + 1) x (splitPointOf x);
                              secondPart (len acc + 1) x (splitPointOf x)])) as [H1 H2].
      rewrite length_app in *. simpl in *. split; [lia|].
      intros _. assert (y :: l <> []) as Hne by congruence. specialize (H2 Hne). lia.
    + destruct (IHl (acc ++ [mergedChunk (len acc + 1) x y])) as [H1 _].
      destruct (refineScan_prefix minWords maxWords l (acc ++ [mergedChunk (len acc + 1) x y]))
        as [t Ht].
      rewrite Ht in *. rewrite !length_app in *. simpl in *. split; intros; lia.
    + destruct (IHyl (acc ++ [x])) as [H1 H2].
      rewrite length_app in *. simpl in *. split; [lia|].
      intros _. assert (y :: l <> []) as Hne by congruence. specialize (H2 Hne). lia.
    + destruct (IHyl (acc ++ [x])) as [H1 H2].
      rewrite length_app in *. simpl in *. split; [lia|].
      intros _. assert (y :: l <> []) as Hne by congruence. specialize (H2 Hne). lia.
Qed.

Lemma tiles_push (a b c : Z) (acc new : list Chunk) :
  tiles a acc b -> tiles b new c -> tiles a (acc ++ new) c.
Proof. intros H1 H2. apply tiles_app. exists b. split; assumption. Qed.

Lemma tiles_one (c : Chunk) :
  wellFormed c -> tiles (startWordIndex c) [c] (endWordIndex c).
Proof. intros H. simpl. auto. Qed.

Ltac flat_solve :=
  rewrite ?flatWords_app; unfold flatWords; simpl;
  rewrite ?app_nil_r, <- ?app_assoc; simpl; reflexivity.

Lemma refineScan_tiles (minWords maxWords : Z) (chunks : list Chunk) :
  forall acc a b c,
    tiles a acc b -> tiles b chunks c ->
    tiles a (refineScan chunks minWords maxWords acc) c
    /\ flatWords (refineScan chunks minWords maxWords acc) = flatWords acc ++ flatWords chunks.
Proof.
  induction chunks as [| x | x y l IHl IHyl] using list_pair_ind; intros acc a b c Hacc Hch.
  - simpl in *. subst. split; [exact Hacc | rewrite app_nil_r; reflexivity].
  - rewrite refineScan_cons. destruct Hch as [Hs [Hw He]]. simpl in He. subst.
    destruct (wordCount x >? maxWords); simpl.
    + destruct (tiles_split (len acc + 1) x Hw) as [T F]. split.
      * eapply tiles_push; eassumption.
      * rewrite flatWords_app, F. flat_solve.
    + split.
      * eapply tiles_push; [eassumption | apply tiles_one; exact Hw].
      * flat_solve.
  - rewrite refineScan_cons. pose proof Hch as [Hs [Hw Hrest]].
    destruct (wordCount x >? maxWords);
      [|destruct (wordCount x <? minWords);
        [destruct (fitsMerged (wordCount x + wordCount y) maxWords)|]].
    + destruct (tiles_split (len acc + 1) x Hw) as [T F].
      destruct (IHyl (acc ++ [firstPart (len acc + 1) x (splitPointOf x);
                              secondPart (len acc + 1) x (splitPointOf x)])
                  a (endWordIndex x) c) as [T' F'].
      * subst b. eapply tiles_push; eassumption.
      * exact Hrest.
      * split; [exact T'|]. rewrite F', flatWords_app, F. flat_solve.
    + pose proof Hrest as [Hs' [Hw' Hrest']].
      assert (Hxy : tiles b [x; y] (endWordIndex y)).
      { simpl. repeat split; try assumption; try apply Hw; try apply Hw'. }
      destruct (tiles_merged (len acc + 1) _ _ _ _ Hxy) as [T F].
      destruct (IHl (acc ++ [mergedChunk (len acc + 1) x y]) a (endWordIndex y) c) as [T' F'].
      * eapply tiles_push; eassumption.
      * exact Hrest'.
      * split; [exact T'|]. rewrite F', flatWords_app, F. flat_solve.
    + destruct (IHyl (acc ++ [x]) a (endWordIndex x) c) as [T' F'].
      * subst b. eapply tiles_push; [eassumption | apply tiles_one; exact Hw].
      * exact Hrest.
      * split; [exact T'|]. rewrite F'. flat_solve.
    + destruct (IHyl (acc ++ [x]) a (endWordIndex x) c) as [T' F'].
      * subst b. eapply tiles_push; [eassumption | apply tiles_one; exact Hw].
      * exact Hrest.
      * split; [exact T'|]. rewrite F'. flat_solve.
Qed.

(* ================================================================== *)
(** ** The two closing loops of [performChunkRefinement] *)

Lemma fold_pick_in (better : nat -> nat -> bool) (candidates : list nat) (start : nat) :
  let r := fold_left (fun cur i => if better cur i then i else cur) candidates start in
  r = start \/ In r candidates.
Proof.
  revert start. induction candidates as [|i candidates IH]; intros start; simpl.
  - left. reflexivity.
  - destruct (IH (if better start i then i else start)) as [H | H].
    + destruct (better start i).
      * right. left. symmetry. exact H.
      * left. exact H.
    + right. right. exact H.
Qed.

Lemma findSmallestIndex_bound (cs : list Chunk) :
  (2 <= length cs)%nat -> (findSmallestIndex cs <= length cs - 2)%nat.
Proof.
  intros H. unfold findSmallestIndex.
  destruct (fold_pick_in (fun cur i => wordCountAt cs i <? wordCountAt cs cur)
              (seq 1 (length cs - 2)) 0%nat) as [E | E].
  - rewrite E. lia.
  - apply in_seq in E. lia.
Qed.

Lemma findLargestIndex_bound (cs : list Chunk) :
  (1 <= length cs)%nat -> (findLargestIndex cs < length cs)%nat.
Proof.
  intros H. unfold findLargestIndex.
  destruct (fold_pick_in (fun cur i => wordCountAt cs i >? wordCountAt cs cur)
              (seq 1 (length cs - 1)) 0%nat) as [E | E].
  - rewrite E. lia.
  - apply in_seq in E. lia.
Qed.

Lemma adjacent_split {A : Type} (l : list A) (i : nat) :
  (S i < length l)%nat ->
  exists pre x y post, l = pre ++ x :: y :: post /\ length pre = i.
Proof.
  intros H.
  destruct (nth_error l i) as [x|] eqn:Ex; [|apply nth_error_None in Ex; lia].
  apply nth_error_split in Ex. destruct Ex as [pre [post' [-> Hlen]]].
  destruct post' as [|y post].
  - rewrite length_app in H. simpl in H. lia.
  - exists pre, x, y, post. split; [reflexivity | exact Hlen].
Qed.

Lemma nth_error_middle {A : Type} (pre post : list A) (x : A) :
  nth_error (pre ++ x :: post) (length pre) = Some x.
Proof. rewrite nth_error_app2, Nat.sub_diag by lia. reflexivity. Qed.

Lemma nth_error_middle_next {A : Type} (pre post : list A) (x y : A) :
  nth_error (pre ++ x :: y :: post) (S (length pre)) = Some y.
Proof.
  rewrite nth_error_app2 by lia. replace (S (length pre) - length pre)%nat with 1%nat by lia.
  reflexivity.
Qed.

Lemma splice_pair {A : Type} (pre post : list A) (x y m : A) :
  splice1 (splice1 (pre ++ x :: y :: post) (S (length pre)) []) (length pre) [m]
  = pre ++ m :: post.
Proof.
  replace (pre ++ x :: y :: post) with ((pre ++ [x]) ++ y :: post)
    by (rewrite <- app_assoc; reflexivity).
  replace (S (length pre)) with (length (pre ++ [x])) by (rewrite length_app; simpl; lia).
  rewrite splice1_at. simpl. rewrite <- app_assoc. simpl.
  rewrite splice1_at. reflexivity.
Qed.

(** One round of the merge loop on at least two chunks: two neighbours
    are replaced by their union. *)
Lemma mergeSmallest_shape (cs : list Chunk) :
  (2 <= length cs)%nat ->
  exists pre x y post smallest target n,
    cs = pre ++ x :: y :: post
    /\ ((smallest = x /\ target = y) \/ (smallest = y /\ target = x))
    /\ mergeSmallest cs =
       Ok (pre ++
             mkChunk (chunkId n) (chunkTitle n) (words x ++ words y)
               (wordCount smallest + wordCount target)
               (Z.min (startWordIndex smallest) (startWordIndex target))
               (Z.max (endWordIndex smallest) (endWordIndex target))
             :: post).
Proof.
  intros Hlen. pose proof (findSmallestIndex_bound cs Hlen) as Hs.
  unfold mergeSmallest. set (s := findSmallestIndex cs) in *.
  destruct (s =? 0)%nat eqn:E.
  - apply Nat.eqb_eq in E. rewrite E. simpl Nat.min. simpl Nat.max.
    destruct (adjacent_split cs 0) as [pre [x [y [post [Hcs Hpre]]]]]; [lia|].
    destruct pre; [|discriminate]. simpl in Hcs. subst cs. simpl.
    exists [], x, y, post, x, y, (Z.of_nat 1 + 1). split; [reflexivity|].
    split; [left; split; reflexivity|]. reflexivity.
  - apply Nat.eqb_neq in E.
    replace (Nat.min s (s - 1)) with (s - 1)%nat by lia.
    replace (Nat.max s (s - 1)) with s by lia.
    destruct (adjacent_split cs (s - 1)) as [pre [x [y [post [Hcs Hpre]]]]]; [lia|].
    assert (Hs' : s = S (length pre)) by lia.
    rewrite <- Hpre. rewrite Hs'. subst cs.
    rewrite nth_error_middle, nth_error_middle_next, splice_pair.
    exists pre, x, y, post, y, x, (Z.of_nat (length pre) + 1). split; [reflexivity|].
    split; [right; split; reflexivity|]. reflexivity.
Qed.

Lemma mergeSmallest_length (cs : list Chunk) :
  (2 <= length cs)%nat ->
  exists r, mergeSmallest cs = Ok r /\ S (length r) = length cs.
Proof.
  intros H. destruct (mergeSmallest_shape cs H)
    as [pre [x [y [post [s [t [n [Hcs [_ Hr]]]]]]]]].
  eexists. split; [exact Hr|]. subst cs. rewrite !length_app. simpl. lia.
Qed.

Lemma mergeSmallest_tiles (cs r : list Chunk) (a b : Z) :
  (2 <= length cs)%nat -> mergeSmallest cs = Ok r -> tiles a cs b ->
  tiles a r b /\ flatWords r = flatWords cs.
Proof.
  intros H Hr T. destruct (mergeSmallest_shape cs H)
    as [pre [x [y [post [s [t [n [Hcs [Hst Hr']]]]]]]]].
  rewrite Hr in Hr'. injection Hr' as ->. subst cs.
  apply tiles_app in T. destruct T as [m [Tpre Trest]].
  pose proof Trest as [Hsx [[Hcx Hex] [Hsy [[Hcy Hey] Tpost]]]].
  pose proof (len_nonneg (words x)). pose proof (len_nonneg (words y)).
  split.
  - apply tiles_app. exists m. split; [exact Tpre|].
    simpl. unfold wellFormed. simpl. rewrite len_app.
    destruct Hst as [[-> ->] | [-> ->]].
    + rewrite Z.min_l, Z.max_r by lia. repeat split; try lia.
      replace (Z.max (endWordIndex x) (endWordIndex y)) with (endWordIndex y) in * by lia.
      exact Tpost.
    + rewrite Z.min_r, Z.max_l by lia. repeat split; try lia. exact Tpost.
  - flat_solve.
Qed.

(** One round of the split loop on a non-empty array: one chunk is
    replaced by its two halves, whatever its size. *)
Lemma splitLargest_shape (cs : list Chunk) :
  cs <> [] ->
  exists pre c post n,
    cs = pre ++ c :: post
    /\ wordCount c = wordCountAt cs (findLargestIndex cs)
    /\ splitLargest cs =
       Ok (pre ++ firstPart n c (splitPointOf c) :: secondPart n c (splitPointOf c) :: post).
Proof.
  intros Hne. assert (Hlen : (1 <= length cs)%nat) by (destruct cs; simpl; [congruence | lia]).
  pose proof (findLargestIndex_bound cs Hlen) as Hl.
  unfold splitLargest, wordCountAt. set (i := findLargestIndex cs) in *.
  destruct (nth_error cs i) as [c|] eqn:E; [|apply nth_error_None in E; lia].
  pose proof E as E'. apply nth_error_split in E'. destruct E' as [pre [post [Hcs Hpre]]].
  exists pre, c, post, (Z.of_nat i + 1). split; [exact Hcs|]. split; [reflexivity|].
  rewrite Hcs at 1. rewrite <- Hpre at 1. rewrite splice1_at. reflexivity.
Qed.

Lemma splitLargest_length (cs : list Chunk) :
  cs <> [] ->
  exists r, splitLargest cs = Ok r /\ length r = S (length cs).
Proof.
  intros H. destruct (splitLargest_shape cs H) as [pre [c [post [n [Hcs [_ Hr]]]]]].
  eexists. split; [exact Hr|]. subst cs. rewrite !length_app. simpl. lia.
Qed.

Lemma splitLargest_tiles (cs r : list Chunk) (a b : Z) :
  cs <> [] -> splitLargest cs = Ok r -> tiles a cs b ->
  tiles a r b /\ flatWords r = flatWords cs.
Proof.
  intros H Hr T. destruct (splitLargest_shape cs H) as [pre [c [post [n [Hcs [_ Hr']]]]]].
  rewrite Hr in Hr'. injection Hr' as ->. subst cs.
  apply tiles_app in T. destruct T as [m [Tpre [Hs [Hw Tpost]]]].
  destruct (tiles_split n c Hw) as [T2 F2]. split.
  - apply tiles_app. exists m. split; [exact Tpre|].
    change (firstPart n c (splitPointOf c) :: secondPart n c (splitPointOf c) :: post)
      with ([firstPart n c (splitPointOf c); secondPart n c (splitPointOf c)] ++ post).
    apply tiles_app. exists (endWordIndex c). rewrite <- Hs. split; assumption.
  - change (firstPart n c (splitPointOf c) :: secondPart n c (splitPointOf c) :: post)
      with ([firstPart n c (splitPointOf c); secondPart n c (splitPointOf c)] ++ post).
    rewrite !flatWords_app, F2. flat_solve.
Qed.

Lemma mergeLoop_eq (fuel : nat) (targetCount : Z) (cs : list Chunk) :
  mergeLoop fuel targetCount cs =
  if len cs >? targetCount then
    match fuel with
    | O => OutOfFuel
    | S fuel' => merged <- mergeSmallest cs ;; mergeLoop fuel' targetCount merged
    end
  else Ok cs.
Proof. destruct fuel; reflexivity. Qed.

Lemma splitLoop_eq (fuel : nat) (targetCount : Z) (cs : list Chunk) :
  splitLoop fuel targetCount cs =
  if len cs <? targetCount then
    match fuel with
    | O => OutOfFuel
    | S fuel' => parts <- splitLargest cs ;; splitLoop fuel' targetCount parts
    end
  else Ok cs.
Proof. destruct fuel; reflexivity. Qed.

(** The merge loop ends after [length - targetCount] rounds, each of which
    removes one chunk. *)
Lemma mergeLoop_spec (targetCount : Z) (fuel : nat) :
  forall cs,
    1 <= targetCount ->
    len cs - targetCount <= Z.of_nat fuel ->
    exists r,
      mergeLoop fuel targetCount cs = Ok r
      /\ len r = Z.min (len cs) targetCount
      /\ (forall a b, tiles a cs b -> tiles a r b /\ flatWords r = flatWords cs).
Proof.
  induction fuel as [|fuel IH]; intros cs Ht Hf; rewrite mergeLoop_eq;
    destruct (len cs >? targetCount) eqn:E.
  - lia.
  - exists cs. split; [reflexivity|]. split; [lia | auto].
  - assert (Hlen : (2 <= length cs)%nat) by (unfold len in *; lia).
    destruct (mergeSmallest_length cs Hlen) as [m [Hm Hml]].
    rewrite Hm. simpl.
    destruct (IH m Ht) as [r [Hr [Hrl Hrt]]]; [unfold len in *; lia|].
    exists r. split; [exact Hr|]. split; [unfold len in *; lia|].
    intros a b T. destruct (mergeSmallest_tiles cs m a b Hlen Hm T) as [T1 F1].
    destruct (Hrt a b T1) as [T2 F2]. split; [exact T2 | congruence].
  - exists cs. split; [reflexivity|]. split; [lia | auto].
Qed.

(** The split loop ends after [targetCount - length] rounds, each of which
    adds one chunk. *)
Lemma splitLoop_spec (targetCount : Z) (fuel : nat) :
  forall cs,
    cs <> [] ->
    targetCount - len cs <= Z.of_nat fuel ->
    exists r,
      splitLoop fuel targetCount cs = Ok r
      /\ len r = Z.max (len cs) targetCount
      /\ (forall a b, tiles a cs b -> tiles a r b /\ flatWords r = flatWords cs).
Proof.
  induction fuel as [|fuel IH]; intros cs Hne Hf; rewrite splitLoop_eq;
    destruct (len cs <? targetCount) eqn:E.
  - lia.
  - exists cs. split; [reflexivity|]. split; [lia | auto].
  - destruct (splitLargest_length cs Hne) as [m [Hm Hml]].
    rewrite Hm. simpl.
    destruct (IH m) as [r [Hr [Hrl Hrt]]].
    + destruct m; simpl in Hml; [lia | congruence].
    + unfold len in *; lia.
    + exists r. split; [exact Hr|]. split; [unfold len in *; lia|].
      intros a b T. destruct (splitLargest_tiles cs m a b Hne Hm T) as [T1 F1].
      destruct (Hrt a b T1) as [T2 F2]. split; [exact T2 | congruence].
  - exists cs. split; [reflexivity|]. split; [lia | auto].
Qed.

(** More fuel does not change a result. *)
Lemma mergeLoop_mono (targetCount : Z) (fuel : nat) :
  forall fuel' cs r,
    mergeLoop fuel targetCount cs = Ok r -> (fuel <= fuel')%nat ->
    mergeLoop fuel' targetCount cs = Ok r.
Proof.
  induction fuel as [|fuel IH]; intros fuel' cs r H Hle;
    rewrite mergeLoop_eq in *; destruct (len cs >? targetCount); try discriminate; try exact H.
  destruct fuel' as [|fuel']; [lia|].
  destruct (mergeSmallest cs) as [m| |]; simpl in *; try discriminate.
  apply IH; [exact H | lia].
Qed.

Lemma splitLoop_mono (targetCount : Z) (fuel : nat) :
  forall fuel' cs r,
    splitLoop fuel targetCount cs = Ok r -> (fuel <= fuel')%nat ->
    splitLoop fuel' targetCount cs = Ok r.
Proof.
  induction fuel as [|fuel IH]; intros fuel' cs r H Hle;
    rewrite splitLoop_eq in *; destruct (len cs <? targetCount); try discriminate; try exact H.
  destruct fuel' as [|fuel']; [lia|].
  destruct (splitLargest cs) as [m| |]; simpl in *; try discriminate.
  apply IH; [exact H | lia].
Qed.

Lemma performChunkRefinement_mono (fuel fuel' : nat) (chunks r : list Chunk)
    (targetCount targetWords tolerance : Z) :
  performChunkRefinement fuel chunks targetCount targetWords tolerance = Ok r ->
  (fuel <= fuel')%nat ->
  performChunkRefinement fuel' chunks targetCount targetWords tolerance = Ok r.
Proof.
  unfold performChunkRefinement. intros H Hle.
  destruct (mergeLoop fuel targetCount _) as [m| |] eqn:Em; simpl in H; try discriminate.
  rewrite (mergeLoop_mono _ _ _ _ _ Em Hle). simpl.
  destruct (splitLoop fuel targetCount m) as [s| |] eqn:Es; simpl in H; try discriminate.
  rewrite (splitLoop_mono _ _ _ _ _ Es Hle). simpl. exact H.
Qed.

(** Renumbering touches the identifier and the title only. *)
Lemma renumber_from (k : nat) (cs : list Chunk) :
  let r := map (fun p : nat * Chunk =>
                  let '(index, chunk) := p in
                  mkChunk (chunkId (Z.of_nat index + 1)) (chunkTitle (Z.of_nat index + 1))
                    (words chunk) (wordCount chunk) (startWordIndex chunk)
                    (endWordIndex chunk))
               (combine (seq k (length cs)) cs) in
  length r = length cs
  /\ flatWords r = flatWords cs
  /\ map wordCount r = map wordCount cs
  /\ forall a b, tiles a cs b -> tiles a r b.
Proof.
  revert k. induction cs as [|c cs IH]; intros k; simpl.
  - split; [|split; [|split]]; auto.
  - destruct (IH (S k)) as [H1 [H2 [H3 H4]]]. simpl in *. split; [|split; [|split]].
    + f_equal. exact H1.
    + unfold flatWords in *. simpl. f_equal. exact H2.
    + f_equal. exact H3.
    + intros a b [Hs [Hw T]]. simpl. split; [exact Hs|]. split; [exact Hw|].
      apply H4. exact T.
Qed.

Lemma renumber_spec (cs : list Chunk) :
  length (renumber cs) = length cs
  /\ flatWords (renumber cs) = flatWords cs
  /\ map wordCount (renumber cs) = map wordCount cs
  /\ forall a b, tiles a cs b -> tiles a (renumber cs) b.
Proof. exact (renumber_from 0 cs). Qed.

(** One refinement iteration on a non-empty working sequence. *)
Lemma performChunkRefinement_spec (fuel : nat) (chunks : list Chunk)
    (targetCount targetWords tolerance : Z) :
  chunks <> [] ->
  1 <= targetCount ->
  2 * len chunks + targetCount <= Z.of_nat fuel ->
  exists r,
    performChunkRefinement fuel chunks targetCount targetWords tolerance = Ok r
    /\ len r = targetCount
    /\ (forall a b, tiles a chunks b -> tiles a r b /\ flatWords r = flatWords chunks).
Proof.
  intros Hne Ht Hf. unfold performChunkRefinement.
  set (scan := refineScan chunks (targetWords - tolerance) (targetWords + tolerance) []).
  destruct (refineScan_length (targetWords - tolerance) (targetWords + tolerance) chunks [])
    as [Hup Hlow].
  specialize (Hlow Hne). fold scan in Hup, Hlow. simpl in Hup, Hlow.
  destruct (mergeLoop_spec targetCount fuel scan Ht) as [m [Hm [Hml Hmt]]];
    [unfold len in *; lia|].
  rewrite Hm. simpl.
  destruct (splitLoop_spec targetCount fuel m) as [s [Hs [Hsl Hst]]].
  - intros ->. change (len (@nil Chunk)) with 0 in Hml. unfold len in *. lia.
  - unfold len in *. lia.
  - rewrite Hs. simpl. destruct (renumber_spec s) as [R1 [R2 [_ R4]]].
    eexists. split; [reflexivity|]. split; [unfold len in *; lia|].
    intros a b T.
    destruct (refineScan_tiles (targetWords - tolerance) (targetWords + tolerance)
                chunks [] a a b eq_refl T) as [T0 F0].
    fold scan in T0, F0. simpl in F0.
    destruct (Hmt a b T0) as [T1 F1]. destruct (Hst a b T1) as [T2 F2].
    split; [apply R4; exact T2 | congruence].
Qed.

Lemma refineChunksRecursively_eq (fuel : nat) (chunks : list Chunk)
    (targetCount targetWords tolerance iteration maxIterations : Z) :
  refineChunksRecursively fuel chunks targetCount targetWords tolerance iteration maxIterations
  = if iteration >=? maxIterations then Ok chunks
    else if negb (needsRefinement chunks targetCount (targetWords - tolerance)
                    (targetWords + tolerance)) then Ok chunks
    else match fuel with
         | O => OutOfFuel
         | S fuel' =>
             refinedChunks <-
               performChunkRefinement fuel chunks targetCount targetWords tolerance ;;
             refineChunksRecursively fuel' refinedChunks targetCount targetWords tolerance
               (iteration + 1) maxIterations
         end.
Proof. destruct fuel; reflexivity. Qed.

(** The recursion: at most [maxIterations - iteration] refinement
    iterations, each on a sequence of [targetCount] chunks. *)
Lemma refineChunksRecursively_spec (targetCount targetWords tolerance maxIterations : Z)
    (fuel : nat) :
  forall chunks iteration,
    1 <= targetCount ->
    len chunks = targetCount ->
    iteration <= maxIterations ->
    3 * targetCount + (maxIterations - iteration) <= Z.of_nat fuel ->
    exists (n : nat) r,
      Z.of_nat n <= maxIterations - iteration
      /\ refineChunksRecursively fuel chunks targetCount targetWords tolerance
           iteration maxIterations = Ok r
      /\ (forall big, (fuel <= big)%nat ->
            iterate n (fun cs => performChunkRefinement big cs targetCount targetWords
                                   tolerance) chunks = Ok r)
      /\ len r = targetCount
      /\ (forall a b, tiles a chunks b -> tiles a r b /\ flatWords r = flatWords chunks).
Proof.
  induction fuel as [|fuel IH]; intros chunks iteration Ht Hlen Hit Hf;
    rewrite refineChunksRecursively_eq.
  - assert (iteration = maxIterations) by lia. subst.
    replace (maxIterations >=? maxIterations) with true by lia.
    exists 0%nat, chunks. repeat split; auto; lia.
  - destruct (iteration >=? maxIterations) eqn:E1;
      [exists 0%nat, chunks; repeat split; auto; lia|].
    destruct (negb (needsRefinement chunks targetCount (targetWords - tolerance)
                      (targetWords + tolerance)));
      [exists 0%nat, chunks; repeat split; auto; lia|].
    assert (Hne : chunks <> []) by (intros ->; unfold len in Hlen; simpl in Hlen; lia).
    destruct (performChunkRefinement_spec (S fuel) chunks targetCount targetWords tolerance
                Hne Ht) as [r1 [Hr1 [Hl1 Ht1]]]; [lia|].
    rewrite Hr1. simpl.
    destruct (IH r1 (iteration + 1) Ht Hl1) as [n [r [Hn [Hr [Hiter [Hl Htl]]]]]]; [lia | lia |].
    exists (S n), r. split; [lia|]. split; [exact Hr|]. split; [|split; [exact Hl|]].
    + intros big Hbig. simpl.
      rewrite (performChunkRefinement_mono _ big _ _ _ _ _ Hr1) by lia. simpl.
      apply Hiter. lia.
    + intros a b T. destruct (Ht1 a b T) as [T1 F1]. destruct (Htl a b T1) as [T2 F2].
      split; [exact T2 | congruence].
Qed.

(* ================================================================== *)
(** ** The initial split and the whole partition *)

Lemma skipn_skipn_add {A : Type} (x y : nat) (l : list A) :
  skipn x (skipn y l) = skipn (y + x) l.
Proof.
  revert l. induction y as [|y IH]; intros l; simpl.
  - reflexivity.
  - destruct l; [destruct x; reflexivity | apply IH].
Qed.

Lemma initialChunks_from (W : list jsstring) (k q : Z) (n : nat) :
  forall i,
    0 <= q -> k * q <= len W -> 0 <= i -> i = k - 1 - Z.of_nat n ->
    let f := fun i =>
               mkChunk (chunkId (i + 1)) (chunkTitle (i + 1))
                 (slice W (i * q) (if i =? k - 1 then len W else (i + 1) * q))
                 (len (slice W (i * q) (if i =? k - 1 then len W else (i + 1) * q)))
                 (i * q) (if i =? k - 1 then len W else (i + 1) * q) in
    tiles (i * q) (map f (range i k)) (len W)
    /\ flatWords (map f (range i k)) = skipn (Z.to_nat (i * q)) W
    /\ Forall (fun c => q <= wordCount c) (map f (range i k)).
Proof.
  induction n as [|n IH]; intros i Hq Hkq Hi Hn f.
  - assert (E : i = k - 1) by lia. clear Hn. subst i.
    rewrite range_cons, range_empty by lia. simpl. unfold f.
    replace (k - 1 =? k - 1) with true by lia.
    assert (Hb : (k - 1) * q <= len W) by nia.
    assert (H0 : 0 <= (k - 1) * q) by nia.
    rewrite slice_inside by lia.
    rewrite firstn_all2 by (rewrite length_skipn; unfold len in *; lia).
    split; [|split].
    + simpl. unfold wellFormed. simpl. rewrite len_skipn by lia. repeat split; lia.
    + flat_solve.
    + constructor; [|constructor]. simpl. rewrite len_skipn by lia. nia.
  - rewrite range_cons by lia. rewrite map_cons.
    destruct (IH (i + 1)) as [T [F G]]; try lia. fold f in T, F, G.
    assert (Hb : (i + 1) * q <= len W) by nia.
    assert (H0 : 0 <= i * q) by nia.
    assert (Hw : slice W (i * q) ((i + 1) * q)
                 = firstn (Z.to_nat q) (skipn (Z.to_nat (i * q)) W)).
    { rewrite slice_inside by nia. f_equal. nia. }
    assert (Hfi : f i = mkChunk (chunkId (i + 1)) (chunkTitle (i + 1))
                          (firstn (Z.to_nat q) (skipn (Z.to_nat (i * q)) W))
                          (len (firstn (Z.to_nat q) (skipn (Z.to_nat (i * q)) W)))
                          (i * q) ((i + 1) * q)).
    { unfold f. replace (i =? k - 1) with false by lia. rewrite Hw. reflexivity. }
    assert (Hlq : len (firstn (Z.to_nat q) (skipn (Z.to_nat (i * q)) W)) = q).
    { unfold len. rewrite length_firstn, length_skipn. unfold len in *. nia. }
    rewrite Hfi. split; [|split].
    3:{ constructor; [|exact G]. simpl. lia. }
    + split; [reflexivity|]. split; [|exact T].
      split; [reflexivity|]. cbn [wordCount startWordIndex endWordIndex].
      unfold len. rewrite length_firstn, length_skipn.
      unfold len in *. nia.
    + match goal with
      | |- flatWords (?c :: ?l) = _ => change (flatWords (c :: l)) with (words c ++ flatWords l)
      end.
      rewrite F. cbn [words].
      replace (Z.to_nat ((i + 1) * q)) with (Z.to_nat (i * q) + Z.to_nat q)%nat by nia.
      rewrite <- skipn_skipn_add. apply firstn_skipn.
Qed.

Lemma length_range (lo hi : Z) : length (range lo hi) = Z.to_nat (hi - lo).
Proof. unfold range. rewrite length_map, length_seq. reflexivity. Qed.

Lemma initialChunkSplit_spec (full : fullText) (chunkCount targetWords : Z) :
  1 <= chunkCount ->
  len (initialChunkSplit full chunkCount targetWords) = chunkCount
  /\ tiles 0 (initialChunkSplit full chunkCount targetWords) (len (splitWords (text full)))
  /\ flatWords (initialChunkSplit full chunkCount targetWords) = splitWords (text full)
  /\ Forall (fun c => len (splitWords (text full)) / chunkCount <= wordCount c)
       (initialChunkSplit full chunkCount targetWords).
Proof.
  intros Hk. unfold initialChunkSplit.
  set (W := splitWords (text full)). set (q := len W / chunkCount).
  pose proof (len_nonneg W) as HW.
  assert (Hq : 0 <= q) by (apply Z.div_pos; lia).
  assert (Hkq : chunkCount * q <= len W) by (apply Z.mul_div_le; lia).
  split.
  - unfold len. rewrite length_map, length_range. lia.
  - destruct (initialChunks_from W chunkCount q (Z.to_nat (chunkCount - 1)) 0) as [T [F G]];
      try lia.
    simpl in T, F. split; [exact T|]. split; [exact F | exact G].
Qed.

Lemma refineChunksRecursively_mono (targetCount targetWords tolerance maxIterations : Z)
    (fuel : nat) :
  forall fuel' chunks iteration r,
    refineChunksRecursively fuel chunks targetCount targetWords tolerance iteration
      maxIterations = Ok r ->
    (fuel <= fuel')%nat ->
    refineChunksRecursively fuel' chunks targetCount targetWords tolerance iteration
      maxIterations = Ok r.
Proof.
  induction fuel as [|fuel IH]; intros fuel' chunks iteration r H Hle;
    rewrite refineChunksRecursively_eq in *;
    destruct (iteration >=? maxIterations); try exact H;
    destruct (negb (needsRefinement chunks targetCount (targetWords - tolerance)
                      (targetWords + tolerance))); try exact H; try discriminate.
  destruct fuel' as [|fuel']; [lia|].
  destruct (performChunkRefinement (S fuel) chunks targetCount targetWords tolerance)
    as [r1| |] eqn:E; simpl in H; try discriminate.
  rewrite (performChunkRefinement_mono _ (S fuel') _ _ _ _ _ E) by lia. simpl.
  apply IH; [exact H | lia].
Qed.

(** The partition of a corpus into at least one chunk. *)
Lemma refinedChunksOf_spec (fuel : nat) (contents : list Content)
    (chunkCount targetWords tolerance : Z) :
  1 <= chunkCount ->
  enoughFuel fuel chunkCount ->
  exists (n : nat) r,
    (n <= 5)%nat
    /\ refinedChunksOf fuel contents chunkCount targetWords tolerance = Ok r
    /\ iterate n (fun cs => performChunkRefinement fuel cs chunkCount targetWords tolerance)
         (initialChunkSplit (combineContentWithMarkers contents) chunkCount targetWords)
       = Ok r
    /\ len r = chunkCount
    /\ tiles 0 r (len (corpusWords contents))
    /\ flatWords r = corpusWords contents.
Proof.
  intros Hk Hf. unfold enoughFuel in Hf. unfold refinedChunksOf, corpusWords.
  destruct (initialChunkSplit_spec (combineContentWithMarkers contents) chunkCount
              targetWords Hk) as [Hl [T [F _]]].
  destruct (refineChunksRecursively_spec chunkCount targetWords tolerance 5 fuel
              (initialChunkSplit (combineContentWithMarkers contents) chunkCount targetWords)
              0 Hk Hl) as [n [r [Hn [Hr [Hit [Hlr Htr]]]]]]; [lia | lia |].
  destruct (Htr _ _ T) as [T' F'].
  exists n, r. split; [lia|]. split; [exact Hr|]. split; [apply Hit; lia|].
  split; [exact Hlr|]. split; [exact T' | congruence].
Qed.

(** Whatever the fuel, a partition that is returned has these properties. *)
Lemma refinedChunksOf_result (fuel : nat) (contents : list Content)
    (chunkCount targetWords tolerance : Z) (r : list Chunk) :
  1 <= chunkCount ->
  refinedChunksOf fuel contents chunkCount targetWords tolerance = Ok r ->
  len r = chunkCount
  /\ tiles 0 r (len (corpusWords contents))
  /\ flatWords r = corpusWords contents.
Proof.
  intros Hk Hr.
  set (big := Nat.max fuel (Z.to_nat (3 * chunkCount + 5))).
  assert (Hbig : refinedChunksOf big contents chunkCount targetWords tolerance = Ok r).
  { unfold refinedChunksOf in *.
    apply (refineChunksRecursively_mono _ _ _ _ fuel); [exact Hr | lia]. }
  destruct (refinedChunksOf_spec big contents chunkCount targetWords tolerance Hk)
    as [n [r' [_ [Hr' [_ H]]]]]; [unfold enoughFuel; lia|].
  rewrite Hbig in Hr'. injection Hr' as <-. exact H.
Qed.

Lemma tiles_sum (a b : Z) (cs : list Chunk) :
  tiles a cs b -> b = a + sumZ (map wordCount cs).
Proof.
  revert a. induction cs as [|c cs IH]; intros a; simpl.
  - intros ->. lia.
  - intros [H1 [[H2 H3] H4]]. apply IH in H4. lia.
Qed.

Lemma tiles_contiguous (a b : Z) (cs : list Chunk) :
  tiles a cs b -> Contiguous a (map wordRange cs) b.
Proof.
  revert a. induction cs as [|c cs IH]; intros a; simpl.
  - auto.
  - intros [H1 [[H2 H3] H4]]. pose proof (len_nonneg (words c)).
    split; [exact H1|]. split; [lia|]. apply IH. exact H4.
Qed.

Lemma sortByStart_contiguous (a b : Z) (rs : list (Z * Z)) :
  Contiguous a rs b -> sortByStart rs = rs.
Proof.
  revert a. induction rs as [|r rs IH]; intros a; simpl.
  - reflexivity.
  - intros [H1 [H2 H3]]. rewrite (IH _ H3).
    destruct rs as [|r' rs']; simpl.
    + reflexivity.
    + destruct H3 as [H3 _]. replace (fst r <=? fst r') with true by lia. reflexivity.
Qed.

Lemma formatFinalChunks_wordCount (chunks : list Chunk) (originalContent : list Content) :
  map f_wordCount (formatFinalChunks chunks originalContent) = map wordCount chunks
  /\ length (formatFinalChunks chunks originalContent) = length chunks.
Proof.
  unfold formatFinalChunks. rewrite map_map, length_map. split; reflexivity.
Qed.

Lemma splitIntoChunks_working (fuel : nat) (chapters : list Chapter) (chunkCount : Z) :
  splitIntoChunks fuel chapters chunkCount =
  chunks <- workingChunks fuel chapters chunkCount ;;
  Ok (formatFinalChunks chunks (fullContentOf chapters)).
Proof. reflexivity. Qed.

(* ================================================================== *)
(** ** The break-point score *)

Lemma nth_error_some_nth {A : Type} (l : list A) (n : nat) (d : A) :
  (n < length l)%nat -> nth_error l n = Some (nth n l d).
Proof.
  revert n. induction l as [|a l IH]; intros [|n] H; simpl in *; try lia.
  - reflexivity.
  - apply IH. lia.
Qed.

(** C7, as the claim states it, fails: the bonus of 40 is not given to
    every following word that begins with an uppercase letter.  After
    [End.] the name that begins with the accented capital U+00C9 begins
    with an uppercase letter, and the score of the boundary is 160, the
    bonuses of the first and the third rule; no sum of bonuses that
    counts the fourth rule as the specification words it equals 160. *)
Lemma uppercase_letter_without_capital_bonus :
  BeginsWithUppercaseLetter accentedName
  /\ ~ StartsWithCapital accentedName
  /\ calculateBreakPointScore accentedWords 1 = 160
  /\ ~ scoreAsSpecified accentedWords 1 (calculateBreakPointScore accentedWords 1).
Proof.
  assert (Hup : BeginsWithUppercaseLetter accentedName).
  { exists 201%N, (lit "ric"). split; [reflexivity|]. unfold UppercaseLetter. lia. }
  split; [exact Hup|]. split.
  { intros [c [rest [H Hc]]]. unfold accentedName in H. injection H as <- _. lia. }
  split; [reflexivity|].
  intros [_ H].
  destruct (H ltac:(unfold len, accentedWords; simpl; lia))
    as [beforeWord [afterWord [Hb [Ha [b100 [b80 [b60 [b40 [b90 [b30
          [H100 [_ [H60 [H40 [_ [_ Hs]]]]]]]]]]]]]]]].
  simpl in Hb, Ha. injection Hb as <-. injection Ha as <-.
  assert (E100 : b100 = true)
    by (apply H100; exists (lit "End"), 46%N; split; [reflexivity | left; reflexivity]).
  assert (E60 : b60 = true)
    by (apply H60; exists (lit "End"), 46%N; split; [reflexivity | left; reflexivity]).
  assert (E40 : b40 = true) by (apply H40; exact Hup).
  change (calculateBreakPointScore accentedWords 1) with 160 in Hs.
  rewrite E100, E60, E40 in Hs. unfold bonus in Hs.
  destruct b80, b90, b30; lia.
Qed.

(** C7, amended.  The score of a boundary is 0 at index 0 and from the
    length of the sequence on; strictly inside it is the sum of the
    bonuses of exactly the rules that apply to the word before and the
    word after the boundary: 100 for a preceding word ending in [.], [!]
    or [?]; 80 when either word contains a double line break; 60 for a
    preceding word ending in [.], [!], [?], [;] or [:]; 40 for a
    following word beginning with a capital of the basic Latin alphabet,
    [A] to [Z], and for no other; 90 when either word contains [chapter]
    up to case; 30 when the following word starts, up to case, with one
    of the six transition words.  The rules are independent. *)
Theorem break_point_score_is_sum_of_bonuses (words : list jsstring) (splitIndex : Z) :
  (splitIndex <= 0 \/ len words <= splitIndex ->
   calculateBreakPointScore words splitIndex = 0) /\
  (0 < splitIndex < len words ->
   exists beforeWord afterWord,
     nth_error words (Z.to_nat (splitIndex - 1)) = Some beforeWord /\
     nth_error words (Z.to_nat splitIndex) = Some afterWord /\
     exists b100 b80 b60 b40 b90 b30 : bool,
       (b100 = true <-> EndsIn sentenceEnds beforeWord) /\
       (b80 = true <->
          Contains doubleNewline beforeWord \/ Contains doubleNewline afterWord) /\
       (b60 = true <-> EndsIn punctuation beforeWord) /\
       (b40 = true <-> StartsWithCapital afterWord) /\
       (b90 = true <->
          ContainsNoCase (lit "chapter") beforeWord
          \/ ContainsNoCase (lit "chapter") afterWord) /\
       (b30 = true <->
          exists t, In t transitionWords /\ StartsWithNoCase t afterWord) /\
       calculateBreakPointScore words splitIndex =
         bonus b100 100 + bonus b80 80 + bonus b60 60
         + bonus b40 40 + bonus b90 90 + bonus b30 30).
Proof.
  split.
  - intros H. unfold calculateBreakPointScore.
    replace ((splitIndex <=? 0) || (splitIndex >=? len words)) with true; [reflexivity|].
    symmetry. apply orb_true_iff. destruct H; [left | right]; lia.
  - intros H. unfold len in H.
    set (beforeWord := nth (Z.to_nat (splitIndex - 1)) words []).
    set (afterWord := nth (Z.to_nat splitIndex) words []).
    exists beforeWord, afterWord.
    split; [apply nth_error_some_nth; lia|].
    split; [apply nth_error_some_nth; lia|].
    exists (matchClassAtEnd isSentenceEnd beforeWord),
      (includes beforeWord doubleNewline || includes afterWord doubleNewline),
      (matchClassAtEnd isPunctuation beforeWord),
      (startsWithCapital afterWord),
      (includes (toLowerCase beforeWord) (lit "chapter")
       || includes (toLowerCase afterWord) (lit "chapter")),
      (existsb (fun word => startsWith (toLowerCase afterWord) word) transitionWords).
    split; [apply matchClassAtEnd_spec, isSentenceEnd_spec|].
    split; [rewrite orb_true_iff, !includes_spec; reflexivity|].
    split; [apply matchClassAtEnd_spec, isPunctuation_spec|].
    split; [apply startsWithCapital_spec|].
    split.
    { rewrite orb_true_iff, !(includes_lower_spec _ _ noCapital_lit_chapter). reflexivity. }
    split.
    { rewrite existsb_exists. split; intros [t [Hin Ht]]; exists t; (split; [exact Hin|]).
      - apply startsWith_lower_spec; [|exact Ht].
        exact (proj1 (Forall_forall _ _) noCapital_transitionWords t Hin).
      - apply startsWith_lower_spec; [|exact Ht].
        exact (proj1 (Forall_forall _ _) noCapital_transitionWords t Hin). }
    unfold calculateBreakPointScore.
    replace ((splitIndex <=? 0) || (splitIndex >=? len words)) with false.
    2:{ symmetry. apply orb_false_iff. unfold len. split; lia. }
    fold beforeWord afterWord.
    destruct (matchClassAtEnd isSentenceEnd beforeWord),
      (includes beforeWord doubleNewline || includes afterWord doubleNewline),
      (matchClassAtEnd isPunctuation beforeWord),
      (startsWithCapital afterWord),
      (includes (toLowerCase beforeWord) (lit "chapter")
       || includes (toLowerCase afterWord) (lit "chapter")),
      (existsb (fun word => startsWith (toLowerCase afterWord) word) transitionWords);
      reflexivity.
Qed.

Lemma break_point_score_witness :
  exists beforeWord afterWord,
    nth_error (splitWords (lit "End. Chapter Two begins now")) (Z.to_nat (1 - 1))
      = Some beforeWord /\
    nth_error (splitWords (lit "End. Chapter Two begins now")) (Z.to_nat 1)
      = Some afterWord /\
    exists b100 b80 b60 b40 b90 b30 : bool,
      (b100 = true <-> EndsIn sentenceEnds beforeWord) /\
      (b80 = true <->
         Contains doubleNewline beforeWord \/ Contains doubleNewline afterWord) /\
      (b60 = true <-> EndsIn punctuation beforeWord) /\
      (b40 = true <-> StartsWithCapital afterWord) /\
      (b90 = true <->
         ContainsNoCase (lit "chapter") beforeWord
         \/ ContainsNoCase (lit "chapter") afterWord) /\
      (b30 = true <->
         exists t, In t transitionWords /\ StartsWithNoCase t afterWord) /\
      calculateBreakPointScore (splitWords (lit "End. Chapter Two begins now")) 1 =
        bonus b100 100 + bonus b80 80 + bonus b60 60
        + bonus b40 40 + bonus b90 90 + bonus b30 30.
Proof.
  apply (proj2 (break_point_score_is_sum_of_bonuses
                  (splitWords (lit "End. Chapter Two begins now")) 1)).
  vm_compute. split; reflexivity.
Defined.

Lemma refinedChunksOf_unique (fuel fuel' : nat) (contents : list Content)
    (chunkCount targetWords tolerance : Z) (r r' : list Chunk) :
  refinedChunksOf fuel contents chunkCount targetWords tolerance = Ok r ->
  refinedChunksOf fuel' contents chunkCount targetWords tolerance = Ok r' ->
  r = r'.
Proof.
  unfold refinedChunksOf. intros H H'.
  apply (refineChunksRecursively_mono _ _ _ _ _ (Nat.max fuel fuel')) in H; [|lia].
  apply (refineChunksRecursively_mono _ _ _ _ _ (Nat.max fuel fuel')) in H'; [|lia].
  congruence.
Qed.

Lemma splitPointOf_short (c : Chunk) : len (words c) <= 1 -> splitPointOf c = 0.
Proof.
  intros H. pose proof (len_nonneg (words c)) as H0.
  unfold splitPointOf, findOptimalSplitPoint.
  assert (Hhalf : len (words c) / 2 = 0) by (apply Z.div_small; lia).
  rewrite Hhalf. rewrite range_empty; [reflexivity|]. lia.
Qed.

(* ================================================================== *)
(** ** Properties of the partition *)

(** C1.  For every chapter list and every chunk count of at least 2 the
    partition is produced, and the half-open word-index ranges of its
    chunks, sorted by start, run from 0 to the number of words of the
    corpus, each range starting where the previous one ends: no gap and
    no overlap.  The chunks are already in the order of their starts, and
    the result does not depend on the fuel, so this holds whether the
    refinement converged or used up its five iterations. *)
Theorem partition_ranges_contiguous (chapters : list Chapter) (chunkCount : Z) (fuel : nat) :
  2 <= chunkCount ->
  enoughFuel fuel chunkCount ->
  exists chunks,
    workingChunks fuel chapters chunkCount = Ok chunks
    /\ (forall fuel' chunks',
          workingChunks fuel' chapters chunkCount = Ok chunks' -> chunks' = chunks)
    /\ Contiguous 0 (sortByStart (map wordRange chunks))
         (len (corpusWords (fullContentOf chapters)))
    /\ sortByStart (map wordRange chunks) = map wordRange chunks.
Proof.
  intros Hk Hf. unfold workingChunks.
  destruct (refinedChunksOf_spec fuel (fullContentOf chapters) chunkCount
              (targetWordsPerChunk chapters chunkCount)
              (toleranceOf (targetWordsPerChunk chapters chunkCount)))
    as [n [r [_ [Hr [_ [_ [T _]]]]]]]; [lia | exact Hf |].
  exists r. split; [exact Hr|]. split.
  - intros fuel' chunks' H'. exact (refinedChunksOf_unique _ _ _ _ _ _ _ _ H' Hr).
  - apply tiles_contiguous in T.
    rewrite (sortByStart_contiguous _ _ _ T). split; [exact T | reflexivity].
Qed.

Lemma partition_ranges_contiguous_witness :
  exists chunks,
    workingChunks 11 sampleChapters 2 = Ok chunks
    /\ (forall fuel' chunks',
          workingChunks fuel' sampleChapters 2 = Ok chunks' -> chunks' = chunks)
    /\ Contiguous 0 (sortByStart (map wordRange chunks))
         (len (corpusWords (fullContentOf sampleChapters)))
    /\ sortByStart (map wordRange chunks) = map wordRange chunks.
Proof.
  apply (partition_ranges_contiguous sampleChapters 2 11).
  - lia.
  - unfold enoughFuel. lia.
Defined.

(** C2.  For every chapter list and every chunk count between 2 and the
    number of words of the corpus, the word counts of the chunks that
    [splitIntoChunks] returns add up to the number of words of the
    corpus: the length of the sequence obtained by splitting the
    concatenated chapter texts at white space and dropping the empty
    tokens. *)
Theorem partition_conserves_word_count (chapters : list Chapter) (chunkCount : Z)
    (fuel : nat) :
  2 <= chunkCount <= len (corpusWords (fullContentOf chapters)) ->
  enoughFuel fuel chunkCount ->
  exists out,
    splitIntoChunks fuel chapters chunkCount = Ok out
    /\ (forall fuel' out', splitIntoChunks fuel' chapters chunkCount = Ok out' -> out' = out)
    /\ sumZ (map f_wordCount out) = len (corpusWords (fullContentOf chapters)).
Proof.
  intros Hk Hf. rewrite splitIntoChunks_working. unfold workingChunks.
  destruct (refinedChunksOf_spec fuel (fullContentOf chapters) chunkCount
              (targetWordsPerChunk chapters chunkCount)
              (toleranceOf (targetWordsPerChunk chapters chunkCount)))
    as [n [r [_ [Hr [_ [_ [T _]]]]]]]; [lia | exact Hf |].
  rewrite Hr. simpl. eexists. split; [reflexivity|]. split.
  - intros fuel' out' H'. rewrite splitIntoChunks_working in H'. unfold workingChunks in H'.
    destruct (refinedChunksOf fuel' _ _ _ _) as [r'| |] eqn:E; simpl in H'; try discriminate.
    injection H' as <-. rewrite (refinedChunksOf_unique _ _ _ _ _ _ _ _ E Hr). reflexivity.
  - rewrite (proj1 (formatFinalChunks_wordCount r (fullContentOf chapters))).
    apply tiles_sum in T. lia.
Qed.

Lemma partition_conserves_word_count_witness :
  exists out,
    splitIntoChunks 11 sampleChapters 2 = Ok out
    /\ (forall fuel' out', splitIntoChunks fuel' sampleChapters 2 = Ok out' -> out' = out)
    /\ sumZ (map f_wordCount out) = len (corpusWords (fullContentOf sampleChapters)).
Proof.
  apply (partition_conserves_word_count sampleChapters 2 11).
  - vm_compute. split; discriminate.
  - unfold enoughFuel. lia.
Defined.

(** C9.  For every chapter list and every chunk count of at least 2 the
    partition terminates: with enough fuel [splitIntoChunks] returns, and
    its working chunks are the initial split refined by at most five
    iterations of [performChunkRefinement].  Inside an iteration, a round
    of the merge loop on more chunks than the target removes exactly one
    chunk and a round of the split loop adds exactly one, on every
    non-empty array, also when the chunk it picks has no word or a single
    word (its first half is then empty); so the merge loop ends within
    [length - targetCount] rounds and the split loop within
    [targetCount - length] rounds. *)
Theorem partitioning_terminates (chapters : list Chapter) (chunkCount : Z) :
  2 <= chunkCount ->
  (forall fuel, enoughFuel fuel chunkCount ->
     exists (n : nat) chunks out,
       (n <= 5)%nat
       /\ iterate n
            (fun cs => performChunkRefinement fuel cs chunkCount
                         (targetWordsPerChunk chapters chunkCount)
                         (toleranceOf (targetWordsPerChunk chapters chunkCount)))
            (initialChunkSplit (combineContentWithMarkers (fullContentOf chapters))
               chunkCount (targetWordsPerChunk chapters chunkCount))
          = Ok chunks
       /\ workingChunks fuel chapters chunkCount = Ok chunks
       /\ splitIntoChunks fuel chapters chunkCount = Ok out)
  /\ (forall cs, chunkCount < len cs ->
        exists r, mergeSmallest cs = Ok r /\ len r = len cs - 1)
  /\ (forall cs, cs <> [] ->
        exists r, splitLargest cs = Ok r /\ len r = len cs + 1)
  /\ (forall c, len (words c) <= 1 ->
        splitPointOf c = 0 /\ words (firstPart 1 c (splitPointOf c)) = [])
  /\ (forall cs fuel, len cs - chunkCount <= Z.of_nat fuel ->
        exists r, mergeLoop fuel chunkCount cs = Ok r)
  /\ (forall cs fuel, cs <> [] -> chunkCount - len cs <= Z.of_nat fuel ->
        exists r, splitLoop fuel chunkCount cs = Ok r).
Proof.
  intros Hk. split; [|split; [|split; [|split; [|split]]]].
  - intros fuel Hf.
    destruct (refinedChunksOf_spec fuel (fullContentOf chapters) chunkCount
                (targetWordsPerChunk chapters chunkCount)
                (toleranceOf (targetWordsPerChunk chapters chunkCount)))
      as [n [r [Hn [Hr [Hit _]]]]]; [lia | exact Hf |].
    exists n, r. eexists. split; [exact Hn|]. split; [exact Hit|]. split; [exact Hr|].
    rewrite splitIntoChunks_working. unfold workingChunks. rewrite Hr. reflexivity.
  - intros cs Hlen. destruct (mergeSmallest_length cs) as [r [Hr Hl]];
      [unfold len in Hlen; lia|].
    exists r. split; [exact Hr | unfold len; lia].
  - intros cs Hne. destruct (splitLargest_length cs Hne) as [r [Hr Hl]].
    exists r. split; [exact Hr | unfold len; lia].
  - intros c Hc. rewrite (splitPointOf_short c Hc). split; [reflexivity|].
    simpl. unfold slice. simpl. rewrite !clampIndex_inside by (pose proof (len_nonneg (words c)); lia).
    reflexivity.
  - intros cs fuel Hf. destruct (mergeLoop_spec chunkCount fuel cs) as [r [Hr _]];
      [lia | exact Hf |]. exists r. exact Hr.
  - intros cs fuel Hne Hf. destruct (splitLoop_spec chunkCount fuel cs Hne Hf) as [r [Hr _]].
    exists r. exact Hr.
Qed.

Lemma partitioning_terminates_witness :
  exists (n : nat) chunks out,
    (n <= 5)%nat
    /\ iterate n
         (fun cs => performChunkRefinement 11 cs 2
                      (targetWordsPerChunk sampleChapters 2)
                      (toleranceOf (targetWordsPerChunk sampleChapters 2)))
         (initialChunkSplit (combineContentWithMarkers (fullContentOf sampleChapters))
            2 (targetWordsPerChunk sampleChapters 2))
       = Ok chunks
    /\ workingChunks 11 sampleChapters 2 = Ok chunks
    /\ splitIntoChunks 11 sampleChapters 2 = Ok out.
Proof.
  apply (proj1 (partitioning_terminates sampleChapters 2 ltac:(lia)) 11%nat).
  unfold enoughFuel. lia.
Defined.

(** C10.  For every non-empty working sequence and every target count of
    at least 2, one refinement iteration returns exactly [targetCount]
    chunks, and every result it returns, whatever the fuel, has that
    length; hence [splitIntoChunks] returns exactly the requested number
    of chunks, also when the five iterations are used up. *)
Theorem refinement_returns_target_count (targetCount : Z) :
  2 <= targetCount ->
  (forall chunks targetWords tolerance fuel,
     chunks <> [] ->
     2 * len chunks + targetCount <= Z.of_nat fuel ->
     exists r,
       performChunkRefinement fuel chunks targetCount targetWords tolerance = Ok r
       /\ len r = targetCount)
  /\ (forall chunks targetWords tolerance fuel r,
        chunks <> [] ->
        performChunkRefinement fuel chunks targetCount targetWords tolerance = Ok r ->
        len r = targetCount)
  /\ (forall chapters fuel,
        enoughFuel fuel targetCount ->
        exists out,
          splitIntoChunks fuel chapters targetCount = Ok out /\ len out = targetCount)
  /\ (forall chapters fuel out,
        splitIntoChunks fuel chapters targetCount = Ok out -> len out = targetCount).
Proof.
  intros Hk. split; [|split; [|split]].
  - intros chunks tw tol fuel Hne Hf.
    destruct (performChunkRefinement_spec fuel chunks targetCount tw tol Hne) as [r [Hr [Hl _]]];
      [lia | exact Hf |].
    exists r. split; assumption.
  - intros chunks tw tol fuel r Hne Hr.
    set (big := Nat.max fuel (Z.to_nat (2 * len chunks + targetCount))).
    assert (Hle : (fuel <= big)%nat) by (unfold big; lia).
    pose proof (performChunkRefinement_mono fuel big _ _ _ _ _ Hr Hle) as Hbig.
    destruct (performChunkRefinement_spec big chunks targetCount tw tol Hne)
      as [r' [Hr' [Hl _]]]; [lia | unfold big; lia |].
    congruence.
  - intros chapters fuel Hf. rewrite splitIntoChunks_working. unfold workingChunks.
    destruct (refinedChunksOf_spec fuel (fullContentOf chapters) targetCount
                (targetWordsPerChunk chapters targetCount)
                (toleranceOf (targetWordsPerChunk chapters targetCount)))
      as [n [r [_ [Hr [_ [Hl _]]]]]]; [lia | exact Hf |].
    rewrite Hr. simpl. eexists. split; [reflexivity|].
    unfold len in *. rewrite (proj2 (formatFinalChunks_wordCount r _)). exact Hl.
  - intros chapters fuel out H. rewrite splitIntoChunks_working in H. unfold workingChunks in H.
    destruct (refinedChunksOf fuel _ _ _ _) as [r| |] eqn:E; simpl in H; try discriminate.
    injection H as <-.
    assert (H1 : 1 <= targetCount) by lia.
    destruct (refinedChunksOf_result _ _ _ _ _ _ H1 E) as [Hl _].
    unfold len in *. rewrite (proj2 (formatFinalChunks_wordCount r _)). exact Hl.
Qed.

Lemma refinement_returns_target_count_witness :
  exists out, splitIntoChunks 11 sampleChapters 2 = Ok out /\ len out = 2.
Proof.
  apply (proj1 (proj2 (proj2 (refinement_returns_target_count 2 ltac:(lia))))).
  unfold enoughFuel. lia.
Defined.

(* ================================================================== *)
(** ** The target and the tolerance *)

(** C5, as the claim states it, fails: the total that is divided is not
    the number of words of the corpus.  The chapter of [listChapters]
    holds eight tokens, four of which are dashes; its stored count is the
    parser's, 4, and the target for two chunks is 2, not 4. *)
Lemma target_is_not_from_corpus_length :
  Forall parserCounted listChapters
  /\ len (corpusWords (fullContentOf listChapters)) = 8
  /\ targetWordsPerChunk listChapters 2 = 2
  /\ ~ (targetWordsPerChunk listChapters 2
        = len (corpusWords (fullContentOf listChapters)) / 2).
Proof.
  split; [repeat constructor|]. split; [reflexivity|]. split; [reflexivity|].
  vm_compute. discriminate.
Qed.

(** C5, amended.  For every chapter list and every chunk count of at
    least 2, [splitIntoChunks] partitions with the target
    [floor(totalWords / chunkCount)] and the tolerance
    [floor(target * 0.1)], where [totalWords] is the sum of the word
    counts stored in the chapters.  For chapters built by the parser that
    sum is the number of corpus words that hold a word character
    [[A-Za-z0-9_]], which is at most the length of the word sequence that
    is split into chunks. *)
Theorem target_from_stored_word_counts (chapters : list Chapter) (chunkCount : Z)
    (fuel : nat) :
  2 <= chunkCount ->
  Forall parserCounted chapters ->
  targetWordsPerChunk chapters chunkCount = sumWordCounts chapters / chunkCount
  /\ toleranceOf (targetWordsPerChunk chapters chunkCount)
     = sumWordCounts chapters / chunkCount / 10
  /\ splitIntoChunks fuel chapters chunkCount
     = createIntelligentChunks fuel (fullContentOf chapters) chunkCount
         (sumWordCounts chapters / chunkCount)
         (sumWordCounts chapters / chunkCount / 10)
  /\ sumWordCounts chapters
     = len (filter testWordChar (corpusWords (fullContentOf chapters)))
  /\ sumWordCounts chapters <= len (corpusWords (fullContentOf chapters)).
Proof.
  intros Hk Hp. split; [reflexivity|]. split; [reflexivity|]. split; [reflexivity|].
  rewrite (sumWordCounts_corpus chapters Hp). split; [reflexivity|].
  apply len_filter_le.
Qed.

Lemma target_from_stored_word_counts_witness :
  targetWordsPerChunk sampleChapters 2 = sumWordCounts sampleChapters / 2
  /\ toleranceOf (targetWordsPerChunk sampleChapters 2)
     = sumWordCounts sampleChapters / 2 / 10
  /\ splitIntoChunks 11 sampleChapters 2
     = createIntelligentChunks 11 (fullContentOf sampleChapters) 2
         (sumWordCounts sampleChapters / 2)
         (sumWordCounts sampleChapters / 2 / 10)
  /\ sumWordCounts sampleChapters
     = len (filter testWordChar (corpusWords (fullContentOf sampleChapters)))
  /\ sumWordCounts sampleChapters <= len (corpusWords (fullContentOf sampleChapters)).
Proof.
  apply (target_from_stored_word_counts sampleChapters 2 11).
  - lia.
  - repeat constructor.
Defined.

(* ================================================================== *)
(** ** What the scan of an iteration does to the working sequence *)

Lemma splitPointOf_near_middle (c : Chunk) :
  Z.abs (splitPointOf c - len (words c) / 2) <= Z.min 50 (len (words c) / 10).
Proof.
  pose proof (len_nonneg (words c)) as H0.
  unfold splitPointOf, findOptimalSplitPoint. cbv zeta.
  set (L := len (words c)) in *. set (R := Z.min 50 (L / 10)).
  assert (HR : 0 <= R) by (unfold R; apply Z.min_glb; [lia | apply Z.div_pos; lia]).
  assert (H : L / 2 - R <= fst (fold_left
               (fun best i =>
                  let '(bestSplit, bestScore) := best in
                  let score := calculateBreakPointScore (words c) i in
                  if score >? bestScore then (i, score) else (bestSplit, bestScore))
               (range (Z.max 1 (L / 2 - R)) (Z.min (L - 1) (L / 2 + R) + 1))
               (L / 2, calculateBreakPointScore (words c) (L / 2))) <= L / 2 + R).
  { apply fold_best_bounds; [simpl; lia|]. intros i Hi. apply in_range in Hi. lia. }
  cbv zeta in H. lia.
Qed.

Lemma fold_best_optimal (ws : list jsstring) (candidates : list Z) (best : Z * Z) :
  snd best = calculateBreakPointScore ws (fst best) ->
  let r := fold_left
             (fun best i =>
                let '(bestSplit, bestScore) := best in
                let score := calculateBreakPointScore ws i in
                if score >? bestScore then (i, score) else (bestSplit, bestScore))
             candidates best in
  snd r = calculateBreakPointScore ws (fst r)
  /\ snd best <= snd r
  /\ forall i, In i candidates -> calculateBreakPointScore ws i <= snd r.
Proof.
  revert best. induction candidates as [|i candidates IH]; intros best Hbest; simpl.
  - split; [exact Hbest|]. split; [lia | intros i []].
  - destruct best as [bestSplit bestScore]. simpl in Hbest.
    destruct (calculateBreakPointScore ws i >? bestScore) eqn:E.
    + destruct (IH (i, calculateBreakPointScore ws i) eq_refl) as [H1 [H2 H3]].
      simpl in H2. split; [exact H1|]. split; [simpl; lia|].
      intros j [<- | Hj]; [exact H2 | apply H3; exact Hj].
    + destruct (IH (bestSplit, bestScore) Hbest) as [H1 [H2 H3]].
      simpl in H2. split; [exact H1|]. split; [exact H2|].
      intros j [<- | Hj]; [lia | apply H3; exact Hj].
Qed.

(** The split point scores at least as much as the midpoint and as every
    boundary of the search window. *)
Lemma splitPointOf_optimal (c : Chunk) (i : Z) :
  i = len (words c) / 2
  \/ Z.max 1 (len (words c) / 2 - Z.min 50 (len (words c) / 10)) <= i
       <= Z.min (len (words c) - 1) (len (words c) / 2 + Z.min 50 (len (words c) / 10)) ->
  calculateBreakPointScore (words c) i
  <= calculateBreakPointScore (words c) (splitPointOf c).
Proof.
  intros Hi. unfold splitPointOf, findOptimalSplitPoint. cbv zeta.
  set (L := len (words c)) in *. set (R := Z.min 50 (L / 10)) in *.
  destruct (fold_best_optimal (words c)
              (range (Z.max 1 (L / 2 - R)) (Z.min (L - 1) (L / 2 + R) + 1))
              (L / 2, calculateBreakPointScore (words c) (L / 2)) eq_refl)
    as [H1 [H2 H3]].
  cbv zeta in H1, H2, H3. rewrite <- H1. destruct Hi as [-> | Hi].
  - exact H2.
  - apply H3. apply in_range. lia.
Qed.

Lemma tiles_wellFormed (a b : Z) (cs : list Chunk) : tiles a cs b -> Forall wellFormed cs.
Proof.
  revert a. induction cs as [|c cs IH]; intros a; simpl.
  - constructor.
  - intros [_ [Hw T]]. constructor; [exact Hw | exact (IH _ T)].
Qed.

Lemma wellFormed_nonneg (c : Chunk) : wellFormed c -> 0 <= wordCount c.
Proof. intros [H _]. rewrite H. apply len_nonneg. Qed.

(** The halves of a chunk that holds at least half the upper bound are
    substantial. *)
Lemma halves_substantial (maxWords n : Z) (c : Chunk) :
  wellFormed c -> maxWords <= 2 * wordCount c ->
  substantial maxWords (firstPart n c (splitPointOf c))
  /\ substantial maxWords (secondPart n c (splitPointOf c)).
Proof.
  intros [Hc _] Hmax. pose proof (splitPointOf_near_middle c) as Hsp.
  pose proof (len_nonneg (words c)) as H0.
  unfold substantial, firstPart, secondPart. cbn [wordCount]. rewrite Hc in Hmax.
  set (L := len (words c)) in *. set (sp := splitPointOf c) in *.
  clearbody L sp.
  assert (Hlo : L / 2 - L / 10 <= sp) by lia.
  assert (Hhi : sp <= L / 2 + L / 10) by lia.
  clear Hsp. split; Z.div_mod_to_equations; lia.
Qed.

Lemma ScanOrigin_cons (minWords maxWords : Z) (x : Chunk) (chunks : list Chunk) (d : Chunk) :
  ScanOrigin minWords maxWords chunks d -> ScanOrigin minWords maxWords (x :: chunks) d.
Proof.
  intros [n c Hin Hc Hd | Hin Hd | n pre post c next Hcs Hd H1 H2 H3 H4].
  - apply (HalfOfOversized _ _ _ _ n c); [right; exact Hin | exact Hc | exact Hd].
  - apply KeptAsIs; [right; exact Hin | exact Hd].
  - apply (MergedPair _ _ _ _ n (x :: pre) post c next); try assumption.
    rewrite Hcs. reflexivity.
Qed.

Section Scan.

Variables minWords maxWords : Z.

Local Abbreviation good := (sound maxWords).

(** An undersized chunk that merges leaves no room for an oversized
    successor. *)
Lemma merge_excludes_oversized (x y : Chunk) :
  good x ->
  fitsMerged (wordCount x + wordCount y) maxWords = true ->
  wordCount y <= maxWords /\ 5 * (wordCount x + wordCount y) <= 6 * maxWords.
Proof.
  intros [_ Hx] Hfit. unfold substantial in Hx. unfold fitsMerged in Hfit. lia.
Qed.

(** Every oversized chunk of the sequence is split, and its two halves
    stand next to each other in the result. *)
Lemma refineScan_splits_oversized (chunks : list Chunk) :
  Forall good chunks ->
  forall acc c,
    In c chunks -> maxWords < wordCount c ->
    exists n pre post,
      refineScan chunks minWords maxWords acc
      = pre ++ firstPart n c (splitPointOf c) :: secondPart n c (splitPointOf c) :: post.
Proof.
  induction chunks as [| x | x y l IHl IHyl] using list_pair_ind; intros Hgood acc c Hin Hc.
  - destruct Hin.
  - destruct Hin as [<- | []]. rewrite refineScan_cons.
    replace (wordCount x >? maxWords) with true by lia. simpl.
    exists (len acc + 1), acc, []. reflexivity.
  - rewrite refineScan_cons. inversion Hgood as [|? ? Hx Hyl]; subst.
    inversion Hyl as [|? ? Hy Hl]; subst.
    destruct (wordCount x >? maxWords) eqn:Ex.
    + destruct Hin as [<- | Hin].
      * destruct (refineScan_prefix minWords maxWords (y :: l)
                    (acc ++ [firstPart (len acc + 1) x (splitPointOf x);
                             secondPart (len acc + 1) x (splitPointOf x)])) as [t Ht].
        rewrite Ht, <- app_assoc. exists (len acc + 1), acc, t. reflexivity.
      * apply IHyl; assumption.
    + destruct Hin as [<- | Hin]; [lia|].
      destruct (wordCount x <? minWords) eqn:Em;
        [destruct (fitsMerged (wordCount x + wordCount y) maxWords) eqn:Ef|].
      * destruct (merge_excludes_oversized x y Hx Ef) as [Hy' _].
        destruct Hin as [<- | Hin]; [lia|]. apply IHl; assumption.
      * apply IHyl; assumption.
      * apply IHyl; assumption.
Qed.

(** Every chunk the scan writes is a half of an oversized chunk, a chunk
    kept, or an allowed merge. *)
Lemma refineScan_origin (chunks : list Chunk) :
  Forall good chunks ->
  forall acc d,
    In d (refineScan chunks minWords maxWords acc) ->
    In d acc \/ ScanOrigin minWords maxWords chunks d.
Proof.
  induction chunks as [| x | x y l IHl IHyl] using list_pair_ind; intros Hgood acc d Hin.
  - left. exact Hin.
  - rewrite refineScan_cons in Hin. destruct (wordCount x >? maxWords) eqn:Ex; simpl in Hin;
      apply in_app_or in Hin; destruct Hin as [Hin | Hin]; try (left; exact Hin); right.
    + apply (HalfOfOversized _ _ _ _ (len acc + 1) x); [left; reflexivity | lia |].
      destruct Hin as [<- | [<- | []]]; [left | right]; reflexivity.
    + destruct Hin as [<- | []]. apply KeptAsIs; [left; reflexivity | lia].
  - rewrite refineScan_cons in Hin. inversion Hgood as [|? ? Hx Hyl]; subst.
    inversion Hyl as [|? ? Hy Hl]; subst.
    destruct (wordCount x >? maxWords) eqn:Ex.
    + destruct (IHyl Hyl _ _ Hin) as [H | H].
      * apply in_app_or in H. destruct H as [H | H]; [left; exact H | right].
        apply (HalfOfOversized _ _ _ _ (len acc + 1) x); [left; reflexivity | lia |].
        destruct H as [<- | [<- | []]]; [left | right]; reflexivity.
      * right. apply ScanOrigin_cons. exact H.
    + assert (Hkeep : In d (refineScan (y :: l) minWords maxWords (acc ++ [x])) ->
                      In d acc \/ ScanOrigin minWords maxWords (x :: y :: l) d).
      { intros Hk. destruct (IHyl Hyl _ _ Hk) as [H | H].
        - apply in_app_or in H. destruct H as [H | [<- | []]]; [left; exact H | right].
          apply KeptAsIs; [left; reflexivity | lia].
        - right. apply ScanOrigin_cons. exact H. }
      destruct (wordCount x <? minWords) eqn:Em;
        [destruct (fitsMerged (wordCount x + wordCount y) maxWords) eqn:Ef|];
        [|exact (Hkeep Hin) | exact (Hkeep Hin)].
      destruct (merge_excludes_oversized x y Hx Ef) as [Hy' Hfit].
      destruct (IHl Hl _ _ Hin) as [H | H].
      * apply in_app_or in H. destruct H as [H | [<- | []]]; [left; exact H | right].
        apply (MergedPair _ _ _ _ (len acc + 1) [] l x y); try reflexivity; lia.
      * right. apply ScanOrigin_cons, ScanOrigin_cons. exact H.
Qed.

Lemma ScanOrigin_substantial (chunks : list Chunk) (d : Chunk) :
  Forall good chunks -> ScanOrigin minWords maxWords chunks d -> substantial maxWords d.
Proof.
  intros Hgood H. rewrite Forall_forall in Hgood.
  destruct H as [n c Hin Hc Hd | Hin Hd | n pre post c next Hcs Hd H1 H2 H3 H4].
  - destruct (Hgood c Hin) as [Hw _]. pose proof (wellFormed_nonneg c Hw).
    destruct (halves_substantial maxWords n c Hw) as [Hf Hs]; [lia|].
    destruct Hd as [-> | ->]; assumption.
  - exact (proj2 (Hgood d Hin)).
  - subst. assert (Hc : good c) by (apply Hgood, in_or_app; right; left; reflexivity).
    assert (Hn : good next)
      by (apply Hgood, in_or_app; right; right; left; reflexivity).
    destruct Hc as [_ Hc]. destruct Hn as [Hn _]. pose proof (wellFormed_nonneg next Hn).
    unfold substantial, mergedChunk in *. cbn [wordCount]. lia.
Qed.

End Scan.

(* ================================================================== *)
(** ** The working sequences keep their chunks substantial *)

Lemma fold_argmax (g : nat -> Z) (candidates : list nat) (start : nat) :
  let r := fold_left (fun cur i => if g i >? g cur then i else cur) candidates start in
  g start <= g r /\ forall i, In i candidates -> g i <= g r.
Proof.
  revert start. induction candidates as [|i candidates IH]; intros start; simpl.
  - split; [lia | intros i []].
  - destruct (IH (if g i >? g start then i else start)) as [H1 H2].
    destruct (g i >? g start) eqn:E; split; try lia.
    + intros j [<- | Hj]; [lia | apply H2; exact Hj].
    + intros j [<- | Hj]; [lia | apply H2; exact Hj].
Qed.

Lemma findLargestIndex_max (cs : list Chunk) (i : nat) :
  (i < length cs)%nat -> wordCountAt cs i <= wordCountAt cs (findLargestIndex cs).
Proof.
  intros Hi. unfold findLargestIndex.
  destruct (fold_argmax (wordCountAt cs) (seq 1 (length cs - 1)) 0%nat) as [H0 H1].
  destruct i as [|i]; [exact H0|]. apply H1. apply in_seq. lia.
Qed.

Lemma len_cons {A : Type} (x : A) (l : list A) : len (x :: l) = 1 + len l.
Proof. unfold len. simpl length. lia. Qed.

Lemma sum_le_largest (cs : list Chunk) (L : Z) :
  (forall c, In c cs -> wordCount c <= L) -> sumZ (map wordCount cs) <= len cs * L.
Proof.
  induction cs as [|c cs IH]; intros H.
  - reflexivity.
  - assert (Hc : wordCount c <= L) by (apply H; left; reflexivity).
    assert (Hr : sumZ (map wordCount cs) <= len cs * L)
      by (apply IH; intros; apply H; right; assumption).
    rewrite len_cons. change (sumZ (map wordCount (c :: cs)))
      with (wordCount c + sumZ (map wordCount cs)). lia.
Qed.

Section Reach.

Variables chunkCount targetWords tolerance total : Z.
Hypothesis count_positive : 1 <= chunkCount.
Hypothesis target_nonneg : 0 <= targetWords.
Hypothesis tolerance_small : 0 <= tolerance <= targetWords.
Hypothesis target_fits : chunkCount * targetWords <= total.

Local Abbreviation maxWords := (targetWords + tolerance).
Local Abbreviation minWords := (targetWords - tolerance).

Lemma mergeSmallest_substantial (cs r : list Chunk) (a b : Z) :
  (2 <= length cs)%nat -> mergeSmallest cs = Ok r -> tiles a cs b ->
  Forall (substantial maxWords) cs -> Forall (substantial maxWords) r.
Proof.
  intros Hlen Hr T Hs. destruct (mergeSmallest_shape cs Hlen)
    as [pre [x [y [post [s [t [n [Hcs [Hst Hr']]]]]]]]].
  rewrite Hr in Hr'. injection Hr' as ->. subst cs.
  pose proof (tiles_wellFormed _ _ _ T) as Hw.
  apply Forall_app in Hs. destruct Hs as [Hpre Hrest].
  apply Forall_app in Hw. destruct Hw as [_ Hwrest].
  inversion Hrest as [|? ? Hx Hrest']; subst. inversion Hrest' as [|? ? Hy Hpost]; subst.
  inversion Hwrest as [|? ? Wx Wrest']; subst. inversion Wrest' as [|? ? Wy _]; subst.
  pose proof (wellFormed_nonneg x Wx). pose proof (wellFormed_nonneg y Wy).
  apply Forall_app. split; [exact Hpre|]. constructor; [|exact Hpost].
  unfold substantial in *. cbn [wordCount]. destruct Hst as [[-> ->] | [-> ->]]; lia.
Qed.

Lemma mergeLoop_reachable (fuel : nat) :
  forall cs r,
    mergeLoop fuel chunkCount cs = Ok r ->
    reachable total maxWords cs -> reachable total maxWords r.
Proof.
  induction fuel as [|fuel IH]; intros cs r H [T Hs]; rewrite mergeLoop_eq in H;
    destruct (len cs >? chunkCount) eqn:E; try discriminate;
    try (injection H as <-; split; assumption).
  destruct (mergeSmallest cs) as [m| |] eqn:Em; simpl in H; try discriminate.
  assert (Hlen : (2 <= length cs)%nat) by (unfold len in E; lia).
  apply (IH m r H). split.
  - exact (proj1 (mergeSmallest_tiles cs m 0 total Hlen Em T)).
  - exact (mergeSmallest_substantial cs m 0 total Hlen Em T Hs).
Qed.

(** While chunks are missing, the largest chunk holds at least the
    target. *)
Lemma largest_holds_target (cs : list Chunk) :
  tiles 0 cs total -> len cs < chunkCount -> cs <> [] ->
  targetWords <= wordCountAt cs (findLargestIndex cs).
Proof.
  intros T Hlen Hne. set (L := wordCountAt cs (findLargestIndex cs)).
  assert (Hall : forall c, In c cs -> wordCount c <= L).
  { intros c Hin. apply In_nth_error in Hin. destruct Hin as [i Hi].
    assert (Hlt : (i < length cs)%nat) by (apply nth_error_Some; congruence).
    pose proof (findLargestIndex_max cs i Hlt) as Hmax.
    unfold wordCountAt in Hmax at 1. rewrite Hi in Hmax. exact Hmax. }
  pose proof (sum_le_largest cs L Hall) as Hsum.
  pose proof (tiles_sum _ _ _ T) as Htot.
  assert (Hpos : 1 <= len cs)
    by (destruct cs; [congruence | rewrite len_cons; pose proof (len_nonneg cs); lia]).
  clearbody L.
  destruct (Z_lt_le_dec L targetWords) as [Hlt | Hge]; [|exact Hge]. exfalso. nia.
Qed.

Lemma splitLargest_substantial (cs r : list Chunk) :
  len cs < chunkCount -> splitLargest cs = Ok r -> reachable total maxWords cs ->
  reachable total maxWords r.
Proof.
  intros Hlen Hr [T Hs].
  assert (Hne : cs <> []) by (intros ->; discriminate).
  split; [exact (proj1 (splitLargest_tiles cs r 0 total Hne Hr T))|].
  pose proof (largest_holds_target cs T Hlen Hne) as Hlarge.
  destruct (splitLargest_shape cs Hne) as [pre [c [post [n [Hcs [Hc Hr']]]]]].
  rewrite Hr in Hr'. injection Hr' as ->. rewrite <- Hc in Hlarge.
  pose proof (tiles_wellFormed _ _ _ T) as Hw. rewrite Hcs in Hs, Hw.
  apply Forall_app in Hs. destruct Hs as [Hpre Hrest].
  apply Forall_app in Hw. destruct Hw as [_ Hwrest].
  inversion Hrest as [|? ? _ Hpost]; subst. inversion Hwrest as [|? ? Wc _]; subst.
  destruct (halves_substantial maxWords n c Wc) as [Hf Hsnd]; [lia|].
  apply Forall_app. split; [exact Hpre|]. constructor; [exact Hf|].
  constructor; [exact Hsnd | exact Hpost].
Qed.

Lemma splitLoop_reachable (fuel : nat) :
  forall cs r,
    splitLoop fuel chunkCount cs = Ok r ->
    reachable total maxWords cs -> reachable total maxWords r.
Proof.
  induction fuel as [|fuel IH]; intros cs r H Hreach; rewrite splitLoop_eq in H;
    destruct (len cs <? chunkCount) eqn:E; try discriminate;
    try (injection H as <-; exact Hreach).
  destruct (splitLargest cs) as [m| |] eqn:Em; simpl in H; try discriminate.
  apply (IH m r H). apply (splitLargest_substantial cs m); [lia | exact Em | exact Hreach].
Qed.

Lemma substantial_by_counts (cs cs' : list Chunk) :
  map wordCount cs' = map wordCount cs ->
  Forall (substantial maxWords) cs -> Forall (substantial maxWords) cs'.
Proof.
  revert cs'. induction cs as [|c cs IH]; intros [|c' cs'] Hmap H; try discriminate.
  - constructor.
  - simpl in Hmap. injection Hmap as Hc Hrest. inversion H; subst.
    constructor; [unfold substantial in *; lia | apply IH; assumption].
Qed.

Lemma refineScan_reachable (cs : list Chunk) :
  reachable total maxWords cs ->
  reachable total maxWords (refineScan cs minWords maxWords []).
Proof.
  intros [T Hs]. split.
  - exact (proj1 (refineScan_tiles minWords maxWords cs [] 0 0 total eq_refl T)).
  - assert (Hgood : Forall (sound maxWords) cs).
    { pose proof (tiles_wellFormed _ _ _ T) as Hw. rewrite Forall_forall in *.
      intros c Hin. split; [apply Hw | apply Hs]; exact Hin. }
    apply Forall_forall. intros d Hin.
    destruct (refineScan_origin minWords maxWords cs Hgood [] d Hin) as [[] | Ho].
    exact (ScanOrigin_substantial minWords maxWords cs d Hgood Ho).
Qed.

Lemma performChunkRefinement_reachable (fuel : nat) (cs r : list Chunk) :
  performChunkRefinement fuel cs chunkCount targetWords tolerance = Ok r ->
  reachable total maxWords cs -> reachable total maxWords r.
Proof.
  unfold performChunkRefinement. intros H Hreach.
  apply refineScan_reachable in Hreach.
  destruct (mergeLoop fuel chunkCount _) as [m| |] eqn:Em; simpl in H; try discriminate.
  apply (mergeLoop_reachable fuel _ m Em) in Hreach.
  destruct (splitLoop fuel chunkCount m) as [s| |] eqn:Es; simpl in H; try discriminate.
  apply (splitLoop_reachable fuel _ s Es) in Hreach.
  injection H as <-. destruct Hreach as [T Hs].
  destruct (renumber_spec s) as [_ [_ [R3 R4]]]. split; [apply R4; exact T|].
  exact (substantial_by_counts s (renumber s) R3 Hs).
Qed.

Lemma iterate_reachable (fuel j : nat) :
  forall cs r,
    iterate j (fun cs => performChunkRefinement fuel cs chunkCount targetWords tolerance) cs
    = Ok r ->
    reachable total maxWords cs -> reachable total maxWords r.
Proof.
  induction j as [|j IH]; intros cs r H Hreach; simpl in H.
  - injection H as <-. exact Hreach.
  - destruct (performChunkRefinement fuel cs chunkCount targetWords tolerance)
      as [m| |] eqn:Em; simpl in H; try discriminate.
    apply (IH m r H). exact (performChunkRefinement_reachable fuel cs m Em Hreach).
Qed.

End Reach.

Lemma initialChunkSplit_reachable (full : fullText) (chunkCount targetWords tolerance : Z) :
  1 <= chunkCount -> 0 <= targetWords -> 0 <= tolerance <= targetWords ->
  chunkCount * targetWords <= len (splitWords (text full)) ->
  reachable (len (splitWords (text full))) (targetWords + tolerance)
    (initialChunkSplit full chunkCount targetWords).
Proof.
  intros Hk Ht Htol Hfit.
  destruct (initialChunkSplit_spec full chunkCount targetWords Hk) as [_ [T [_ G]]].
  split; [exact T|].
  assert (Hq : targetWords <= len (splitWords (text full)) / chunkCount)
    by (apply Z.div_le_lower_bound; lia).
  eapply Forall_impl; [|exact G]. intros c Hc. unfold substantial. simpl in Hc. lia.
Qed.

(** The band of a partition of parser-built chapters. *)
Lemma band_facts (chapters : list Chapter) (chunkCount : Z) :
  2 <= chunkCount -> Forall parserCounted chapters ->
  0 <= targetWordsPerChunk chapters chunkCount
  /\ 0 <= toleranceOf (targetWordsPerChunk chapters chunkCount)
       <= targetWordsPerChunk chapters chunkCount
  /\ chunkCount * targetWordsPerChunk chapters chunkCount
     <= len (corpusWords (fullContentOf chapters)).
Proof.
  intros Hk Hp. unfold targetWordsPerChunk, toleranceOf.
  pose proof (sumWordCounts_corpus chapters Hp) as Hsum.
  pose proof (len_filter_le testWordChar (corpusWords (fullContentOf chapters))) as Hle.
  pose proof (len_nonneg (filter testWordChar (corpusWords (fullContentOf chapters)))) as H0.
  rewrite <- Hsum in Hle, H0.
  set (S := sumWordCounts chapters) in *. clearbody S.
  assert (Ht : 0 <= S / chunkCount) by (apply Z.div_pos; lia).
  assert (Hm : chunkCount * (S / chunkCount) <= S) by (apply Z.mul_div_le; lia).
  split; [exact Ht|]. split; [|lia].
  split; [apply Z.div_pos; lia|]. apply Z.div_le_upper_bound; lia.
Qed.

(** C6.  In every refinement iteration of a partition of parser-built
    chapters, every chunk of the working sequence whose word count exceeds
    the upper bound is split by the scan at the break point that
    [findOptimalSplitPoint] picks around its midpoint: a boundary at most
    [min(50, length / 10)] words away from the midpoint that scores at
    least as much as every inner boundary of that window; its two halves
    stand in its place, next to each other.  Every other chunk the scan
    writes is a chunk kept unchanged, or the union of a chunk below the
    lower bound with its immediate successor; the two merged chunks are
    not oversized, so they are among those the splitting leaves, and their
    sizes add up to at most 1.2 times the upper bound. *)
Theorem scan_splits_oversized_and_merges_the_rest (chapters : list Chapter)
    (chunkCount : Z) (fuel j : nat) (chunks : list Chunk) :
  2 <= chunkCount ->
  Forall parserCounted chapters ->
  workingSequence fuel j chapters chunkCount = Ok chunks ->
  (forall c,
     In c chunks -> upperBound chapters chunkCount < wordCount c ->
     Z.abs (splitPointOf c - len (words c) / 2) <= Z.min 50 (len (words c) / 10)
     /\ (forall i,
           0 < i < len (words c) ->
           Z.abs (i - len (words c) / 2) <= Z.min 50 (len (words c) / 10) ->
           calculateBreakPointScore (words c) i
           <= calculateBreakPointScore (words c) (splitPointOf c))
     /\ exists n pre post,
          refineScan chunks (lowerBound chapters chunkCount)
            (upperBound chapters chunkCount) []
          = pre ++ firstPart n c (splitPointOf c) :: secondPart n c (splitPointOf c) :: post)
  /\ (forall d,
        In d (refineScan chunks (lowerBound chapters chunkCount)
                (upperBound chapters chunkCount) []) ->
        ScanOrigin (lowerBound chapters chunkCount) (upperBound chapters chunkCount) chunks d).
Proof.
  intros Hk Hp Hseq. destruct (band_facts chapters chunkCount Hk Hp) as [Ht [Htol Hfit]].
  unfold workingSequence in Hseq. unfold lowerBound, upperBound.
  set (tw := targetWordsPerChunk chapters chunkCount) in *.
  set (tol := toleranceOf tw) in *.
  assert (Hk1 : 1 <= chunkCount) by lia.
  assert (Hinit : reachable (len (corpusWords (fullContentOf chapters))) (tw + tol)
                    (initialChunkSplit (combineContentWithMarkers (fullContentOf chapters))
                       chunkCount tw)).
  { apply initialChunkSplit_reachable; assumption. }
  pose proof (iterate_reachable chunkCount tw tol _ Hk1 Ht Htol Hfit fuel j _ _ Hseq Hinit)
    as [T Hs].
  assert (Hgood : Forall (sound (tw + tol)) chunks).
  { pose proof (tiles_wellFormed _ _ _ T) as Hw. rewrite Forall_forall in *.
    intros c Hin. split; [apply Hw | apply Hs]; exact Hin. }
  split.
  - intros c Hin Hc. split; [apply splitPointOf_near_middle|]. split.
    + intros i Hi Hnear. apply splitPointOf_optimal. right. lia.
    + exact (refineScan_splits_oversized (tw - tol) (tw + tol) chunks Hgood [] c Hin Hc).
  - intros d Hin.
    destruct (refineScan_origin (tw - tol) (tw + tol) chunks Hgood [] d Hin) as [[] | Ho].
    exact Ho.
Qed.

Lemma scan_splits_oversized_and_merges_the_rest_witness :
  (forall c,
     In c (initialChunkSplit (combineContentWithMarkers (fullContentOf sampleChapters)) 2
             (targetWordsPerChunk sampleChapters 2)) ->
     upperBound sampleChapters 2 < wordCount c ->
     Z.abs (splitPointOf c - len (words c) / 2) <= Z.min 50 (len (words c) / 10)
     /\ (forall i,
           0 < i < len (words c) ->
           Z.abs (i - len (words c) / 2) <= Z.min 50 (len (words c) / 10) ->
           calculateBreakPointScore (words c) i
           <= calculateBreakPointScore (words c) (splitPointOf c))
     /\ exists n pre post,
          refineScan
            (initialChunkSplit (combineContentWithMarkers (fullContentOf sampleChapters)) 2
               (targetWordsPerChunk sampleChapters 2))
            (lowerBound sampleChapters 2) (upperBound sampleChapters 2) []
          = pre ++ firstPart n c (splitPointOf c) :: secondPart n c (splitPointOf c) :: post)
  /\ (forall d,
        In d (refineScan
                (initialChunkSplit (combineContentWithMarkers (fullContentOf sampleChapters)) 2
                   (targetWordsPerChunk sampleChapters 2))
                (lowerBound sampleChapters 2) (upperBound sampleChapters 2) []) ->
        ScanOrigin (lowerBound sampleChapters 2) (upperBound sampleChapters 2)
          (initialChunkSplit (combineContentWithMarkers (fullContentOf sampleChapters)) 2
             (targetWordsPerChunk sampleChapters 2))
          d).
Proof.
  apply (scan_splits_oversized_and_merges_the_rest sampleChapters 2 0 0).
  - lia.
  - repeat constructor.
  - reflexivity.
Defined.

(** The scan is a single pass, and the statement above rests on the
    working sequences being substantial.  On an array that is not, the
    scan can merge an oversized chunk into its undersized predecessor: with
    the band from 9 to 11 the chunk of twelve words is not split. *)
Lemma scan_absorbs_outside_working_sequences :
  tiles 0 [tinyChunk; largeChunk] 13
  /\ ~ substantial 11 tinyChunk
  /\ map wordCount (refineScan [tinyChunk; largeChunk] 9 11 []) = [13].
Proof.
  split; [|split].
  - simpl. unfold wellFormed. simpl. repeat split.
  - unfold substantial. simpl. lia.
  - reflexivity.
Qed.

(* ================================================================== *)
(** ** Chapter extraction *)

Section ExtractionFacts.

Variable zipHas : jsstring -> bool.
Variable extractHTMLContent : jsstring -> option jsstring.
Variable extractTextContent : jsstring -> option jsstring.
Variable extractFragmentContent : jsstring -> jsstring -> option jsstring.
Variable manifest : EPUBParser.Manifest.

Local Abbreviation navStep :=
  (EPUBParser.extractNavItem zipHas extractHTMLContent extractTextContent
     extractFragmentContent manifest).

Local Abbreviation spineStep :=
  (EPUBParser.extractSpineItem zipHas extractHTMLContent extractTextContent manifest).

Lemma extractNavItem_meaningful (state : list jsstring * list Chapter)
    (navItem : EPUBParser.NavItem) :
  Forall meaningful (snd state) -> Forall meaningful (snd (navStep state navItem)).
Proof.
  intros H. unfold EPUBParser.extractNavItem. destruct state as [processed chapters].
  destruct (find _ (map snd manifest)) as [manifestItem|]; [|exact H].
  destruct (zipHas (EPUBParser.href manifestItem)); [|exact H].
  destruct (existsb _ processed); [exact H|].
  destruct (EPUBParser.extractNavContent _ _ _ manifestItem navItem) as [[html txt]|];
    [|exact H].
  destruct (EPUBParser.countWords txt >? 10) eqn:E; [|exact H].
  simpl in *. apply Forall_app. split; [exact H|].
  constructor; [|constructor]. unfold meaningful. simpl. split; [lia | reflexivity].
Qed.

Lemma extractChaptersFromNavigation_meaningful (navigation : list EPUBParser.NavItem)
    (state : list jsstring * list Chapter) :
  Forall meaningful (snd state) ->
  Forall meaningful (snd (fold_left navStep navigation state)).
Proof.
  revert state. induction navigation as [|navItem navigation IH]; intros state H; simpl.
  - exact H.
  - apply IH. apply extractNavItem_meaningful. exact H.
Qed.

(** What one spine entry contributes: [spineStep [] entry]. *)
Lemma extractSpineItem_app (chapters : list Chapter) (entry : Z * EPUBParser.SpineItem) :
  spineStep chapters entry = chapters ++ spineStep [] entry.
Proof.
  unfold EPUBParser.extractSpineItem. destruct entry as [i spineItem].
  destruct (EPUBParser.manifestGet manifest _) as [manifestItem|];
    [|rewrite app_nil_r; reflexivity].
  destruct (zipHas _); [|rewrite app_nil_r; reflexivity].
  destruct (extractHTMLContent _) as [html|]; [|rewrite app_nil_r; reflexivity].
  destruct (extractTextContent html) as [txt|]; [|rewrite app_nil_r; reflexivity].
  reflexivity.
Qed.

Lemma fold_spine_app (entries : list (Z * EPUBParser.SpineItem)) (chapters : list Chapter) :
  fold_left spineStep entries chapters = chapters ++ flat_map (spineStep []) entries.
Proof.
  revert chapters. induction entries as [|e entries IH]; intros chapters; simpl.
  - rewrite app_nil_r. reflexivity.
  - rewrite IH, extractSpineItem_app, <- app_assoc. reflexivity.
Qed.

End ExtractionFacts.

Lemma in_combine_indexed {A : Type} (f : nat -> Z) (l : list A) :
  forall (s i : nat) (x : A),
    nth_error l i = Some x ->
    In (f (s + i)%nat, x) (combine (map f (seq s (length l))) l).
Proof.
  induction l as [|y l IH]; intros s i x H.
  - destruct i; discriminate.
  - destruct i as [|i]; simpl in *.
    + injection H as ->. left. rewrite Nat.add_0_r. reflexivity.
    + right. replace (s + S i)%nat with (S s + i)%nat by lia. apply IH. exact H.
Qed.

Lemma in_spine_entries (spine : list EPUBParser.SpineItem) (i : nat)
    (spineItem : EPUBParser.SpineItem) :
  nth_error spine i = Some spineItem ->
  In (Z.of_nat i, spineItem) (combine (range 0 (len spine)) spine).
Proof.
  intros H. unfold range, len.
  replace (Z.to_nat (Z.of_nat (length spine) - 0)) with (length spine) by lia.
  exact (in_combine_indexed (fun k => 0 + Z.of_nat k) spine 0 i spineItem H).
Qed.

(** C8.  Every chapter that navigation-driven extraction returns has more
    than 10 words in its extracted plain text, so a chapter with 10 words
    or fewer never appears; the spine fallback has no such filter: every
    spine entry whose resource is in the manifest and in the archive and
    whose extraction does not throw appears in its output, with its text,
    word count and position, whatever the word count. *)
Theorem fragment_filter_is_asymmetric
    (zipHas : jsstring -> bool)
    (extractHTMLContent extractTextContent : jsstring -> option jsstring)
    (extractFragmentContent : jsstring -> jsstring -> option jsstring)
    (manifest : EPUBParser.Manifest) (spine : list EPUBParser.SpineItem) :
  (forall navItem items ch,
     In ch (EPUBParser.extractChapters zipHas extractHTMLContent extractTextContent
              extractFragmentContent manifest spine (Some (navItem :: items))) ->
     10 < EPUBParser.countWords (ch_textContent ch)
     /\ ch_wordCount ch = EPUBParser.countWords (ch_textContent ch))
  /\ (forall navigation (i : nat) spineItem manifestItem htmlContent textContent,
        navigation = None \/ navigation = Some [] ->
        nth_error spine i = Some spineItem ->
        EPUBParser.manifestGet manifest (EPUBParser.idref spineItem) = Some manifestItem ->
        zipHas (EPUBParser.href manifestItem) = true ->
        extractHTMLContent (EPUBParser.href manifestItem) = Some htmlContent ->
        extractTextContent htmlContent = Some textContent ->
        In (spineChapter (Z.of_nat i) manifestItem htmlContent textContent)
           (EPUBParser.extractChapters zipHas extractHTMLContent extractTextContent
              extractFragmentContent manifest spine navigation)).
Proof.
  split.
  - intros navItem items ch Hin. unfold EPUBParser.extractChapters in Hin.
    unfold EPUBParser.extractChaptersFromNavigation in Hin.
    pose proof (extractChaptersFromNavigation_meaningful zipHas extractHTMLContent
                  extractTextContent extractFragmentContent manifest
                  (navItem :: items) ([], []) (Forall_nil _)) as H.
    rewrite Forall_forall in H. destruct (H ch Hin) as [H1 H2]. split; [lia | exact H2].
  - intros navigation i spineItem manifestItem htmlContent textContent Hnav Hi Hm Hz Hh Ht.
    assert (E : EPUBParser.extractChapters zipHas extractHTMLContent extractTextContent
                  extractFragmentContent manifest spine navigation
                = EPUBParser.extractChaptersFromSpine zipHas extractHTMLContent
                    extractTextContent manifest spine []).
    { destruct Hnav as [-> | ->]; reflexivity. }
    rewrite E. unfold EPUBParser.extractChaptersFromSpine.
    rewrite fold_spine_app. simpl. apply in_flat_map.
    exists (Z.of_nat i, spineItem). split; [apply in_spine_entries; exact Hi|].
    unfold EPUBParser.extractSpineItem. rewrite Hm, Hz, Hh, Ht.
    left. reflexivity.
Qed.

Lemma fragment_filter_is_asymmetric_witness :
  In (spineChapter (Z.of_nat 0)
        (EPUBParser.mkManifestItem (lit "OEBPS/prologue.xhtml") (lit "application/xhtml+xml") [])
        (lit "OEBPS/prologue.xhtml") (lit "Dedication"))
     (EPUBParser.extractChapters sampleZipHas sampleHTML sampleShortText sampleFragment
        sampleManifest sampleSpine None)
  /\ EPUBParser.countWords (lit "Dedication") = 1.
Proof.
  split; [|reflexivity].
  apply (proj2 (fragment_filter_is_asymmetric sampleZipHas sampleHTML sampleShortText
                  sampleFragment sampleManifest sampleSpine)
           None 0%nat (EPUBParser.mkSpineItem (lit "item2") 0 true)).
  - left. reflexivity.
  - reflexivity.
  - reflexivity.
  - reflexivity.
  - reflexivity.
  - reflexivity.
Defined.

(** C3 (defect of the code).  [findSpineOrder] never reads the spine: it
    returns the number spelled by the digits of the manifest identifier.
    On the sample archive the spine reads the prologue and then the
    story, and sorting the extracted chapters by [spineOrder] puts the
    story first. *)
Theorem findSpineOrder_ignores_the_spine :
  readingOrder sampleManifest sampleSpine
    = [lit "OEBPS/prologue.xhtml"; lit "OEBPS/story.xhtml"]
  /\ map ch_htmlContent
       (EPUBParser.extractChapters sampleZipHas sampleHTML sampleLongText sampleFragment
          sampleManifest sampleSpine (Some sampleNavigation))
     = [lit "OEBPS/prologue.xhtml"; lit "OEBPS/story.xhtml"]
  /\ map spineOrder
       (EPUBParser.extractChapters sampleZipHas sampleHTML sampleLongText sampleFragment
          sampleManifest sampleSpine (Some sampleNavigation))
     = [2; 1]
  /\ map ch_htmlContent
       (sortBySpineOrder
          (EPUBParser.extractChapters sampleZipHas sampleHTML sampleLongText sampleFragment
             sampleManifest sampleSpine (Some sampleNavigation)))
     = [lit "OEBPS/story.xhtml"; lit "OEBPS/prologue.xhtml"].
Proof. vm_compute. repeat split. Qed.

(** The number read from an identifier is a double: digits past the 53
    leading bits are rounded away, as for this identifier. *)
Remark findSpineOrder_rounds_long_numbers :
  EPUBParser.findSpineOrder
    [(lit "item9007199254740993", EPUBParser.mkManifestItem (lit "a.xhtml") [] [])]
    (lit "a.xhtml")
  = 9007199254740992.
Proof. vm_compute. reflexivity. Qed.

(** C4 (defect of the code).  [splitIntoChunks] reads the chunk count and
    partitions without checking it; the check of [calculateChunks] is not
    repeated.  With a chunk count of 1, which the preview refuses, the
    partition returns one chunk holding the whole corpus; with 0 it
    returns no chunk and no error; with -1 it fails with a [TypeError]
    inside the merge loop. *)
Theorem splitIntoChunks_does_not_validate :
  (exists message, calculateChunks sampleChapters (Some 1) = Alert message)
  /\ (exists out,
        splitIntoChunks 8 sampleChapters 1 = Ok out
        /\ map f_wordCount out = [7]
        /\ map f_textContent out = [lit "alpha beta gamma delta. Epsilon zeta eta"])
  /\ splitIntoChunks 8 sampleChapters 0 = Ok []
  /\ splitIntoChunks 8 sampleChapters (-1) = Thrown.
Proof.
  split; [eexists; reflexivity|]. split; [|split; reflexivity].
  eexists. split; [vm_compute; reflexivity|]. split; reflexivity.
Qed.

(* ================================================================== *)
(** ** The initial split, chunk by chunk *)

Lemma nth_error_range (lo hi : Z) (n : nat) :
  Z.of_nat n < hi - lo -> nth_error (range lo hi) n = Some (lo + Z.of_nat n).
Proof.
  revert lo. induction n as [|n IH]; intros lo H.
  - rewrite range_cons by lia. simpl. f_equal. lia.
  - rewrite range_cons by lia. simpl. rewrite IH by lia. f_equal. lia.
Qed.

Lemma initialChunkSplit_nth (full : fullText) (chunkCount targetWords i : Z) :
  0 <= i < chunkCount ->
  nth_error (initialChunkSplit full chunkCount targetWords) (Z.to_nat i)
  = Some (initialChunk (splitWords (text full)) chunkCount i).
Proof.
  intros Hi. unfold initialChunkSplit.
  set (W := splitWords (text full)). pose proof (len_nonneg W) as HW.
  rewrite nth_error_map, nth_error_range by lia. simpl option_map.
  rewrite Z2Nat.id by lia.
  unfold initialChunk. cbv zeta. set (q := len W / chunkCount).
  assert (Hq : 0 <= q) by (apply Z.div_pos; lia).
  assert (Hkq : chunkCount * q <= len W) by (apply Z.mul_div_le; lia).
  assert (Hmod : len W = chunkCount * q + len W mod chunkCount)
    by (apply Z.div_mod; lia).
  assert (Hr : 0 <= len W mod chunkCount) by (apply Z.mod_pos_bound; lia).
  destruct (i =? chunkCount - 1) eqn:E.
  - assert (Hlast : q + len W mod chunkCount = len W - i * q) by nia.
    rewrite Hlast.
    assert (H0 : 0 <= i * q <= len W) by nia.
    rewrite slice_inside by lia.
    rewrite len_firstn by (rewrite len_skipn by lia; lia).
    f_equal. f_equal. lia.
  - assert (Hb : (i + 1) * q <= len W) by nia.
    assert (H0 : 0 <= i * q <= (i + 1) * q) by nia.
    rewrite slice_inside by lia.
    replace ((i + 1) * q - i * q) with q by lia.
    rewrite len_firstn by (rewrite len_skipn by lia; lia).
    f_equal. f_equal. lia.
Qed.

(** The initial split cuts the corpus into [chunkCount] consecutive
    slices of [floor(N / chunkCount)] words, numbered from 1; the last
    slice also takes the [N mod chunkCount] words that remain.  A chunk
    count below 1 yields no chunk. *)
Theorem initial_split_is_even (full : fullText) (chunkCount targetWords : Z) :
  (chunkCount <= 0 -> initialChunkSplit full chunkCount targetWords = [])
  /\ (1 <= chunkCount ->
      len (initialChunkSplit full chunkCount targetWords) = chunkCount
      /\ forall i,
           0 <= i < chunkCount ->
           nth_error (initialChunkSplit full chunkCount targetWords) (Z.to_nat i)
           = Some (initialChunk (splitWords (text full)) chunkCount i)).
Proof.
  split.
  - intros Hk. unfold initialChunkSplit. rewrite range_empty by lia. reflexivity.
  - intros Hk. split; [exact (proj1 (initialChunkSplit_spec full chunkCount targetWords Hk))|].
    intros i Hi. apply initialChunkSplit_nth. exact Hi.
Qed.

Lemma initial_split_is_even_witness :
  len (initialChunkSplit (combineContentWithMarkers (fullContentOf sampleChapters)) 2 3) = 2
  /\ forall i,
       0 <= i < 2 ->
       nth_error (initialChunkSplit (combineContentWithMarkers (fullContentOf sampleChapters))
                    2 3) (Z.to_nat i)
       = Some (initialChunk
                 (splitWords (text (combineContentWithMarkers (fullContentOf sampleChapters))))
                 2 i).
Proof.
  apply (proj2 (initial_split_is_even
                  (combineContentWithMarkers (fullContentOf sampleChapters)) 2 3)).
  lia.
Defined.

Lemma existsb_false {A : Type} (f : A -> bool) (l : list A) :
  (forall x, In x l -> f x = false) -> existsb f l = false.
Proof.
  intros H. destruct (existsb f l) eqn:E; [|reflexivity].
  apply existsb_exists in E. destruct E as [x [Hin Hx]]. rewrite (H x Hin) in Hx. discriminate.
Qed.

Lemma filter_all {A : Type} (p : A -> bool) (l : list A) :
  Forall (fun x => p x = true) l -> filter p l = l.
Proof.
  induction 1 as [|x l Hx _ IH]; simpl.
  - reflexivity.
  - rewrite Hx, IH. reflexivity.
Qed.

Lemma initial_split_counts (full : fullText) (chunkCount targetWords : Z) (c : Chunk) :
  1 <= chunkCount ->
  In c (initialChunkSplit full chunkCount targetWords) ->
  wordCount c = len (splitWords (text full)) / chunkCount
  \/ wordCount c = len (splitWords (text full)) / chunkCount
                   + len (splitWords (text full)) mod chunkCount.
Proof.
  intros Hk Hin. apply In_nth_error in Hin. destruct Hin as [n Hn].
  pose proof (proj1 (initialChunkSplit_spec full chunkCount targetWords Hk)) as Hlen.
  assert (Hlt : (n < length (initialChunkSplit full chunkCount targetWords))%nat)
    by (apply nth_error_Some; congruence).
  unfold len in Hlen.
  pose proof (initialChunkSplit_nth full chunkCount targetWords (Z.of_nat n) ltac:(lia))
    as Hnth.
  rewrite Nat2Z.id in Hnth.
  rewrite Hn in Hnth. injection Hnth as ->. unfold initialChunk. cbv zeta. simpl.
  destruct (Z.of_nat n =? chunkCount - 1); [right | left]; reflexivity.
Qed.

(** When every word of the corpus holds a word character and the words
    that remain after the even division fit into the tolerance, the
    initial split is already inside the band: the partition is that split,
    no refinement iteration runs, and no fuel is needed. *)
Theorem even_split_needs_no_refinement (chapters : list Chapter) (chunkCount : Z)
    (fuel : nat) :
  1 <= chunkCount ->
  Forall parserCounted chapters ->
  Forall (fun w => testWordChar w = true) (corpusWords (fullContentOf chapters)) ->
  len (corpusWords (fullContentOf chapters)) mod chunkCount
  <= len (corpusWords (fullContentOf chapters)) / chunkCount / 10 ->
  workingChunks fuel chapters chunkCount
  = Ok (initialChunkSplit (combineContentWithMarkers (fullContentOf chapters)) chunkCount
          (len (corpusWords (fullContentOf chapters)) / chunkCount))
  /\ Forall (fun c =>
               lowerBound chapters chunkCount <= wordCount c
               <= upperBound chapters chunkCount)
       (initialChunkSplit (combineContentWithMarkers (fullContentOf chapters)) chunkCount
          (len (corpusWords (fullContentOf chapters)) / chunkCount)).
Proof.
  intros Hk Hp Hw Hr.
  pose proof (sumWordCounts_corpus chapters Hp) as Hsum.
  rewrite (filter_all _ _ Hw) in Hsum.
  assert (Htw : targetWordsPerChunk chapters chunkCount
                = len (corpusWords (fullContentOf chapters)) / chunkCount)
    by (unfold targetWordsPerChunk; rewrite Hsum; reflexivity).
  unfold workingChunks, refinedChunksOf, lowerBound, upperBound. rewrite Htw.
  unfold corpusWords in *.
  set (full := combineContentWithMarkers (fullContentOf chapters)) in *.
  set (N := len (splitWords (text full))) in *.
  pose proof (len_nonneg (splitWords (text full))) as HN. fold N in HN.
  assert (Hq : 0 <= N / chunkCount) by (apply Z.div_pos; lia).
  assert (Hm : 0 <= N mod chunkCount) by (apply Z.mod_pos_bound; lia).
  assert (Hband : Forall (fun c =>
                    N / chunkCount - toleranceOf (N / chunkCount) <= wordCount c
                    <= N / chunkCount + toleranceOf (N / chunkCount))
                    (initialChunkSplit full chunkCount (N / chunkCount))).
  { apply Forall_forall. intros c Hin.
    assert (Htol : 0 <= toleranceOf (N / chunkCount))
      by (unfold toleranceOf; apply Z.div_pos; lia).
    unfold toleranceOf in *.
    destruct (initial_split_counts full chunkCount (N / chunkCount) c Hk Hin) as [-> | ->];
      fold N; lia. }
  split; [|exact Hband].
  rewrite refineChunksRecursively_eq. simpl (0 >=? 5).
  replace (needsRefinement (initialChunkSplit full chunkCount (N / chunkCount)) chunkCount
             (N / chunkCount - toleranceOf (N / chunkCount))
             (N / chunkCount + toleranceOf (N / chunkCount))) with false; [reflexivity|].
  symmetry. unfold needsRefinement. apply orb_false_iff. split.
  - apply existsb_false. intros c Hin. rewrite Forall_forall in Hband.
    specialize (Hband c Hin). apply orb_false_iff. split; lia.
  - rewrite (proj1 (initialChunkSplit_spec full chunkCount (N / chunkCount) Hk)).
    rewrite Z.eqb_refl. reflexivity.
Qed.

Lemma even_split_needs_no_refinement_witness :
  workingChunks 0 sampleChapters 7
  = Ok (initialChunkSplit (combineContentWithMarkers (fullContentOf sampleChapters)) 7
          (len (corpusWords (fullContentOf sampleChapters)) / 7))
  /\ Forall (fun c =>
               lowerBound sampleChapters 7 <= wordCount c <= upperBound sampleChapters 7)
       (initialChunkSplit (combineContentWithMarkers (fullContentOf sampleChapters)) 7
          (len (corpusWords (fullContentOf sampleChapters)) / 7)).
Proof.
  apply (even_split_needs_no_refinement sampleChapters 7 0).
  - lia.
  - repeat constructor.
  - vm_compute. repeat constructor.
  - vm_compute. discriminate.
Defined.

(* ================================================================== *)
(** ** Which boundary the break-point search returns *)

Lemma range_sorted (hi : Z) (p1 : list Z) :
  forall lo x p2,
    range lo hi = p1 ++ x :: p2 ->
    (forall i, In i p1 -> i < x) /\ (forall i, In i p2 -> x < i).
Proof.
  induction p1 as [|a p1 IH]; intros lo x p2 H.
  - destruct (Z_lt_le_dec lo hi) as [Hlt | Hge];
      [|rewrite range_empty in H by lia; discriminate].
    rewrite range_cons in H by lia. simpl in H. injection H as <- <-.
    split; [intros i [] | intros i Hi; apply in_range in Hi; lia].
  - destruct (Z_lt_le_dec lo hi) as [Hlt | Hge];
      [|rewrite range_empty in H by lia; discriminate].
    rewrite range_cons in H by lia. simpl in H. injection H as <- H.
    destruct (IH _ _ _ H) as [H1 H2]. split; [|exact H2].
    intros i [<- | Hi]; [|apply H1; exact Hi].
    assert (Hx : In x (range (lo + 1) hi)) by (rewrite H; apply in_or_app; right; left; reflexivity).
    apply in_range in Hx. lia.
Qed.

Lemma fold_best_first_max (ws : list jsstring) (t : Z) (candidates : list Z) :
  forall done best,
    snd best = calculateBreakPointScore ws (fst best) ->
    (fst best = t
     /\ forall i, In i done -> calculateBreakPointScore ws i <= calculateBreakPointScore ws t)
    \/ (exists p1 p2,
          done = p1 ++ fst best :: p2
          /\ calculateBreakPointScore ws t < snd best
          /\ (forall i, In i p1 -> calculateBreakPointScore ws i < snd best)
          /\ (forall i, In i p2 -> calculateBreakPointScore ws i <= snd best)) ->
    let r := fold_left
               (fun best i =>
                  let '(bestSplit, bestScore) := best in
                  let score := calculateBreakPointScore ws i in
                  if score >? bestScore then (i, score) else (bestSplit, bestScore))
               candidates best in
    snd r = calculateBreakPointScore ws (fst r)
    /\ ((fst r = t
         /\ forall i, In i (done ++ candidates) ->
                      calculateBreakPointScore ws i <= calculateBreakPointScore ws t)
        \/ (exists p1 p2,
              done ++ candidates = p1 ++ fst r :: p2
              /\ calculateBreakPointScore ws t < snd r
              /\ (forall i, In i p1 -> calculateBreakPointScore ws i < snd r)
              /\ (forall i, In i p2 -> calculateBreakPointScore ws i <= snd r))).
Proof.
  induction candidates as [|c candidates IH]; intros done best Hbest Hstate.
  - simpl. rewrite app_nil_r. split; [exact Hbest | exact Hstate].
  - simpl. destruct best as [b s]. simpl in Hbest, Hstate.
    replace (done ++ c :: candidates) with ((done ++ [c]) ++ candidates)
      by (rewrite <- app_assoc; reflexivity).
    destruct (calculateBreakPointScore ws c >? s) eqn:E.
    + apply IH; [reflexivity|]. simpl. right. exists done, []. split; [reflexivity|].
      destruct Hstate as [[-> Hdone] | [p1 [p2 [-> [Ht [H1 H2]]]]]].
      * subst s. split; [lia|]. split; [|intros i []].
        intros i Hi. specialize (Hdone i Hi). lia.
      * split; [lia|]. split; [|intros i []].
        intros i Hi. apply in_app_or in Hi. destruct Hi as [Hi | [<- | Hi]].
        -- specialize (H1 i Hi). lia.
        -- lia.
        -- specialize (H2 i Hi). lia.
    + apply IH; [exact Hbest|]. simpl.
      destruct Hstate as [[-> Hdone] | [p1 [p2 [-> [Ht [H1 H2]]]]]].
      * left. split; [reflexivity|]. intros i Hi. apply in_app_or in Hi.
        destruct Hi as [Hi | [<- | []]]; [apply Hdone; exact Hi | lia].
      * right. exists p1, (p2 ++ [c]). split; [rewrite <- app_assoc; reflexivity|].
        split; [exact Ht|]. split; [exact H1|].
        intros i Hi. apply in_app_or in Hi.
        destruct Hi as [Hi | [<- | []]]; [apply H2; exact Hi | lia].
Qed.

(** The search returns the desired index unless a boundary of its window
    scores strictly more; it then returns the first boundary of the window
    that reaches the highest score. *)
Theorem split_point_is_the_first_best (ws : list jsstring) (targetSplit : Z) :
  let reach := Z.min 50 (len ws / 10) in
  let lo := Z.max 1 (targetSplit - reach) in
  let hi := Z.min (len ws - 1) (targetSplit + reach) in
  let sp := findOptimalSplitPoint ws targetSplit in
  (sp = targetSplit
   /\ forall i, lo <= i <= hi ->
        calculateBreakPointScore ws i <= calculateBreakPointScore ws targetSplit)
  \/ (lo <= sp <= hi
      /\ calculateBreakPointScore ws targetSplit < calculateBreakPointScore ws sp
      /\ (forall i, lo <= i <= hi ->
            calculateBreakPointScore ws i <= calculateBreakPointScore ws sp)
      /\ (forall i, lo <= i < sp ->
            calculateBreakPointScore ws i < calculateBreakPointScore ws sp)).
Proof.
  intros reach lo hi sp. unfold sp, findOptimalSplitPoint. cbv zeta. fold reach lo hi.
  destruct (fold_best_first_max ws targetSplit (range lo (hi + 1)) []
              (targetSplit, calculateBreakPointScore ws targetSplit) eq_refl)
    as [Hs Hr].
  { left. split; [reflexivity | intros i []]. }
  cbv zeta in Hs, Hr. simpl app in Hr.
  destruct Hr as [[Hfst Hall] | [p1 [p2 [Hsplit [Ht [H1 H2]]]]]].
  - left. split; [exact Hfst|]. intros i Hi. apply Hall. apply in_range. lia.
  - right. rewrite Hs in Ht, H1, H2.
    destruct (range_sorted _ _ _ _ _ Hsplit) as [S1 S2].
    assert (Hin : forall i, lo <= i <= hi -> In i (p1 ++ _ :: p2))
      by (intros i Hi; rewrite <- Hsplit; apply in_range; lia).
    split; [|split; [exact Ht|split]].
    + assert (Hsp : In (fst (fold_left
               (fun best i =>
                  let '(bestSplit, bestScore) := best in
                  if calculateBreakPointScore ws i >? bestScore
                  then (i, calculateBreakPointScore ws i) else (bestSplit, bestScore))
               (range lo (hi + 1)) (targetSplit, calculateBreakPointScore ws targetSplit)))
               (range lo (hi + 1)))
        by (rewrite Hsplit at 2; apply in_or_app; right; left; reflexivity).
      apply in_range in Hsp. lia.
    + intros i Hi. specialize (Hin i Hi). apply in_app_or in Hin.
      destruct Hin as [Hp | [<- | Hp]]; [specialize (H1 i Hp); lia | lia | apply H2; exact Hp].
    + intros i Hi.
      assert (Hi' : lo <= i <= hi).
      { assert (Hsp : In (fst (fold_left
               (fun best i =>
                  let '(bestSplit, bestScore) := best in
                  if calculateBreakPointScore ws i >? bestScore
                  then (i, calculateBreakPointScore ws i) else (bestSplit, bestScore))
               (range lo (hi + 1)) (targetSplit, calculateBreakPointScore ws targetSplit)))
               (range lo (hi + 1)))
          by (rewrite Hsplit at 2; apply in_or_app; right; left; reflexivity).
        apply in_range in Hsp. lia. }
      specialize (Hin i Hi'). apply in_app_or in Hin.
      destruct Hin as [Hp | [Heq | Hp]]; [apply H1; exact Hp | lia | specialize (S2 i Hp); lia].
Qed.

(* ================================================================== *)
(** ** The words of the corpus and the scores they can reach *)

Lemma spaceFree_rev (w : jsstring) : spaceFree w -> spaceFree (rev w).
Proof. unfold spaceFree. intros H. apply Forall_rev. exact H. Qed.

Lemma splitSpacesFrom_spaceFree (s : jsstring) :
  forall acc inSep, spaceFree acc -> Forall spaceFree (splitSpacesFrom s acc inSep).
Proof.
  induction s as [|c s IH]; intros acc inSep Hacc; simpl.
  - constructor; [apply spaceFree_rev; exact Hacc | constructor].
  - destruct (isSpace c) eqn:E.
    + destruct inSep.
      * apply IH. constructor.
      * constructor; [apply spaceFree_rev; exact Hacc | apply IH; constructor].
    + apply IH. constructor; [exact E | exact Hacc].
Qed.

(** The words of a text are non-empty and hold no white space. *)
Lemma splitWords_plain (s : jsstring) : Forall plainWord (splitWords s).
Proof.
  unfold splitWords, splitSpaces.
  pose proof (splitSpacesFrom_spaceFree s [] false (Forall_nil _)) as H.
  induction H as [|w l Hw _ IH]; simpl.
  - constructor.
  - destruct (nonEmpty w) eqn:E; [|exact IH].
    constructor; [|exact IH]. split; [|exact Hw].
    intros ->. discriminate.
Qed.

Lemma spaceFree_no_doubleNewline (w : jsstring) :
  spaceFree w -> includes w doubleNewline = false.
Proof.
  intros H. destruct (includes w doubleNewline) eqn:E; [|reflexivity].
  apply includes_spec in E. destruct E as [p [q ->]].
  unfold spaceFree in H. rewrite Forall_forall in H.
  assert (Hs : isSpace 10%N = false)
    by (apply H; apply in_or_app; right; left; reflexivity).
  discriminate.
Qed.

Lemma nth_spaceFree (ws : list jsstring) (n : nat) :
  Forall spaceFree ws -> spaceFree (nth n ws []).
Proof.
  intros H. destruct (Nat.lt_ge_cases n (length ws)) as [Hlt | Hge].
  - rewrite Forall_forall in H. apply H. apply nth_In. exact Hlt.
  - rewrite nth_overflow by lia. constructor.
Qed.

(** A score lies between 0 and 400; between words without white space the
    paragraph rule cannot apply and the score is at most 320. *)
Lemma score_bounds (ws : list jsstring) (i : Z) :
  0 <= calculateBreakPointScore ws i <= 400
  /\ (Forall spaceFree ws -> calculateBreakPointScore ws i <= 320).
Proof.
  unfold calculateBreakPointScore.
  destruct ((i <=? 0) || (i >=? len ws)); [split; [lia | intros; lia]|].
  cbv zeta.
  set (before := nth (Z.to_nat (i - 1)) ws []). set (after := nth (Z.to_nat i) ws []).
  split.
  - destruct (matchClassAtEnd isSentenceEnd before),
      (includes before doubleNewline || includes after doubleNewline),
      (matchClassAtEnd isPunctuation before), (startsWithCapital after),
      (includes (toLowerCase before) (lit "chapter")
       || includes (toLowerCase after) (lit "chapter")),
      (existsb (fun word => startsWith (toLowerCase after) word) transitionWords); lia.
  - intros H.
    rewrite (spaceFree_no_doubleNewline before (nth_spaceFree ws (Z.to_nat (i - 1)) H)).
    rewrite (spaceFree_no_doubleNewline after (nth_spaceFree ws (Z.to_nat i) H)).
    change (false || false) with false. cbv iota.
    destruct (matchClassAtEnd isSentenceEnd before),
      (matchClassAtEnd isPunctuation before), (startsWithCapital after),
      (includes (toLowerCase before) (lit "chapter")
       || includes (toLowerCase after) (lit "chapter")),
      (existsb (fun word => startsWith (toLowerCase after) word) transitionWords); lia.
Qed.

Lemma flatWords_in (chunks : list Chunk) (c : Chunk) (w : jsstring) :
  In c chunks -> In w (words c) -> In w (flatWords chunks).
Proof.
  intros Hc Hw. unfold flatWords. apply in_concat. exists (words c).
  split; [apply in_map; exact Hc | exact Hw].
Qed.

(** Whatever the fuel, a refinement iteration that returns keeps the
    length at the target and the tiling of the corpus. *)
Lemma performChunkRefinement_result (fuel : nat) (chunks r : list Chunk)
    (targetCount targetWords tolerance : Z) :
  chunks <> [] -> 1 <= targetCount ->
  performChunkRefinement fuel chunks targetCount targetWords tolerance = Ok r ->
  len r = targetCount
  /\ (forall a b, tiles a chunks b -> tiles a r b /\ flatWords r = flatWords chunks).
Proof.
  intros Hne Hk Hr.
  set (big := Nat.max fuel (Z.to_nat (2 * len chunks + targetCount))).
  assert (Hle : (fuel <= big)%nat) by (unfold big; lia).
  pose proof (performChunkRefinement_mono fuel big _ _ _ _ _ Hr Hle) as Hbig.
  destruct (performChunkRefinement_spec big chunks targetCount targetWords tolerance Hne Hk)
    as [r' [Hr' H]]; [unfold big; lia|].
  rewrite Hbig in Hr'. injection Hr' as <-. exact H.
Qed.

Lemma workingSequence_tiles (fuel j : nat) (chapters : list Chapter) (chunkCount : Z)
    (chunks : list Chunk) :
  1 <= chunkCount ->
  workingSequence fuel j chapters chunkCount = Ok chunks ->
  len chunks = chunkCount
  /\ tiles 0 chunks (len (corpusWords (fullContentOf chapters)))
  /\ flatWords chunks = corpusWords (fullContentOf chapters).
Proof.
  intros Hk. unfold workingSequence.
  destruct (initialChunkSplit_spec (combineContentWithMarkers (fullContentOf chapters))
              chunkCount (targetWordsPerChunk chapters chunkCount) Hk) as [Hl [T [F _]]].
  fold (corpusWords (fullContentOf chapters)) in T, F.
  revert Hl T F.
  generalize (initialChunkSplit (combineContentWithMarkers (fullContentOf chapters))
                chunkCount (targetWordsPerChunk chapters chunkCount)).
  revert chunks. induction j as [|j IH]; intros chunks start Hl T F H; simpl in H.
  - injection H as <-. split; [exact Hl|]. split; [exact T | exact F].
  - destruct (performChunkRefinement fuel start chunkCount _ _) as [m| |] eqn:Em;
      simpl in H; try discriminate.
    assert (Hne : start <> []) by (intros ->; unfold len in Hl; simpl in Hl; lia).
    destruct (performChunkRefinement_result _ _ _ _ _ _ Hne Hk Em) as [Hlm Htm].
    destruct (Htm _ _ T) as [T' F'].
    apply (IH chunks m Hlm T'); [congruence | exact H].
Qed.

(** Throughout a partition every chunk holds words of the corpus: they
    are non-empty and free of white space, so the paragraph rule of the
    score never applies to them and no boundary scores more than 320. *)
Theorem partition_words_are_plain (chapters : list Chapter) (chunkCount : Z)
    (fuel j : nat) (chunks : list Chunk) :
  1 <= chunkCount ->
  workingSequence fuel j chapters chunkCount = Ok chunks ->
  forall c,
    In c chunks ->
    Forall plainWord (words c)
    /\ forall i,
         includes (nth (Z.to_nat (i - 1)) (words c) []) doubleNewline = false
         /\ includes (nth (Z.to_nat i) (words c) []) doubleNewline = false
         /\ 0 <= calculateBreakPointScore (words c) i <= 320.
Proof.
  intros Hk Hseq c Hin.
  destruct (workingSequence_tiles fuel j chapters chunkCount chunks Hk Hseq) as [_ [_ F]].
  assert (Hplain : Forall plainWord (words c)).
  { apply Forall_forall. intros w Hw.
    pose proof (flatWords_in chunks c w Hin Hw) as Hf. rewrite F in Hf.
    pose proof (splitWords_plain
                  (text (combineContentWithMarkers (fullContentOf chapters)))) as Hp.
    rewrite Forall_forall in Hp. apply Hp. exact Hf. }
  split; [exact Hplain|].
  assert (Hfree : Forall spaceFree (words c))
    by (eapply Forall_impl; [|exact Hplain]; intros w [_ Hw]; exact Hw).
  intros i.
  split; [apply spaceFree_no_doubleNewline, nth_spaceFree; exact Hfree|].
  split; [apply spaceFree_no_doubleNewline, nth_spaceFree; exact Hfree|].
  destruct (score_bounds (words c) i) as [[H0 _] H320]. split; [exact H0 | exact (H320 Hfree)].
Qed.

Lemma partition_words_are_plain_witness :
  Forall (fun c =>
            Forall plainWord (words c)
            /\ forall i,
                 includes (nth (Z.to_nat (i - 1)) (words c) []) doubleNewline = false
                 /\ includes (nth (Z.to_nat i) (words c) []) doubleNewline = false
                 /\ 0 <= calculateBreakPointScore (words c) i <= 320)
    (valueOr [] (workingSequence 11 1 sampleChapters 2)).
Proof.
  apply Forall_forall.
  apply (partition_words_are_plain sampleChapters 2 11 1).
  - lia.
  - vm_compute. reflexivity.
Defined.

(* ================================================================== *)
(** ** What the closing loops and the renumbering leave alone *)

(** A round of the merge loop on three chunks or more never involves the
    last chunk. *)
Lemma mergeSmallest_keeps_last (cs front : list Chunk) (z : Chunk) :
  (3 <= length cs)%nat -> cs = front ++ [z] ->
  exists front', mergeSmallest cs = Ok (front' ++ [z]).
Proof.
  intros Hlen Hz. assert (H2 : (2 <= length cs)%nat) by lia.
  pose proof (findSmallestIndex_bound cs H2) as Hs.
  unfold mergeSmallest. set (s := findSmallestIndex cs) in *.
  assert (Hkey : forall pre x y post m,
            cs = pre ++ x :: y :: post -> (S (length pre) <= length cs - 2)%nat ->
            exists front', pre ++ m :: post = front' ++ [z]).
  { intros pre x y post m Hcs Hlo.
    assert (Hpost : post <> []).
    { intros ->. rewrite Hcs, length_app in Hlo. simpl in Hlo. lia. }
    destruct (exists_last Hpost) as [post' [z' ->]].
    assert (Hzz : z' = z).
    { rewrite Hz in Hcs.
      replace (pre ++ x :: y :: post' ++ [z']) with ((pre ++ x :: y :: post') ++ [z']) in Hcs
        by (rewrite <- app_assoc; reflexivity).
      apply app_inj_tail in Hcs. destruct Hcs as [_ Hcs]. congruence. }
    subst z'. exists (pre ++ m :: post'). rewrite <- app_assoc. reflexivity. }
  destruct (s =? 0)%nat eqn:E.
  - apply Nat.eqb_eq in E. rewrite E. simpl Nat.min. simpl Nat.max.
    destruct (adjacent_split cs 0) as [pre [x [y [post [Hcs Hpre]]]]]; [lia|].
    destruct pre; [|discriminate]. simpl in Hcs.
    destruct (Hkey [] x y post
                (mkChunk (chunkId (Z.of_nat 1 + 1)) (chunkTitle (Z.of_nat 1 + 1))
                   (words x ++ words y) (wordCount x + wordCount y)
                   (Z.min (startWordIndex x) (startWordIndex y))
                   (Z.max (endWordIndex x) (endWordIndex y))) Hcs)
      as [front' Hf]; [simpl; lia|].
    exists front'. rewrite <- Hf. rewrite Hcs. reflexivity.
  - apply Nat.eqb_neq in E.
    replace (Nat.min s (s - 1)) with (s - 1)%nat by lia.
    replace (Nat.max s (s - 1)) with s by lia.
    destruct (adjacent_split cs (s - 1)) as [pre [x [y [post [Hcs Hpre]]]]]; [lia|].
    assert (Hs' : s = S (length pre)) by lia.
    destruct (Hkey pre x y post
                (mkChunk (chunkId (Z.of_nat (length pre) + 1))
                   (chunkTitle (Z.of_nat (length pre) + 1))
                   (words x ++ words y) (wordCount y + wordCount x)
                   (Z.min (startWordIndex y) (startWordIndex x))
                   (Z.max (endWordIndex y) (endWordIndex x))) Hcs)
      as [front' Hf]; [lia|].
    exists front'. rewrite <- Hf. rewrite <- Hpre. rewrite Hs'. rewrite Hcs.
    rewrite nth_error_middle, nth_error_middle_next, splice_pair. reflexivity.
Qed.

(** With a target of two chunks or more, the closing merge loop never
    merges the last chunk of the sequence: it is the last chunk of the
    result, unchanged, however small it is. *)
Theorem merge_loop_keeps_last_chunk (targetCount : Z) (fuel : nat) :
  2 <= targetCount ->
  forall cs front z r,
    cs = front ++ [z] ->
    mergeLoop fuel targetCount cs = Ok r ->
    exists front', r = front' ++ [z].
Proof.
  intros Hk. induction fuel as [|fuel IH]; intros cs front z r Hz H;
    rewrite mergeLoop_eq in H; destruct (len cs >? targetCount) eqn:E; try discriminate;
    try (injection H as <-; exists front; exact Hz).
  assert (Hlen : (3 <= length cs)%nat) by (unfold len in E; lia).
  destruct (mergeSmallest_keeps_last cs front z Hlen Hz) as [front' Hm].
  rewrite Hm in H. simpl in H. exact (IH _ front' z r eq_refl H).
Qed.

Lemma merge_loop_keeps_last_chunk_witness :
  exists front',
    valueOr [] (mergeLoop 1 2 [tinyChunk; largeChunk; trailingChunk])
    = front' ++ [trailingChunk].
Proof.
  apply (merge_loop_keeps_last_chunk 2 1 ltac:(lia)
           [tinyChunk; largeChunk; trailingChunk] [tinyChunk; largeChunk] trailingChunk).
  - reflexivity.
  - vm_compute. reflexivity.
Defined.

(* ================================================================== *)
(** ** Numbering, fixed points and the text of the final chunks *)

Lemma renumber_ids_from (cs : list Chunk) :
  forall k,
    map id (map (fun p : nat * Chunk =>
                   let '(index, chunk) := p in
                   mkChunk (chunkId (Z.of_nat index + 1)) (chunkTitle (Z.of_nat index + 1))
                     (words chunk) (wordCount chunk) (startWordIndex chunk)
                     (endWordIndex chunk))
              (combine (seq k (length cs)) cs))
    = map (fun i => chunkId (Z.of_nat i + 1)) (seq k (length cs))
    /\ map title (map (fun p : nat * Chunk =>
                   let '(index, chunk) := p in
                   mkChunk (chunkId (Z.of_nat index + 1)) (chunkTitle (Z.of_nat index + 1))
                     (words chunk) (wordCount chunk) (startWordIndex chunk)
                     (endWordIndex chunk))
              (combine (seq k (length cs)) cs))
       = map (fun i => chunkTitle (Z.of_nat i + 1)) (seq k (length cs))
    /\ map chunkData (map (fun p : nat * Chunk =>
                   let '(index, chunk) := p in
                   mkChunk (chunkId (Z.of_nat index + 1)) (chunkTitle (Z.of_nat index + 1))
                     (words chunk) (wordCount chunk) (startWordIndex chunk)
                     (endWordIndex chunk))
              (combine (seq k (length cs)) cs))
       = map chunkData cs.
Proof.
  induction cs as [|c cs IH]; intros k; simpl.
  - repeat split.
  - destruct (IH (S k)) as [H1 [H2 H3]]. rewrite H1, H2, H3. repeat split.
Qed.

Lemma sequential_from_seq (f : Z -> jsstring) (n : nat) :
  map (fun i => f (Z.of_nat i + 1)) (seq 0 n) = map f (range 1 (Z.of_nat n + 1)).
Proof.
  unfold range. rewrite map_map.
  replace (Z.to_nat (Z.of_nat n + 1 - 1)) with n by lia.
  apply map_ext. intros i. f_equal. lia.
Qed.

Lemma renumber_numbers (cs : list Chunk) :
  map id (renumber cs) = sequentialIds (len cs)
  /\ map title (renumber cs) = sequentialTitles (len cs)
  /\ map chunkData (renumber cs) = map chunkData cs.
Proof.
  destruct (renumber_ids_from cs 0) as [H1 [H2 H3]]. unfold renumber, sequentialIds,
    sequentialTitles, len.
  rewrite H1, H2, H3, !sequential_from_seq. repeat split.
Qed.

Lemma map_range_succ (f : Z -> jsstring) (n : Z) :
  map (fun i => f (i + 1)) (range 0 n) = map f (range 1 (n + 1)).
Proof.
  unfold range. rewrite !map_map.
  replace (Z.to_nat (n + 1 - 1)) with (Z.to_nat (n - 0)) by lia.
  apply map_ext. intros i. f_equal. lia.
Qed.

Lemma initialChunkSplit_numbers (full : fullText) (chunkCount targetWords : Z) :
  map id (initialChunkSplit full chunkCount targetWords) = sequentialIds chunkCount
  /\ map title (initialChunkSplit full chunkCount targetWords) = sequentialTitles chunkCount.
Proof.
  unfold initialChunkSplit, sequentialIds, sequentialTitles. rewrite !map_map. simpl.
  split; [exact (map_range_succ chunkId chunkCount) | exact (map_range_succ chunkTitle chunkCount)].
Qed.

Lemma performChunkRefinement_renumbered (fuel : nat) (chunks r : list Chunk)
    (targetCount targetWords tolerance : Z) :
  performChunkRefinement fuel chunks targetCount targetWords tolerance = Ok r ->
  exists s, r = renumber s.
Proof.
  unfold performChunkRefinement. intros H.
  destruct (mergeLoop fuel targetCount _) as [m| |]; simpl in H; try discriminate.
  destruct (splitLoop fuel targetCount m) as [s| |]; simpl in H; try discriminate.
  injection H as <-. exists s. reflexivity.
Qed.

Lemma refineChunksRecursively_origin (targetCount targetWords tolerance maxIterations : Z)
    (fuel : nat) :
  forall chunks iteration r,
    refineChunksRecursively fuel chunks targetCount targetWords tolerance iteration
      maxIterations = Ok r ->
    r = chunks \/ exists s, r = renumber s.
Proof.
  induction fuel as [|fuel IH]; intros chunks iteration r H;
    rewrite refineChunksRecursively_eq in H;
    destruct (iteration >=? maxIterations); try (injection H as <-; left; reflexivity);
    destruct (negb (needsRefinement chunks targetCount (targetWords - tolerance)
                      (targetWords + tolerance)));
    try (injection H as <-; left; reflexivity); try discriminate.
  destruct (performChunkRefinement (S fuel) chunks targetCount targetWords tolerance)
    as [m| |] eqn:Em; simpl in H; try discriminate.
  right. destruct (IH m _ r H) as [-> | Hs]; [|exact Hs].
  exact (performChunkRefinement_renumbered _ _ _ _ _ _ Em).
Qed.

(** The chunks a partition returns are numbered in order: their
    identifiers are [chunk-1] to [chunk-k] and their titles [Chunk 1] to
    [Chunk k], whether or not a refinement iteration ran. *)
Theorem final_chunks_are_numbered (chapters : list Chapter) (chunkCount : Z)
    (fuel : nat) (out : list FinalChunk) :
  1 <= chunkCount ->
  splitIntoChunks fuel chapters chunkCount = Ok out ->
  map f_id out = sequentialIds chunkCount
  /\ map f_title out = sequentialTitles chunkCount.
Proof.
  intros Hk H. rewrite splitIntoChunks_working in H. unfold workingChunks in H.
  destruct (refinedChunksOf fuel _ _ _ _) as [r| |] eqn:E; simpl in H; try discriminate.
  injection H as <-.
  destruct (refinedChunksOf_result _ _ _ _ _ _ Hk E) as [Hl _].
  unfold formatFinalChunks. rewrite !map_map. simpl.
  change (map (fun x : Chunk => id x) r) with (map id r).
  change (map (fun x : Chunk => title x) r) with (map title r).
  unfold refinedChunksOf in E.
  destruct (refineChunksRecursively_origin _ _ _ _ _ _ _ _ E) as [-> | [s ->]].
  - apply initialChunkSplit_numbers.
  - destruct (renumber_numbers s) as [H1 [H2 _]].
    destruct (renumber_spec s) as [Hlen _].
    assert (Hls : len s = chunkCount) by (unfold len in *; lia).
    rewrite H1, H2, Hls. split; reflexivity.
Qed.

Lemma final_chunks_are_numbered_witness :
  map f_id (valueOr [] (splitIntoChunks 11 sampleChapters 2)) = sequentialIds 2
  /\ map f_title (valueOr [] (splitIntoChunks 11 sampleChapters 2)) = sequentialTitles 2.
Proof.
  apply (final_chunks_are_numbered sampleChapters 2 11).
  - lia.
  - vm_compute. reflexivity.
Defined.

Lemma refineScan_in_band (minWords maxWords : Z) (chunks : list Chunk) :
  Forall (fun c => minWords <= wordCount c <= maxWords) chunks ->
  forall acc, refineScan chunks minWords maxWords acc = acc ++ chunks.
Proof.
  induction 1 as [|c rest Hc _ IH]; intros acc.
  - simpl. rewrite app_nil_r. reflexivity.
  - rewrite refineScan_cons.
    replace (wordCount c >? maxWords) with false by lia.
    replace (wordCount c <? minWords) with false by lia.
    destruct rest; rewrite IH, <- app_assoc; reflexivity.
Qed.

(** A sequence of the target length whose chunks are all inside the band
    is a fixed point of the refinement: the recursion returns it as it is,
    and one iteration applied to it changes nothing but the numbering.
    Neither needs fuel. *)
Theorem in_band_sequence_is_kept (chunks : list Chunk)
    (targetCount targetWords tolerance : Z) (fuel : nat) :
  len chunks = targetCount ->
  Forall (fun c => targetWords - tolerance <= wordCount c <= targetWords + tolerance)
    chunks ->
  (forall iteration maxIterations,
     refineChunksRecursively fuel chunks targetCount targetWords tolerance iteration
       maxIterations = Ok chunks)
  /\ performChunkRefinement fuel chunks targetCount targetWords tolerance
     = Ok (renumber chunks)
  /\ map chunkData (renumber chunks) = map chunkData chunks.
Proof.
  intros Hlen Hband. split; [|split].
  - intros iteration maxIterations. rewrite refineChunksRecursively_eq.
    destruct (iteration >=? maxIterations); [reflexivity|].
    replace (needsRefinement chunks targetCount (targetWords - tolerance)
               (targetWords + tolerance)) with false; [reflexivity|].
    symmetry. unfold needsRefinement. apply orb_false_iff. split.
    + apply existsb_false. intros c Hin. rewrite Forall_forall in Hband.
      specialize (Hband c Hin). apply orb_false_iff. split; lia.
    + rewrite Hlen, Z.eqb_refl. reflexivity.
  - unfold performChunkRefinement.
    rewrite (refineScan_in_band _ _ chunks Hband []). simpl app.
    rewrite mergeLoop_eq. replace (len chunks >? targetCount) with false by lia. simpl.
    rewrite splitLoop_eq. replace (len chunks <? targetCount) with false by lia. reflexivity.
  - exact (proj2 (proj2 (renumber_numbers chunks))).
Qed.

Lemma in_band_sequence_is_kept_witness :
  (forall iteration maxIterations,
     refineChunksRecursively 0 [tinyChunk; largeChunk] 2 7 6 iteration maxIterations
     = Ok [tinyChunk; largeChunk])
  /\ performChunkRefinement 0 [tinyChunk; largeChunk] 2 7 6
     = Ok (renumber [tinyChunk; largeChunk])
  /\ map chunkData (renumber [tinyChunk; largeChunk]) = map chunkData [tinyChunk; largeChunk].
Proof.
  apply (in_band_sequence_is_kept [tinyChunk; largeChunk] 2 7 6 0).
  - reflexivity.
  - repeat constructor; simpl; lia.
Defined.

Lemma splitSpacesFrom_plain (w : jsstring) :
  spaceFree w -> forall acc, splitSpacesFrom w acc false = [rev acc ++ w].
Proof.
  induction 1 as [|c w Hc _ IH]; intros acc; simpl.
  - rewrite app_nil_r. reflexivity.
  - rewrite Hc, IH. simpl. rewrite <- app_assoc. reflexivity.
Qed.

Lemma splitWords_plainWord (w : jsstring) : plainWord w -> splitWords w = [w].
Proof.
  intros [Hne Hfree]. unfold splitWords, splitSpaces.
  rewrite (splitSpacesFrom_plain w Hfree []). simpl.
  destruct w; [congruence | reflexivity].
Qed.

(** Joining plain words with single spaces and splitting the text again
    gives the words back. *)
Lemma splitWords_join (ws : list jsstring) :
  Forall plainWord ws -> splitWords (join (lit " ") ws) = ws.
Proof.
  induction 1 as [|w ws Hw Hws IH].
  - reflexivity.
  - destruct ws as [|w' ws].
    + simpl. apply splitWords_plainWord. exact Hw.
    + change (join (lit " ") (w :: w' :: ws))
        with (w ++ 32%N :: join (lit " ") (w' :: ws)).
      rewrite (splitWords_app w _ 32%N eq_refl), IH, (splitWords_plainWord w Hw).
      reflexivity.
Qed.

(** The text of every chunk a partition returns splits back into the
    words of the chunk: it holds exactly [wordCount] words, and the texts
    of the chunks, read in order, hold the corpus word for word. *)
Theorem final_text_splits_back (chapters : list Chapter) (chunkCount : Z)
    (fuel : nat) (out : list FinalChunk) :
  1 <= chunkCount ->
  splitIntoChunks fuel chapters chunkCount = Ok out ->
  Forall (fun c => countWords (f_textContent c) = f_wordCount c) out
  /\ concat (map (fun c => splitWords (f_textContent c)) out)
     = corpusWords (fullContentOf chapters).
Proof.
  intros Hk H. rewrite splitIntoChunks_working in H. unfold workingChunks in H.
  destruct (refinedChunksOf fuel _ _ _ _) as [r| |] eqn:E; simpl in H; try discriminate.
  injection H as <-.
  destruct (refinedChunksOf_result _ _ _ _ _ _ Hk E) as [_ [T F]].
  pose proof (tiles_wellFormed _ _ _ T) as Hw.
  assert (Hplain : Forall (fun c => Forall plainWord (words c)) r).
  { apply Forall_forall. intros c Hin. apply Forall_forall. intros w Hwin.
    pose proof (flatWords_in r c w Hin Hwin) as Hf. rewrite F in Hf.
    pose proof (splitWords_plain
                  (text (combineContentWithMarkers (fullContentOf chapters)))) as Hp.
    rewrite Forall_forall in Hp. apply Hp. exact Hf. }
  unfold formatFinalChunks. split.
  - apply Forall_map. rewrite Forall_forall in *. intros c Hin. simpl.
    rewrite app_countWords_spec, splitWords_join by exact (Hplain c Hin).
    symmetry. exact (proj1 (Hw c Hin)).
  - rewrite map_map. simpl. rewrite <- F. unfold flatWords. f_equal.
    apply map_ext_in. intros c Hin. rewrite Forall_forall in Hplain.
    apply splitWords_join. apply Hplain. exact Hin.
Qed.

Lemma final_text_splits_back_witness :
  Forall (fun c => countWords (f_textContent c) = f_wordCount c)
    (valueOr [] (splitIntoChunks 11 sampleChapters 2))
  /\ concat (map (fun c => splitWords (f_textContent c))
               (valueOr [] (splitIntoChunks 11 sampleChapters 2)))
     = corpusWords (fullContentOf sampleChapters).
Proof.
  apply (final_text_splits_back sampleChapters 2 11).
  - lia.
  - vm_compute. reflexivity.
Defined.

(* ================================================================== *)
(** ** Chapter markers and the chapter of a word *)

Lemma countWords_nonneg (text : jsstring) : 0 <= countWords text.
Proof. rewrite app_countWords_spec. apply len_nonneg. Qed.

Lemma wordsOf_nonneg (pre : list Content) : 0 <= wordsOf pre.
Proof.
  unfold wordsOf. induction pre as [|c pre IH]; simpl; [lia|].
  pose proof (countWords_nonneg (c_textContent c)). lia.
Qed.

Lemma wordsOf_cons (c : Content) (pre : list Content) :
  wordsOf (c :: pre) = countWords (c_textContent c) + wordsOf pre.
Proof. reflexivity. Qed.

Lemma wordsOf_app (pre post : list Content) : wordsOf (pre ++ post) = wordsOf pre + wordsOf post.
Proof.
  induction pre as [|c pre IH]; [reflexivity|].
  rewrite <- app_comm_cons, !wordsOf_cons, IH. lia.
Qed.

Lemma wordsOf_len (pre : list Content) :
  wordsOf pre = len (concat (map (fun c => splitWords (c_textContent c)) pre)).
Proof.
  induction pre as [|c pre IH]; [reflexivity|].
  rewrite wordsOf_cons, IH. simpl. rewrite len_app, app_countWords_spec. reflexivity.
Qed.

Lemma wordsOf_corpus (contents : list Content) : wordsOf contents = len (corpusWords contents).
Proof. rewrite corpusWords_concat. apply wordsOf_len. Qed.

Lemma combine_snoc (contents : list Content) (c : Content) :
  combineContentWithMarkers (contents ++ [c])
  = let acc := combineContentWithMarkers contents in
    mkFullText
      (text acc ++ c_textContent c ++ doubleNewline)
      (html acc ++ c_htmlContent c ++ doubleNewline)
      (totalWords acc + countWords (c_textContent c))
      (chapterMarkers acc ++
         [mkMarker (c_title c) (totalWords acc)
            (totalWords acc + countWords (c_textContent c))
            (c_textContent c) (c_htmlContent c)]).
Proof. unfold combineContentWithMarkers. rewrite fold_left_app. reflexivity. Qed.

Lemma markersTile_app (a b c : Z) (ms ms' : list marker) :
  markersTile a ms b -> markersTile b ms' c -> markersTile a (ms ++ ms') c.
Proof.
  revert a. induction ms as [|m ms IH]; intros a; simpl.
  - intros ->. trivial.
  - intros [H1 [H2 H3]] H. split; [exact H1|]. split; [exact H2|]. exact (IH _ H3 H).
Qed.

Lemma markersTile_bounds (a b : Z) (ms : list marker) :
  markersTile a ms b ->
  a <= b /\ Forall (fun m => a <= startPosition m /\ startPosition m <= endPosition m
                             /\ endPosition m <= b) ms.
Proof.
  revert a. induction ms as [|m ms IH]; intros a; simpl.
  - intros ->. split; [lia | constructor].
  - intros [H1 [H2 H3]]. destruct (IH _ H3) as [Hle Hall].
    pose proof (countWords_nonneg (m_textContent m)) as Hc.
    split; [lia|]. constructor; [lia|].
    eapply Forall_impl; [|exact Hall]. simpl. intros m' H. lia.
Qed.

Lemma slice_app_left {A : Type} (l r : list A) (a b : Z) :
  0 <= a <= b -> b <= len l -> slice (l ++ r) a b = slice l a b.
Proof.
  intros Hab Hb. rewrite !slice_inside by (try rewrite len_app; pose proof (len_nonneg r); lia).
  unfold len in Hb. rewrite skipn_app, firstn_app.
  replace (Z.to_nat (b - a) - length (skipn (Z.to_nat a) l))%nat with 0%nat
    by (rewrite length_skipn; lia).
  replace (Z.to_nat a - length l)%nat with 0%nat by lia.
  simpl. rewrite app_nil_r. reflexivity.
Qed.

Lemma slice_app_right {A : Type} (l r : list A) :
  slice (l ++ r) (len l) (len l + len r) = r.
Proof.
  pose proof (len_nonneg l). pose proof (len_nonneg r).
  rewrite slice_inside by (try rewrite len_app; lia).
  unfold len. rewrite Nat2Z.id, skipn_app, skipn_all, Nat.sub_diag. simpl.
  apply firstn_all2. lia.
Qed.

(** The markers of the combined content follow the corpus: there is one
    marker for each chapter, in order, holding its title and contents; the
    markers follow each other from 0 to [totalWords], which is the number
    of words of the combined text; and between the positions of a marker
    the corpus holds exactly the words of that chapter. *)
Theorem markers_follow_the_corpus (contents : list Content) :
  let full := combineContentWithMarkers contents in
  totalWords full = len (splitWords (text full))
  /\ map (fun m => mkContent (m_title m) (m_textContent m) (m_htmlContent m))
       (chapterMarkers full)
     = contents
  /\ markersTile 0 (chapterMarkers full) (totalWords full)
  /\ Forall (fun m => slice (splitWords (text full)) (startPosition m) (endPosition m)
                      = splitWords (m_textContent m))
       (chapterMarkers full).
Proof.
  cbv zeta. fold (corpusWords contents).
  induction contents as [|c contents IH] using rev_ind.
  - repeat split. constructor.
  - destruct IH as [Ht [Hm [Htile Hs]]].
    rewrite !corpusWords_concat in *. rewrite combine_snoc. cbv zeta.
    cbn [totalWords chapterMarkers].
    rewrite map_app, concat_app. simpl concat. rewrite app_nil_r.
    set (W := concat (map (fun c0 => splitWords (c_textContent c0)) contents)) in *.
    split; [|split; [|split]].
    + rewrite len_app, app_countWords_spec, Ht. reflexivity.
    + rewrite map_app, Hm. simpl. destruct c; reflexivity.
    + apply (markersTile_app 0 (totalWords (combineContentWithMarkers contents)));
        [exact Htile|]. simpl. repeat split.
    + apply Forall_app. split.
      * destruct (markersTile_bounds _ _ _ Htile) as [_ Hb].
        rewrite Forall_forall in *. intros m Hin. specialize (Hb m Hin).
        rewrite slice_app_left by lia. exact (Hs m Hin).
      * constructor; [|constructor]. cbn [startPosition endPosition m_textContent].
        rewrite Ht, app_countWords_spec. apply slice_app_right.
Qed.

Lemma findChapterFrom_in_range (fallback : option Content) (contents : list Content) :
  forall currentPosition wordPosition,
    currentPosition <= wordPosition < currentPosition + wordsOf contents ->
    exists pre c post,
      contents = pre ++ c :: post
      /\ findChapterFrom wordPosition currentPosition contents fallback = Some c
      /\ currentPosition + wordsOf pre <= wordPosition
         < currentPosition + wordsOf pre + countWords (c_textContent c).
Proof.
  induction contents as [|c contents IH]; intros cur p H.
  - unfold wordsOf in H. simpl in H. lia.
  - rewrite wordsOf_cons in H. simpl.
    destruct (p <? cur + countWords (c_textContent c)) eqn:E.
    + replace (p >=? cur) with true by lia. simpl.
      exists [], c, contents. unfold wordsOf. simpl. repeat split; lia.
    + rewrite andb_false_r.
      destruct (IH (cur + countWords (c_textContent c)) p ltac:(lia))
        as [pre [d [post [-> [Hf Hr]]]]].
      exists (c :: pre), d, post. rewrite wordsOf_cons. repeat split; [exact Hf | lia | lia].
Qed.

Lemma findChapterFrom_outside (fallback : option Content) (contents : list Content) :
  forall currentPosition wordPosition,
    wordPosition < currentPosition \/ currentPosition + wordsOf contents <= wordPosition ->
    findChapterFrom wordPosition currentPosition contents fallback = fallback.
Proof.
  induction contents as [|c contents IH]; intros cur p H; [reflexivity|].
  rewrite wordsOf_cons in H. simpl.
  pose proof (countWords_nonneg (c_textContent c)) as Hc.
  pose proof (wordsOf_nonneg contents) as Hw.
  replace ((p >=? cur) && (p <? cur + countWords (c_textContent c))) with false
    by (symmetry; apply andb_false_iff; lia).
  apply IH. lia.
Qed.

Lemma findChapterAtPosition_in_range (contents : list Content) (wordPosition : Z) :
  0 <= wordPosition < len (corpusWords contents) ->
  exists pre c post,
    contents = pre ++ c :: post
    /\ findChapterAtPosition wordPosition contents = Some c
    /\ wordsOf pre <= wordPosition < wordsOf pre + countWords (c_textContent c)
    /\ 0 < countWords (c_textContent c)
    /\ nth_error (corpusWords contents) (Z.to_nat wordPosition)
       = nth_error (splitWords (c_textContent c)) (Z.to_nat (wordPosition - wordsOf pre)).
Proof.
  intros H. rewrite <- wordsOf_corpus in H.
  destruct (findChapterFrom_in_range (last (map Some contents) None) contents 0 wordPosition
              ltac:(lia)) as [pre [c [post [Hc [Hf Hr]]]]].
  exists pre, c, post. pose proof (wordsOf_nonneg pre) as Hp.
  split; [exact Hc|]. split; [exact Hf|]. split; [lia|]. split; [lia|].
  rewrite corpusWords_concat, Hc, map_app, concat_app. simpl.
  rewrite wordsOf_len in *. unfold len in *.
  rewrite nth_error_app2 by lia.
  rewrite app_countWords_spec in Hr. unfold len in Hr.
  rewrite nth_error_app1 by lia. f_equal. lia.
Qed.

(** For a position inside the corpus, [findChapterAtPosition] returns the
    chapter the word at that position comes from: the chapter whose words
    start at or before the position and end after it, where the corpus
    holds, at that position, the word of the chapter at the offset.  A
    chapter without words is never returned. *)
Theorem chapter_at_position_holds_the_word (contents : list Content) (wordPosition : Z) :
  0 <= wordPosition < len (corpusWords contents) ->
  exists pre c post,
    contents = pre ++ c :: post
    /\ findChapterAtPosition wordPosition contents = Some c
    /\ wordsOf pre <= wordPosition < wordsOf pre + countWords (c_textContent c)
    /\ 0 < countWords (c_textContent c)
    /\ nth_error (corpusWords contents) (Z.to_nat wordPosition)
       = nth_error (splitWords (c_textContent c)) (Z.to_nat (wordPosition - wordsOf pre)).
Proof. exact (findChapterAtPosition_in_range contents wordPosition). Qed.

Lemma chapter_at_position_holds_the_word_witness :
  exists pre c post,
    fullContentOf sampleChapters = pre ++ c :: post
    /\ findChapterAtPosition 5 (fullContentOf sampleChapters) = Some c
    /\ wordsOf pre <= 5 < wordsOf pre + countWords (c_textContent c)
    /\ 0 < countWords (c_textContent c)
    /\ nth_error (corpusWords (fullContentOf sampleChapters)) (Z.to_nat 5)
       = nth_error (splitWords (c_textContent c)) (Z.to_nat (5 - wordsOf pre)).
Proof.
  apply (chapter_at_position_holds_the_word (fullContentOf sampleChapters) 5).
  vm_compute. split; [discriminate | reflexivity].
Defined.

(** For a position outside the corpus (negative, or at or past its end),
    [findChapterAtPosition] returns the last chapter of the content, and
    nothing when there is no chapter.  The end chapter of a chunk without
    words, looked up one word before its start, is found this way when the
    chunk starts at 0. *)
Theorem chapter_at_position_falls_back (contents : list Content) (wordPosition : Z) :
  wordPosition < 0 \/ len (corpusWords contents) <= wordPosition ->
  findChapterAtPosition wordPosition contents = last (map Some contents) None
  /\ (contents = [] -> findChapterAtPosition wordPosition contents = None)
  /\ (forall front c, contents = front ++ [c] ->
      findChapterAtPosition wordPosition contents = Some c).
Proof.
  intros H. rewrite <- wordsOf_corpus in H.
  assert (Hf : findChapterAtPosition wordPosition contents = last (map Some contents) None)
    by (apply findChapterFrom_outside; lia).
  split; [exact Hf|]. split.
  - intros ->. reflexivity.
  - intros front c ->. rewrite Hf, map_app. simpl. apply last_last.
Qed.

Lemma chapter_at_position_falls_back_witness :
  findChapterAtPosition (-1) (fullContentOf sampleChapters)
  = last (map Some (fullContentOf sampleChapters)) None
  /\ (fullContentOf sampleChapters = [] ->
      findChapterAtPosition (-1) (fullContentOf sampleChapters) = None)
  /\ (forall front c, fullContentOf sampleChapters = front ++ [c] ->
      findChapterAtPosition (-1) (fullContentOf sampleChapters) = Some c).
Proof.
  apply (chapter_at_position_falls_back (fullContentOf sampleChapters) (-1)).
  left. lia.
Defined.

(* ================================================================== *)
(** ** Chunks as slices of the corpus, and the chapters of their ends *)

Lemma tiles_slice (cs : list Chunk) :
  forall (a b : Z) (before : list jsstring),
    tiles a cs b -> len before = a ->
    forall c, In c cs ->
      a <= startWordIndex c /\ startWordIndex c <= endWordIndex c /\ endWordIndex c <= b
      /\ words c = slice (before ++ flatWords cs) (startWordIndex c) (endWordIndex c).
Proof.
  induction cs as [|c0 cs IH]; intros a b before T Hb c Hin; [destruct Hin|].
  simpl in T. destruct T as [Hs [[Hw He] T]].
  change (flatWords (c0 :: cs)) with (words c0 ++ flatWords cs).
  pose proof (len_nonneg (words c0)) as H0. pose proof (len_nonneg before) as H1.
  pose proof (tiles_span _ _ _ T) as Hspan. pose proof (len_nonneg (flatWords cs)) as H2.
  destruct Hin as [<- | Hin].
  - split; [lia|]. split; [lia|]. split; [lia|].
    rewrite app_assoc, slice_app_left by (try rewrite len_app; lia).
    rewrite He, Hw, Hs, <- Hb. symmetry. apply slice_app_right.
  - destruct (IH (endWordIndex c0) b (before ++ words c0) T
                ltac:(rewrite len_app; lia) c Hin) as [Ha [Hle [Hbb Hsl]]].
    split; [lia|]. split; [lia|]. split; [lia|].
    rewrite app_assoc. exact Hsl.
Qed.

Lemma slice_nth_error {A : Type} (l : list A) (a b i : Z) :
  0 <= a <= b -> b <= len l -> 0 <= i < b - a ->
  nth_error (slice l a b) (Z.to_nat i) = nth_error l (Z.to_nat (a + i)).
Proof.
  intros Hab Hb Hi. rewrite slice_inside by lia.
  rewrite nth_error_firstn, nth_error_skipn.
  replace (Z.to_nat i <? Z.to_nat (b - a))%nat with true by (symmetry; apply Nat.ltb_lt; lia).
  f_equal. lia.
Qed.

(** Every chunk of every working sequence of a partition is the slice of
    the corpus its range names: [words] holds the corpus words from
    [startWordIndex] up to [endWordIndex], and the range lies inside the
    corpus. *)
Theorem chunk_words_are_the_corpus_slice (chapters : list Chapter) (chunkCount : Z)
    (fuel j : nat) (chunks : list Chunk) :
  1 <= chunkCount ->
  workingSequence fuel j chapters chunkCount = Ok chunks ->
  forall c,
    In c chunks ->
    0 <= startWordIndex c /\ startWordIndex c <= endWordIndex c
    /\ endWordIndex c <= len (corpusWords (fullContentOf chapters))
    /\ words c = slice (corpusWords (fullContentOf chapters))
                   (startWordIndex c) (endWordIndex c).
Proof.
  intros Hk Hseq c Hin.
  destruct (workingSequence_tiles fuel j chapters chunkCount chunks Hk Hseq) as [_ [T F]].
  destruct (tiles_slice chunks 0 _ [] T eq_refl c Hin) as [H1 [H2 [H3 H4]]].
  simpl in H4. rewrite F in H4. repeat split; assumption.
Qed.

Lemma chunk_words_are_the_corpus_slice_witness :
  Forall (fun c =>
            0 <= startWordIndex c /\ startWordIndex c <= endWordIndex c
            /\ endWordIndex c <= len (corpusWords (fullContentOf sampleChapters))
            /\ words c = slice (corpusWords (fullContentOf sampleChapters))
                           (startWordIndex c) (endWordIndex c))
    (valueOr [] (workingSequence 11 1 sampleChapters 2)).
Proof.
  apply Forall_forall.
  apply (chunk_words_are_the_corpus_slice sampleChapters 2 11 1).
  - lia.
  - vm_compute. reflexivity.
Defined.

(** The chapters a final chunk names are those of its ends.  For a chunk
    with words, [startChapter] is the title of the chapter whose words
    begin at or before the chunk's first position and end after it, and
    the first word of the chunk is the word of that chapter at the offset
    of the position; [endChapter] names, in the same way, the chapter that
    holds the position of the chunk's last word.  The chapters are given by
    their place in the content, so that chapters with equal words or
    equal titles are told apart. *)
Theorem chunk_chapters_are_those_of_its_ends (chapters : list Chapter) (chunkCount : Z)
    (fuel : nat) (working : list Chunk) (out : list FinalChunk) :
  1 <= chunkCount ->
  workingChunks fuel chapters chunkCount = Ok working ->
  splitIntoChunks fuel chapters chunkCount = Ok out ->
  forall i c,
    nth_error working i = Some c ->
    0 < wordCount c ->
    exists f before first after before' final after' firstWord lastWord,
      nth_error out i = Some f
      /\ fullContentOf chapters = before ++ first :: after
      /\ fullContentOf chapters = before' ++ final :: after'
      /\ startChapter f = titleOrUnknown (Some first)
      /\ endChapter f = titleOrUnknown (Some final)
      /\ wordsOf before <= startWordIndex c
         < wordsOf before + countWords (c_textContent first)
      /\ wordsOf before' <= endWordIndex c - 1
         < wordsOf before' + countWords (c_textContent final)
      /\ nth_error (words c) 0 = Some firstWord
      /\ nth_error (corpusWords (fullContentOf chapters)) (Z.to_nat (startWordIndex c))
         = Some firstWord
      /\ nth_error (splitWords (c_textContent first))
           (Z.to_nat (startWordIndex c - wordsOf before))
         = Some firstWord
      /\ nth_error (words c) (Z.to_nat (wordCount c - 1)) = Some lastWord
      /\ nth_error (corpusWords (fullContentOf chapters)) (Z.to_nat (endWordIndex c - 1))
         = Some lastWord
      /\ nth_error (splitWords (c_textContent final))
           (Z.to_nat (endWordIndex c - 1 - wordsOf before'))
         = Some lastWord.
Proof.
  intros Hk Hw Hout i c Hi Hpos.
  rewrite splitIntoChunks_working, Hw in Hout. simpl in Hout. injection Hout as <-.
  unfold workingChunks in Hw.
  destruct (refinedChunksOf_result _ _ _ _ _ _ Hk Hw) as [_ [T F]].
  set (contents := fullContentOf chapters) in *.
  pose proof (nth_error_In _ _ Hi) as Hin.
  destruct (tiles_slice working 0 _ [] T eq_refl c Hin) as [H1 [H2 [H3 H4]]].
  simpl in H4. rewrite F in H4.
  pose proof (tiles_wellFormed _ _ _ T) as Hwf. rewrite Forall_forall in Hwf.
  destruct (Hwf c Hin) as [Hlen Hend].
  destruct (findChapterAtPosition_in_range contents (startWordIndex c) ltac:(lia))
    as [pre1 [c1 [post1 [Hc1 [Hf1 [Hr1 [_ Hn1]]]]]]].
  destruct (findChapterAtPosition_in_range contents (endWordIndex c - 1) ltac:(lia))
    as [pre2 [c2 [post2 [Hc2 [Hf2 [Hr2 [_ Hn2]]]]]]].
  assert (Hfirst : nth_error (words c) 0
                   = nth_error (corpusWords contents) (Z.to_nat (startWordIndex c))).
  { rewrite H4 at 1. rewrite (slice_nth_error _ _ _ 0) by lia. f_equal. lia. }
  assert (Hlast : nth_error (words c) (Z.to_nat (wordCount c - 1))
                  = nth_error (corpusWords contents) (Z.to_nat (endWordIndex c - 1))).
  { rewrite H4 at 1. rewrite slice_nth_error by lia. f_equal. lia. }
  pose proof Hr1 as Hr1'. pose proof Hr2 as Hr2'.
  rewrite app_countWords_spec in Hr1', Hr2'. unfold len in Hr1', Hr2'.
  destruct (nth_error (splitWords (c_textContent c1))
              (Z.to_nat (startWordIndex c - wordsOf pre1))) as [w1|] eqn:E1;
    [|apply nth_error_None in E1; lia].
  destruct (nth_error (splitWords (c_textContent c2))
              (Z.to_nat (endWordIndex c - 1 - wordsOf pre2))) as [w2|] eqn:E2;
    [|apply nth_error_None in E2; lia].
  eexists _, pre1, c1, post1, pre2, c2, post2, w1, w2.
  split; [unfold formatFinalChunks; rewrite nth_error_map, Hi; reflexivity|].
  split; [exact Hc1|]. split; [exact Hc2|].
  cbn [startChapter endChapter]. rewrite Hf1, Hf2.
  split; [reflexivity|]. split; [reflexivity|].
  split; [exact Hr1|]. split; [exact Hr2|].
  split; [rewrite Hfirst; exact Hn1|]. split; [exact Hn1|]. split; [exact E1|].
  split; [rewrite Hlast; exact Hn2|]. split; [exact Hn2 | exact E2].
Qed.

Lemma chunk_chapters_are_those_of_its_ends_witness :
  exists f before first after before' final after' firstWord lastWord,
    nth_error (valueOr [] (splitIntoChunks 11 sampleChapters 2)) 1 = Some f
    /\ fullContentOf sampleChapters = before ++ first :: after
    /\ fullContentOf sampleChapters = before' ++ final :: after'
    /\ startChapter f = titleOrUnknown (Some first)
    /\ endChapter f = titleOrUnknown (Some final)
    /\ wordsOf before
       <= startWordIndex (nth 1 (valueOr [] (workingChunks 11 sampleChapters 2)) tinyChunk)
       < wordsOf before + countWords (c_textContent first)
    /\ wordsOf before'
       <= endWordIndex (nth 1 (valueOr [] (workingChunks 11 sampleChapters 2)) tinyChunk) - 1
       < wordsOf before' + countWords (c_textContent final)
    /\ nth_error (words (nth 1 (valueOr [] (workingChunks 11 sampleChapters 2)) tinyChunk)) 0
       = Some firstWord
    /\ nth_error (corpusWords (fullContentOf sampleChapters))
         (Z.to_nat
            (startWordIndex (nth 1 (valueOr [] (workingChunks 11 sampleChapters 2)) tinyChunk)))
       = Some firstWord
    /\ nth_error (splitWords (c_textContent first))
         (Z.to_nat
            (startWordIndex (nth 1 (valueOr [] (workingChunks 11 sampleChapters 2)) tinyChunk)
             - wordsOf before))
       = Some firstWord
    /\ nth_error (words (nth 1 (valueOr [] (workingChunks 11 sampleChapters 2)) tinyChunk))
         (Z.to_nat
            (wordCount (nth 1 (valueOr [] (workingChunks 11 sampleChapters 2)) tinyChunk) - 1))
       = Some lastWord
    /\ nth_error (corpusWords (fullContentOf sampleChapters))
         (Z.to_nat
            (endWordIndex (nth 1 (valueOr [] (workingChunks 11 sampleChapters 2)) tinyChunk)
             - 1))
       = Some lastWord
    /\ nth_error (splitWords (c_textContent final))
         (Z.to_nat
            (endWordIndex (nth 1 (valueOr [] (workingChunks 11 sampleChapters 2)) tinyChunk)
             - 1 - wordsOf before'))
       = Some lastWord.
Proof.
  apply (chunk_chapters_are_those_of_its_ends sampleChapters 2 11
           (valueOr [] (workingChunks 11 sampleChapters 2))
           (valueOr [] (splitIntoChunks 11 sampleChapters 2))).
  - lia.
  - vm_compute. reflexivity.
  - vm_compute. reflexivity.
  - vm_compute. reflexivity.
  - vm_compute. reflexivity.
Defined.

(* ================================================================== *)
(** ** What the extraction returns *)

Lemma sortBySpineOrder_sorted (chapters : list Chapter) :
  StronglySorted Z.lt (map spineOrder chapters) -> sortBySpineOrder chapters = chapters.
Proof.
  induction chapters as [|a l IH]; intros H; [reflexivity|].
  simpl in H. apply StronglySorted_inv in H. destruct H as [Hl Ha].
  unfold sortBySpineOrder in *. simpl. rewrite (IH Hl).
  destruct l as [|b l]; [reflexivity|]. simpl.
  apply Forall_inv in Ha. simpl in Ha.
  replace (spineOrder a <=? spineOrder b) with true by lia. reflexivity.
Qed.

Lemma splitAtFrom_head (c : N) (s : jsstring) :
  forall acc, exists rest, rev acc ++ s = hd [] (splitAtFrom c s acc) ++ rest.
Proof.
  induction s as [|x s IH]; intros acc; simpl.
  - exists []. reflexivity.
  - destruct (x =? c)%N.
    + exists (x :: s). reflexivity.
    + destruct (IH (x :: acc)) as [rest H]. exists rest. rewrite <- H. simpl.
      rewrite <- app_assoc. reflexivity.
Qed.

Lemma endsWith_includes (s p : jsstring) : endsWith s p = true -> includes s p = true.
Proof.
  unfold endsWith. intros H. apply startsWith_spec in H. destruct H as [q H].
  apply includes_spec. exists (rev q), [].
  rewrite app_nil_r, <- (rev_involutive s), H, rev_app_distr, rev_involutive. reflexivity.
Qed.

Lemma includes_prefix (s p q : jsstring) : includes s (p ++ q) = true -> includes s p = true.
Proof.
  intros H. apply includes_spec in H. destruct H as [a [b ->]].
  apply includes_spec. exists a, (q ++ b). rewrite <- app_assoc. reflexivity.
Qed.

Section ExtractionResults.

Variable zipHas : jsstring -> bool.
Variable extractHTMLContent : jsstring -> option jsstring.
Variable extractTextContent : jsstring -> option jsstring.
Variable extractFragmentContent : jsstring -> jsstring -> option jsstring.
Variable manifest : EPUBParser.Manifest.

Local Abbreviation spineStep :=
  (EPUBParser.extractSpineItem zipHas extractHTMLContent extractTextContent manifest).

Lemma extractSpineItem_shape (i : Z) (spineItem : EPUBParser.SpineItem) :
  spineStep [] (i, spineItem) = []
  \/ exists manifestItem htmlContent textContent,
       spineStep [] (i, spineItem) = [spineChapter i manifestItem htmlContent textContent].
Proof.
  unfold EPUBParser.extractSpineItem.
  destruct (EPUBParser.manifestGet manifest _) as [manifestItem|]; [|left; reflexivity].
  destruct (zipHas _); [|left; reflexivity].
  destruct (extractHTMLContent _) as [html|]; [|left; reflexivity].
  destruct (extractTextContent html) as [txt|]; [|left; reflexivity].
  right. exists manifestItem, html, txt. reflexivity.
Qed.

Lemma spine_entries_sorted (entries : list (Z * EPUBParser.SpineItem)) (n : Z) :
  StronglySorted Z.lt (map fst entries) ->
  Forall (fun e => 0 <= fst e < n) entries ->
  StronglySorted Z.lt (map spineOrder (flat_map (spineStep []) entries))
  /\ Forall (fun c => In (spineOrder c) (map fst entries)
                      /\ 0 <= spineOrder c < n
                      /\ ch_id c = lit "spine-" ++ showZ (spineOrder c)
                      /\ parserCounted c)
       (flat_map (spineStep []) entries)
  /\ (length (flat_map (spineStep []) entries) <= length entries)%nat.
Proof.
  induction entries as [|[i s] entries IH]; intros Hs Hb.
  - simpl. split; [constructor|]. split; [constructor | lia].
  - simpl in Hs. apply StronglySorted_inv in Hs. destruct Hs as [Hs Hi].
    pose proof (Forall_inv Hb) as Hi0. apply Forall_inv_tail in Hb.
    destruct (IH Hs Hb) as [IH1 [IH2 IH3]].
    assert (IH2' : Forall (fun c => In (spineOrder c) (map fst ((i, s) :: entries))
                      /\ 0 <= spineOrder c < n
                      /\ ch_id c = lit "spine-" ++ showZ (spineOrder c)
                      /\ parserCounted c)
                     (flat_map (spineStep []) entries)).
    { eapply Forall_impl; [|exact IH2]. simpl. intros c [H1 H2]. split; [right; exact H1|].
      exact H2. }
    cbn [flat_map].
    destruct (extractSpineItem_shape i s) as [-> | [m [h [t ->]]]].
    + simpl. split; [exact IH1|]. split; [exact IH2' | lia].
    + simpl app. split; [|split].
      * simpl. constructor; [exact IH1|].
        rewrite Forall_forall in *. intros o Ho. apply in_map_iff in Ho.
        destruct Ho as [c [<- Hc]]. destruct (IH2 c Hc) as [Hin _].
        exact (Hi _ Hin).
      * constructor; [|exact IH2']. simpl in Hi0.
        split; [left; reflexivity|]. split; [simpl; lia|]. split; reflexivity.
      * simpl. lia.
Qed.

Lemma range_strongly_sorted (n : nat) :
  forall lo, StronglySorted Z.lt (map (fun k => lo + Z.of_nat k) (seq 0 n)).
Proof.
  induction n as [|n IH]; intros lo; [constructor|].
  simpl. constructor.
  - rewrite <- seq_shift, map_map.
    rewrite (map_ext _ (fun k => (lo + 1) + Z.of_nat k)) by (intros k; lia). apply IH.
  - apply Forall_forall. intros x Hx. apply in_map_iff in Hx.
    destruct Hx as [k [<- Hk]]. apply in_seq in Hk. lia.
Qed.

Lemma combine_fst_range {A : Type} (l : list A) :
  map fst (combine (range 0 (len l)) l) = range 0 (len l).
Proof.
  unfold range, len. replace (Z.to_nat (Z.of_nat (length l) - 0)) with (length l) by lia.
  generalize 0%nat. induction l as [|x l IH]; intros s; [reflexivity|].
  simpl. rewrite IH. reflexivity.
Qed.

Lemma extractChaptersFromSpine_ordered (spine : list EPUBParser.SpineItem) :
  let out := EPUBParser.extractChaptersFromSpine zipHas extractHTMLContent
               extractTextContent manifest spine [] in
  StronglySorted Z.lt (map spineOrder out)
  /\ Forall (fun c => 0 <= spineOrder c < len spine
                      /\ ch_id c = lit "spine-" ++ showZ (spineOrder c)
                      /\ parserCounted c) out
  /\ len out <= len spine.
Proof.
  cbv zeta. unfold EPUBParser.extractChaptersFromSpine. rewrite fold_spine_app. simpl app.
  destruct (spine_entries_sorted (combine (range 0 (len spine)) spine) (len spine))
    as [H1 [H2 H3]].
  - rewrite combine_fst_range. apply range_strongly_sorted.
  - apply Forall_forall. intros [i s] Hin. apply in_combine_l in Hin.
    apply in_range in Hin. simpl. lia.
  - split; [exact H1|]. split.
    + eapply Forall_impl; [|exact H2]. simpl. intros c [_ H]. exact H.
    + rewrite length_combine in H3. unfold len in *. lia.
Qed.

End ExtractionResults.

(** The spine fallback returns its chapters in reading order: their
    [spineOrder] is the index of the spine entry, strictly increasing and
    below the length of the spine, their identifier is [spine-] followed
    by that index, and sorting them by [spineOrder], as the chapter list
    and the partitioner do, leaves them as they are.  At most one chapter
    is returned for a spine entry. *)
Theorem spine_chapters_are_in_reading_order
    (zipHas : jsstring -> bool)
    (extractHTMLContent extractTextContent : jsstring -> option jsstring)
    (manifest : EPUBParser.Manifest) (spine : list EPUBParser.SpineItem) :
  let out := EPUBParser.extractChaptersFromSpine zipHas extractHTMLContent
               extractTextContent manifest spine [] in
  StronglySorted Z.lt (map spineOrder out)
  /\ Forall (fun c => 0 <= spineOrder c < len spine
                      /\ ch_id c = lit "spine-" ++ showZ (spineOrder c)) out
  /\ len out <= len spine
  /\ sortBySpineOrder out = out.
Proof.
  cbv zeta.
  destruct (extractChaptersFromSpine_ordered zipHas extractHTMLContent extractTextContent
              manifest spine) as [H1 [H2 H3]].
  split; [exact H1|]. split; [|split; [exact H3 | exact (sortBySpineOrder_sorted _ H1)]].
  eapply Forall_impl; [|exact H2]. simpl. intros c [Ha [Hb _]]. split; assumption.
Qed.

(** Whatever the navigation, every chapter the extraction returns stores
    the parser's count of its own text: the chapters of a parsed book meet
    the condition the statements on the partition ask of their input. *)
Theorem extracted_chapters_are_parser_counted
    (zipHas : jsstring -> bool)
    (extractHTMLContent extractTextContent : jsstring -> option jsstring)
    (extractFragmentContent : jsstring -> jsstring -> option jsstring)
    (manifest : EPUBParser.Manifest) (spine : list EPUBParser.SpineItem)
    (navigation : option (list EPUBParser.NavItem)) :
  Forall parserCounted
    (EPUBParser.extractChapters zipHas extractHTMLContent extractTextContent
       extractFragmentContent manifest spine navigation).
Proof.
  assert (Hspine : Forall parserCounted
                     (EPUBParser.extractChaptersFromSpine zipHas extractHTMLContent
                        extractTextContent manifest spine [])).
  { destruct (extractChaptersFromSpine_ordered zipHas extractHTMLContent extractTextContent
                manifest spine) as [_ [H _]].
    eapply Forall_impl; [|exact H]. simpl. intros c [_ [_ Hc]]. exact Hc. }
  unfold EPUBParser.extractChapters. destruct navigation as [[|navItem items]|];
    try exact Hspine.
  unfold EPUBParser.extractChaptersFromNavigation.
  pose proof (extractChaptersFromNavigation_meaningful zipHas extractHTMLContent
                extractTextContent extractFragmentContent manifest
                (navItem :: items) ([], []) (Forall_nil _)) as H.
  eapply Forall_impl; [|exact H]. intros c [_ Hc]. exact Hc.
Qed.

(** The manifest item of a navigation entry is found by a substring test
    alone: the [endsWith] test adds nothing, since a resource path that
    ends with the entry's href contains the part of the href before its
    first [#].  An entry whose href is empty or starts with [#] therefore
    matches every resource, and the first one of the manifest is taken. *)
Theorem navigation_match_is_a_substring_test (manifest : EPUBParser.Manifest)
    (navItem : EPUBParser.NavItem) :
  let file := hd [] (splitAt EPUBParser.hash (EPUBParser.nav_href navItem)) in
  find (fun item =>
          endsWith (EPUBParser.href item) (EPUBParser.nav_href navItem)
          || includes (EPUBParser.href item) file)
       (map snd manifest)
  = find (fun item => includes (EPUBParser.href item) file) (map snd manifest)
  /\ (file = [] ->
      find (fun item =>
              endsWith (EPUBParser.href item) (EPUBParser.nav_href navItem)
              || includes (EPUBParser.href item) file)
           (map snd manifest)
      = hd_error (map snd manifest)).
Proof.
  cbv zeta.
  set (file := hd [] (splitAt EPUBParser.hash (EPUBParser.nav_href navItem))).
  assert (Hsame : forall item : EPUBParser.ManifestItem,
             endsWith (EPUBParser.href item) (EPUBParser.nav_href navItem)
             || includes (EPUBParser.href item) file
             = includes (EPUBParser.href item) file).
  { intros item.
    destruct (endsWith (EPUBParser.href item) (EPUBParser.nav_href navItem)) eqn:E;
      [|reflexivity].
    simpl. symmetry. apply endsWith_includes in E.
    destruct (splitAtFrom_head EPUBParser.hash (EPUBParser.nav_href navItem) [])
      as [rest Hrest].
    simpl in Hrest. fold (splitAt EPUBParser.hash (EPUBParser.nav_href navItem)) in Hrest.
    fold file in Hrest. rewrite Hrest in E. exact (includes_prefix _ _ _ E). }
  assert (Hfind : find (fun item =>
                          endsWith (EPUBParser.href item) (EPUBParser.nav_href navItem)
                          || includes (EPUBParser.href item) file)
                       (map snd manifest)
                  = find (fun item => includes (EPUBParser.href item) file)
                      (map snd manifest)).
  { induction (map snd manifest) as [|item l IH]; [reflexivity|].
    simpl. rewrite Hsame, IH. reflexivity. }
  split; [exact Hfind|].
  intros Hnil. rewrite Hfind, Hnil.
  destruct (map snd manifest) as [|item l]; [reflexivity|].
  simpl. destruct (EPUBParser.href item); reflexivity.
Qed.

Lemma navigation_match_is_a_substring_test_witness :
  find (fun item =>
          endsWith (EPUBParser.href item) (lit "#top")
          || includes (EPUBParser.href item) (hd [] (splitAt EPUBParser.hash (lit "#top"))))
       (map snd sampleManifest)
  = hd_error (map snd sampleManifest).
Proof.
  apply (proj2 (navigation_match_is_a_substring_test sampleManifest
                  (EPUBParser.mkNavItem (lit "nav-root-0-0") (lit "Top") (lit "#top")))).
  reflexivity.
Defined.

(* ================================================================== *)
(** ** The navigation documents *)

Lemma splitAtFrom_head_free (c : N) (s : jsstring) :
  forall acc, ~ In c acc -> ~ In c (hd [] (splitAtFrom c s acc)).
Proof.
  induction s as [|x s IH]; intros acc Hacc; simpl.
  - intros H. apply in_rev in H. exact (Hacc H).
  - destruct (x =? c)%N eqn:E.
    + simpl. intros H. apply in_rev in H. exact (Hacc H).
    + apply IH. intros [H | H]; [apply N.eqb_neq in E; congruence | exact (Hacc H)].
Qed.

Lemma includes_unit (s : jsstring) (c : N) : ~ In c s -> includes s [c] = false.
Proof.
  intros H. destruct (includes s [c]) eqn:E; [|reflexivity].
  apply includes_spec in E. destruct E as [p [q ->]].
  exfalso. apply H. apply in_or_app. right. left. reflexivity.
Qed.

Lemma withoutFragment_free (href : option jsstring) :
  includes (EPUBParser.withoutFragment href) [EPUBParser.hash] = false.
Proof.
  apply includes_unit. unfold EPUBParser.withoutFragment.
  destruct href as [[|x s]|]; try (intros []).
  apply splitAtFrom_head_free. intros [].
Qed.

Lemma titleOrUntitled_nonempty (title : jsstring) : EPUBParser.titleOrUntitled title <> [].
Proof. destruct title; discriminate. Qed.

(** A loop over the children that threads the index and the items. *)
Lemma fold_indexed_invariant {A : Type} (I : list EPUBParser.NavItem -> Prop)
    (f : A -> Z -> list EPUBParser.NavItem -> list EPUBParser.NavItem) (l : list A) :
  Forall (fun a => forall i items, I items -> I (f a i items)) l ->
  forall i items,
    I items ->
    I (snd (fold_left (fun state a => (fst state + 1, f a (fst state) (snd state)))
              l (i, items))).
Proof.
  induction 1 as [|a l Ha _ IH]; intros i items Hi; simpl.
  - exact Hi.
  - apply IH. apply Ha. exact Hi.
Qed.

Lemma fold_indexed_listing {A : Type} (g : A -> list jsstring)
    (f : A -> Z -> list EPUBParser.NavItem -> list EPUBParser.NavItem) (l : list A) :
  Forall (fun a => forall i items,
            map EPUBParser.nav_href (f a i items) = map EPUBParser.nav_href items ++ g a) l ->
  forall i items,
    map EPUBParser.nav_href
      (snd (fold_left (fun state a => (fst state + 1, f a (fst state) (snd state)))
              l (i, items)))
    = map EPUBParser.nav_href items ++ flat_map g l.
Proof.
  induction 1 as [|a l Ha _ IH]; intros i items; simpl.
  - rewrite app_nil_r. reflexivity.
  - rewrite IH, Ha, <- app_assoc. reflexivity.
Qed.

Lemma parseListItem_eq (link : option (option jsstring * jsstring))
    (nestedOl : option (list EPUBParser.ListItem)) (parentId : option jsstring)
    (index depth : Z) (items : list EPUBParser.NavItem) :
  EPUBParser.parseListItem (EPUBParser.mkListItem link nestedOl) parentId index depth items
  = match link with
    | None => items
    | Some (href, textContent) =>
        let id := EPUBParser.navId (lit "nav") parentId index depth in
        EPUBParser.parseNavigationList nestedOl (Some id)
          (items ++ [EPUBParser.mkNavItem id (EPUBParser.titleOrUntitled (trim textContent))
                       (EPUBParser.withoutFragment href)])
          (depth + 1)
    end.
Proof. destruct link as [[href textContent]|], nestedOl; reflexivity. Qed.

Lemma parseNavPoint_eq (navLabel : option jsstring) (content : option (option jsstring))
    (children : list EPUBParser.NavPoint) (parentId : option jsstring)
    (index depth : Z) (items : list EPUBParser.NavItem) :
  EPUBParser.parseNavPoint (EPUBParser.mkNavPoint navLabel content children)
    parentId index depth items
  = match navLabel, content with
    | Some textContent, Some src =>
        let id := EPUBParser.navId (lit "ncx") parentId index depth in
        EPUBParser.parseNCXNavPoints children (Some id)
          (items ++ [EPUBParser.mkNavItem id (EPUBParser.titleOrUntitled (trim textContent))
                       (EPUBParser.withoutFragment src)])
          (depth + 1)
    | _, _ => items
    end.
Proof. destruct navLabel, content, children; reflexivity. Qed.

Lemma parseListItem_parsed (li : EPUBParser.ListItem) :
  forall parentId index depth items,
    Forall parsedEntry items ->
    Forall parsedEntry (EPUBParser.parseListItem li parentId index depth items).
Proof.
  induction li as [link nestedOl IH] using ListItem_nested_ind.
  intros parentId index depth items H. rewrite parseListItem_eq.
  destruct link as [[href textContent]|]; [|exact H]. cbv zeta.
  assert (H' : Forall parsedEntry
                 (items ++ [EPUBParser.mkNavItem
                              (EPUBParser.navId (lit "nav") parentId index depth)
                              (EPUBParser.titleOrUntitled (trim textContent))
                              (EPUBParser.withoutFragment href)])).
  { apply Forall_app. split; [exact H|]. constructor; [|constructor].
    split; [apply withoutFragment_free | apply titleOrUntitled_nonempty]. }
  destruct nestedOl as [ol|]; [|exact H'].
  unfold EPUBParser.parseNavigationList.
  apply (fold_indexed_invariant (Forall parsedEntry)
           (fun li' i its => EPUBParser.parseListItem li' _ i (depth + 1) its)).
  - eapply Forall_impl; [|exact (IH ol eq_refl)]. simpl. intros a Ha i its. apply Ha.
  - exact H'.
Qed.

Lemma parseNavPoint_parsed (navPoint : EPUBParser.NavPoint) :
  forall parentId index depth items,
    Forall parsedEntry items ->
    Forall parsedEntry (EPUBParser.parseNavPoint navPoint parentId index depth items).
Proof.
  induction navPoint as [navLabel content children IH] using NavPoint_nested_ind.
  intros parentId index depth items H. rewrite parseNavPoint_eq.
  destruct navLabel as [textContent|]; [|exact H].
  destruct content as [src|]; [|exact H]. cbv zeta.
  unfold EPUBParser.parseNCXNavPoints.
  apply (fold_indexed_invariant (Forall parsedEntry)
           (fun p i its => EPUBParser.parseNavPoint p _ i (depth + 1) its)).
  - eapply Forall_impl; [|exact IH]. simpl. intros a Ha i its. apply Ha.
  - apply Forall_app. split; [exact H|]. constructor; [|constructor].
    split; [apply withoutFragment_free | apply titleOrUntitled_nonempty].
Qed.

Lemma parseNavigationList_parsed (ol : option (list EPUBParser.ListItem))
    (parentId : option jsstring) (depth : Z) :
  Forall parsedEntry (EPUBParser.parseNavigationList ol parentId [] depth).
Proof.
  destruct ol as [listItems|]; [|constructor]. unfold EPUBParser.parseNavigationList.
  apply (fold_indexed_invariant (Forall parsedEntry)
           (fun li i its => EPUBParser.parseListItem li parentId i depth its)).
  - apply Forall_forall. intros li _ i its. apply parseListItem_parsed.
  - constructor.
Qed.

Lemma parseNCXNavPoints_parsed (navPoints : list EPUBParser.NavPoint)
    (parentId : option jsstring) (depth : Z) :
  Forall parsedEntry (EPUBParser.parseNCXNavPoints navPoints parentId [] depth).
Proof.
  unfold EPUBParser.parseNCXNavPoints.
  apply (fold_indexed_invariant (Forall parsedEntry)
           (fun p i its => EPUBParser.parseNavPoint p parentId i depth its)).
  - apply Forall_forall. intros p _ i its. apply parseNavPoint_parsed.
  - constructor.
Qed.

Lemma parsed_navigation (tocNav : option (option (list EPUBParser.ListItem)))
    (navMap : option (list EPUBParser.NavPoint)) (items : list EPUBParser.NavItem) :
  EPUBParser.parseEPUB3Navigation tocNav = Ok items
  \/ EPUBParser.parseEPUB2Navigation navMap = Ok items ->
  Forall parsedEntry items.
Proof.
  intros [H | H].
  - destruct tocNav as [ol|]; [|discriminate]. injection H as <-.
    apply parseNavigationList_parsed.
  - destruct navMap as [navPoints|]; [|discriminate]. injection H as <-.
    apply parseNCXNavPoints_parsed.
Qed.

(** Every entry either navigation parser returns has a title that is not
    empty and an href without [#]: the fragment of a link is dropped when
    the document is read.  Without a table of contents, or without a
    navigation map, the parser throws. *)
Theorem navigation_entries_hold_no_fragment
    (tocNav : option (option (list EPUBParser.ListItem)))
    (navMap : option (list EPUBParser.NavPoint)) (items : list EPUBParser.NavItem) :
  EPUBParser.parseEPUB3Navigation tocNav = Ok items
  \/ EPUBParser.parseEPUB2Navigation navMap = Ok items ->
  Forall (fun navItem =>
            includes (EPUBParser.nav_href navItem) [EPUBParser.hash] = false
            /\ EPUBParser.nav_title navItem <> [])
    items.
Proof. exact (parsed_navigation tocNav navMap items). Qed.

Lemma navigation_entries_hold_no_fragment_witness :
  Forall (fun navItem =>
            includes (EPUBParser.nav_href navItem) [EPUBParser.hash] = false
            /\ EPUBParser.nav_title navItem <> [])
    (EPUBParser.parseNavigationList (Some sampleToc) None [] 0).
Proof.
  apply (navigation_entries_hold_no_fragment (Some (Some sampleToc)) None).
  left. reflexivity.
Defined.

Lemma parseListItem_listing (li : EPUBParser.ListItem) :
  forall parentId index depth items,
    map EPUBParser.nav_href (EPUBParser.parseListItem li parentId index depth items)
    = map EPUBParser.nav_href items ++ listedItems li.
Proof.
  induction li as [link nestedOl IH] using ListItem_nested_ind.
  intros parentId index depth items. rewrite parseListItem_eq.
  destruct link as [[href textContent]|]; [|simpl; rewrite app_nil_r; reflexivity].
  cbv zeta. destruct nestedOl as [ol|].
  - unfold EPUBParser.parseNavigationList.
    rewrite (fold_indexed_listing listedItems
               (fun li' i its => EPUBParser.parseListItem li' _ i (depth + 1) its)).
    + rewrite map_app, <- app_assoc. reflexivity.
    + eapply Forall_impl; [|exact (IH ol eq_refl)]. simpl. intros a Ha i its. apply Ha.
  - simpl. rewrite map_app. reflexivity.
Qed.

Lemma parseNavPoint_listing (navPoint : EPUBParser.NavPoint) :
  forall parentId index depth items,
    map EPUBParser.nav_href (EPUBParser.parseNavPoint navPoint parentId index depth items)
    = map EPUBParser.nav_href items ++ listedPoints navPoint.
Proof.
  induction navPoint as [navLabel content children IH] using NavPoint_nested_ind.
  intros parentId index depth items. rewrite parseNavPoint_eq.
  destruct navLabel as [textContent|]; [|simpl; rewrite app_nil_r; reflexivity].
  destruct content as [src|]; [|simpl; rewrite app_nil_r; reflexivity].
  cbv zeta. unfold EPUBParser.parseNCXNavPoints.
  rewrite (fold_indexed_listing listedPoints
             (fun p i its => EPUBParser.parseNavPoint p _ i (depth + 1) its)).
  - rewrite map_app, <- app_assoc. reflexivity.
  - eapply Forall_impl; [|exact IH]. simpl. intros a Ha i its. apply Ha.
Qed.

(** The table of contents of an EPUB 3 book is listed once: one entry
    for each list item with a link, in document order.  The map of an NCX
    is not: the parser is handed every navigation point below the map and
    walks down from each of them, so a point is listed once for itself and
    once more for each point above it. *)
Theorem ncx_points_are_listed_again (ol : list EPUBParser.ListItem)
    (navPoints : list EPUBParser.NavPoint) :
  (exists items,
     EPUBParser.parseEPUB3Navigation (Some (Some ol)) = Ok items
     /\ map EPUBParser.nav_href items = flat_map listedItems ol)
  /\ (exists items,
        EPUBParser.parseEPUB2Navigation (Some navPoints) = Ok items
        /\ map EPUBParser.nav_href items
           = flat_map listedPoints (flat_map EPUBParser.descendants navPoints))
  /\ (forall textContent src children,
        flat_map listedPoints
          (EPUBParser.descendants
             (EPUBParser.mkNavPoint (Some textContent) (Some src) children))
        = EPUBParser.withoutFragment src :: flat_map listedPoints children
          ++ flat_map listedPoints (flat_map EPUBParser.descendants children)).
Proof.
  split; [|split].
  - eexists. split; [reflexivity|]. unfold EPUBParser.parseNavigationList.
    rewrite (fold_indexed_listing listedItems
               (fun li i its => EPUBParser.parseListItem li None i 0 its)).
    + reflexivity.
    + apply Forall_forall. intros li _ i its. apply parseListItem_listing.
  - eexists. split; [reflexivity|]. unfold EPUBParser.parseNCXNavPoints.
    rewrite (fold_indexed_listing listedPoints
               (fun p i its => EPUBParser.parseNavPoint p None i 0 its)).
    + reflexivity.
    + apply Forall_forall. intros p _ i its. apply parseNavPoint_listing.
  - intros textContent src children. reflexivity.
Qed.

(* ================================================================== *)
(** ** Navigation entries that name the same resource *)

Lemma eqs_refl (s : jsstring) : eqs s s = true.
Proof. induction s as [|c s IH]; [reflexivity|]. simpl. rewrite N.eqb_refl. exact IH. Qed.

Lemma eqs_eq (a b : jsstring) : eqs a b = true -> a = b.
Proof.
  revert b. induction a as [|x a IH]; intros [|y b] H; try discriminate; [reflexivity|].
  simpl in H. apply andb_true_iff in H. destruct H as [H1 H2].
  apply N.eqb_eq in H1. rewrite H1, (IH b H2). reflexivity.
Qed.

Lemma eqs_neq (a b : jsstring) : a <> b -> eqs a b = false.
Proof. intros H. destruct (eqs a b) eqn:E; [|reflexivity]. apply eqs_eq in E. congruence. Qed.


Section Dedup.

Variable zipHas : jsstring -> bool.
Variable extractHTMLContent : jsstring -> option jsstring.
Variable extractTextContent : jsstring -> option jsstring.
Variable manifest : EPUBParser.Manifest.

Section OneExtractor.

Variable extractFragmentContent : jsstring -> jsstring -> option jsstring.

Local Abbreviation navStep :=
  (EPUBParser.extractNavItem zipHas extractHTMLContent extractTextContent
     extractFragmentContent manifest).

Lemma extractNavItem_no_key (state : list jsstring * list Chapter)
    (navItem : EPUBParser.NavItem) :
  fileKeyOf zipHas manifest navItem = None -> navStep state navItem = state.
Proof.
  unfold fileKeyOf, EPUBParser.extractNavItem. destruct state as [processed chapters].
  destruct (find _ (map snd manifest)) as [manifestItem|]; [|reflexivity].
  destruct (zipHas _); [discriminate | reflexivity].
Qed.

Lemma extractNavItem_seen (state : list jsstring * list Chapter)
    (navItem : EPUBParser.NavItem) (key : jsstring) :
  fileKeyOf zipHas manifest navItem = Some key ->
  existsb (eqs key) (fst state) = true ->
  navStep state navItem = state.
Proof.
  unfold fileKeyOf, EPUBParser.extractNavItem. destruct state as [processed chapters].
  destruct (find _ (map snd manifest)) as [manifestItem|]; [|discriminate].
  destruct (zipHas _); [|discriminate].
  intros H. injection H as <-. simpl. intros ->. reflexivity.
Qed.

Lemma extractNavItem_remembers (state : list jsstring * list Chapter)
    (navItem : EPUBParser.NavItem) (key : jsstring) :
  fileKeyOf zipHas manifest navItem = Some key ->
  existsb (eqs key) (fst (navStep state navItem)) = true.
Proof.
  unfold fileKeyOf, EPUBParser.extractNavItem. destruct state as [processed chapters].
  destruct (find _ (map snd manifest)) as [manifestItem|]; [|discriminate].
  destruct (zipHas _); [|discriminate].
  intros H. injection H as <-.
  destruct (existsb _ processed) eqn:E; [exact E|].
  assert (Hhead : forall rest : list Chapter,
             existsb (eqs (EPUBParser.href manifestItem ++ [EPUBParser.hash]
                           ++ EPUBParser.nav_href navItem))
               (fst ((EPUBParser.href manifestItem ++ [EPUBParser.hash]
                      ++ EPUBParser.nav_href navItem) :: processed, rest)) = true)
    by (intros rest; simpl; rewrite eqs_refl; reflexivity).
  destruct (EPUBParser.extractNavContent _ _ _ manifestItem navItem) as [[html txt]|];
    [|apply Hhead].
  destruct (EPUBParser.countWords txt >? 10); apply Hhead.
Qed.

Lemma extractNavItem_keeps (state : list jsstring * list Chapter)
    (navItem : EPUBParser.NavItem) (key : jsstring) :
  existsb (eqs key) (fst state) = true ->
  existsb (eqs key) (fst (navStep state navItem)) = true.
Proof.
  intros H. unfold EPUBParser.extractNavItem. destruct state as [processed chapters].
  destruct (find _ (map snd manifest)) as [manifestItem|]; [|exact H].
  destruct (zipHas _); [|exact H].
  destruct (existsb _ processed) eqn:E; [exact H|].
  simpl in H.
  assert (Hlater : forall (k : jsstring) (rest : list Chapter),
             existsb (eqs key) (fst (k :: processed, rest)) = true)
    by (intros k rest; simpl; rewrite H; apply orb_true_r).
  destruct (EPUBParser.extractNavContent _ _ _ manifestItem navItem) as [[html txt]|];
    [|apply Hlater].
  destruct (EPUBParser.countWords txt >? 10); apply Hlater.
Qed.

Lemma fold_navStep_keeps (navigation : list EPUBParser.NavItem) (key : jsstring) :
  forall state,
    existsb (eqs key) (fst state) = true ->
    existsb (eqs key) (fst (fold_left navStep navigation state)) = true.
Proof.
  induction navigation as [|n navigation IH]; intros state H; [exact H|].
  simpl. apply IH. apply extractNavItem_keeps. exact H.
Qed.

Lemma repeated_entry_is_skipped (before between after : list EPUBParser.NavItem)
    (navItem again : EPUBParser.NavItem) (state : list jsstring * list Chapter) :
  EPUBParser.nav_href again = EPUBParser.nav_href navItem ->
  fold_left navStep (before ++ navItem :: between ++ again :: after) state
  = fold_left navStep (before ++ navItem :: between ++ after) state.
Proof.
  intros Hhref. rewrite !fold_left_app. simpl. rewrite !fold_left_app. simpl.
  f_equal.
  assert (Hkey : fileKeyOf zipHas manifest again = fileKeyOf zipHas manifest navItem)
    by (unfold fileKeyOf; rewrite Hhref; reflexivity).
  destruct (fileKeyOf zipHas manifest navItem) as [key|] eqn:E.
  - apply (extractNavItem_seen _ _ key Hkey).
    apply fold_navStep_keeps. apply extractNavItem_remembers. exact E.
  - apply extractNavItem_no_key. exact Hkey.
Qed.

Lemma fold_navStep_no_key (navigation : list EPUBParser.NavItem) :
  Forall (fun navItem => fileKeyOf zipHas manifest navItem = None) navigation ->
  forall state, fold_left navStep navigation state = state.
Proof.
  induction 1 as [|n navigation Hn _ IH]; intros state; [reflexivity|].
  simpl. rewrite (extractNavItem_no_key state n Hn). apply IH.
Qed.

End OneExtractor.

Lemma extractNavItem_without_fragment
    (extractFragmentContent extractFragmentContent' : jsstring -> jsstring -> option jsstring)
    (state : list jsstring * list Chapter) (navItem : EPUBParser.NavItem) :
  includes (EPUBParser.nav_href navItem) [EPUBParser.hash] = false ->
  EPUBParser.extractNavItem zipHas extractHTMLContent extractTextContent
    extractFragmentContent manifest state navItem
  = EPUBParser.extractNavItem zipHas extractHTMLContent extractTextContent
      extractFragmentContent' manifest state navItem.
Proof.
  intros H. unfold EPUBParser.extractNavItem, EPUBParser.extractNavContent.
  rewrite H. reflexivity.
Qed.

Lemma fold_without_fragment
    (extractFragmentContent extractFragmentContent' : jsstring -> jsstring -> option jsstring)
    (navigation : list EPUBParser.NavItem) :
  Forall parsedEntry navigation ->
  forall state,
    fold_left (EPUBParser.extractNavItem zipHas extractHTMLContent extractTextContent
                 extractFragmentContent manifest) navigation state
    = fold_left (EPUBParser.extractNavItem zipHas extractHTMLContent extractTextContent
                   extractFragmentContent' manifest) navigation state.
Proof.
  induction 1 as [|n navigation [Hn _] _ IH]; intros state; [reflexivity|].
  simpl. rewrite (extractNavItem_without_fragment _ extractFragmentContent' state n Hn).
  apply IH.
Qed.

End Dedup.

(** Navigation entries are told apart by the text of their href, not by
    the resource they name.  An entry whose href is, letter for letter,
    that of an earlier entry contributes nothing, whatever its identifier
    and its title.  An entry whose href differs is not skipped, even when
    it matches the same resource of the manifest: with two such entries
    the resource is extracted twice and the book has two chapters with
    its contents. *)
Theorem navigation_skips_by_href_text
    (zipHas : jsstring -> bool)
    (extractHTMLContent extractTextContent : jsstring -> option jsstring)
    (extractFragmentContent : jsstring -> jsstring -> option jsstring)
    (manifest : EPUBParser.Manifest)
    (navItem again : EPUBParser.NavItem) :
  (EPUBParser.nav_href again = EPUBParser.nav_href navItem ->
   forall before between after chapters,
     EPUBParser.extractChaptersFromNavigation zipHas extractHTMLContent extractTextContent
       extractFragmentContent manifest (before ++ navItem :: between ++ again :: after)
       chapters
     = EPUBParser.extractChaptersFromNavigation zipHas extractHTMLContent
         extractTextContent extractFragmentContent manifest
         (before ++ navItem :: between ++ after) chapters)
  /\ (EPUBParser.nav_href again <> EPUBParser.nav_href navItem ->
      forall manifestItem htmlContent textContent htmlContent' textContent',
        find (fun item =>
                endsWith (EPUBParser.href item) (EPUBParser.nav_href navItem)
                || includes (EPUBParser.href item)
                     (hd [] (splitAt EPUBParser.hash (EPUBParser.nav_href navItem))))
             (map snd manifest) = Some manifestItem ->
        find (fun item =>
                endsWith (EPUBParser.href item) (EPUBParser.nav_href again)
                || includes (EPUBParser.href item)
                     (hd [] (splitAt EPUBParser.hash (EPUBParser.nav_href again))))
             (map snd manifest) = Some manifestItem ->
        zipHas (EPUBParser.href manifestItem) = true ->
        EPUBParser.extractNavContent extractHTMLContent extractTextContent
          extractFragmentContent manifestItem navItem = Some (htmlContent, textContent) ->
        EPUBParser.extractNavContent extractHTMLContent extractTextContent
          extractFragmentContent manifestItem again = Some (htmlContent', textContent') ->
        10 < EPUBParser.countWords textContent ->
        10 < EPUBParser.countWords textContent' ->
        EPUBParser.extractChaptersFromNavigation zipHas extractHTMLContent
          extractTextContent extractFragmentContent manifest [navItem; again] []
        = [mkChapter (EPUBParser.nav_id navItem) (EPUBParser.nav_title navItem)
             htmlContent textContent (EPUBParser.countWords textContent)
             (EPUBParser.findSpineOrder manifest (EPUBParser.href manifestItem));
           mkChapter (EPUBParser.nav_id again) (EPUBParser.nav_title again)
             htmlContent' textContent' (EPUBParser.countWords textContent')
             (EPUBParser.findSpineOrder manifest (EPUBParser.href manifestItem))]).
Proof.
  split.
  - intros H before between after chapters.
    unfold EPUBParser.extractChaptersFromNavigation. f_equal.
    apply repeated_entry_is_skipped. exact H.
  - intros Hneq manifestItem html txt html' txt' Hfind Hfind' Hzip Hc Hc' Hw Hw'.
    unfold EPUBParser.extractChaptersFromNavigation. cbn [fold_left].
    unfold EPUBParser.extractNavItem at 2. rewrite Hfind, Hzip. cbn [existsb].
    rewrite Hc. replace (EPUBParser.countWords txt >? 10) with true by lia.
    unfold EPUBParser.extractNavItem. rewrite Hfind', Hzip. cbn [existsb].
    rewrite eqs_neq, Hc'.
    + replace (EPUBParser.countWords txt' >? 10) with true by lia. reflexivity.
    + intros H. apply app_inv_head in H. injection H as H. exact (Hneq H).
Qed.

Lemma navigation_skips_by_href_text_witness :
  EPUBParser.extractChaptersFromNavigation sampleZipHas sampleHTML sampleLongText
    sampleFragment sampleManifest
    ([] ++ EPUBParser.mkNavItem (lit "nav-root-0-0") (lit "Story") (lit "story.xhtml")
        :: [] ++ EPUBParser.mkNavItem (lit "nav-nav-root-0-0-0-1") (lit "Part 2")
                   (lit "story.xhtml") :: [])
    []
  = EPUBParser.extractChaptersFromNavigation sampleZipHas sampleHTML sampleLongText
      sampleFragment sampleManifest
      ([] ++ EPUBParser.mkNavItem (lit "nav-root-0-0") (lit "Story") (lit "story.xhtml")
          :: [] ++ [])
      []
  /\ map ch_htmlContent
       (EPUBParser.extractChaptersFromNavigation sampleZipHas sampleHTML sampleLongText
          sampleFragment sampleManifest
          [EPUBParser.mkNavItem (lit "nav-root-0-0") (lit "Story") (lit "story.xhtml");
           EPUBParser.mkNavItem (lit "nav-root-1-0") (lit "Story, again")
             (lit "OEBPS/story.xhtml")]
          [])
     = [lit "OEBPS/story.xhtml"; lit "OEBPS/story.xhtml"].
Proof.
  split.
  - apply (proj1 (navigation_skips_by_href_text sampleZipHas sampleHTML sampleLongText
                    sampleFragment sampleManifest
                    (EPUBParser.mkNavItem (lit "nav-root-0-0") (lit "Story")
                       (lit "story.xhtml"))
                    (EPUBParser.mkNavItem (lit "nav-nav-root-0-0-0-1") (lit "Part 2")
                       (lit "story.xhtml")))
             eq_refl [] [] [] []).
  - rewrite (proj2 (navigation_skips_by_href_text sampleZipHas sampleHTML sampleLongText
                      sampleFragment sampleManifest
                      (EPUBParser.mkNavItem (lit "nav-root-0-0") (lit "Story")
                         (lit "story.xhtml"))
                      (EPUBParser.mkNavItem (lit "nav-root-1-0") (lit "Story, again")
                         (lit "OEBPS/story.xhtml")))
               ltac:(discriminate)
               (EPUBParser.mkManifestItem (lit "OEBPS/story.xhtml")
                  (lit "application/xhtml+xml") [])
               (lit "OEBPS/story.xhtml")
               (lit "one two three four five six seven eight nine ten eleven twelve")
               (lit "OEBPS/story.xhtml")
               (lit "one two three four five six seven eight nine ten eleven twelve")
               eq_refl eq_refl eq_refl eq_refl eq_refl
               ltac:(vm_compute; reflexivity) ltac:(vm_compute; reflexivity)).
    reflexivity.
Defined.

(** The fragment extraction is never used on a parsed book: the entries
    the navigation parsers return hold no [#], so the chapters extracted
    from them are the same whatever [extractFragmentContent] does. *)
Theorem fragment_extraction_is_never_used
    (zipHas : jsstring -> bool)
    (extractHTMLContent extractTextContent : jsstring -> option jsstring)
    (extractFragmentContent extractFragmentContent' : jsstring -> jsstring -> option jsstring)
    (manifest : EPUBParser.Manifest) (spine : list EPUBParser.SpineItem)
    (tocNav : option (option (list EPUBParser.ListItem)))
    (navMap : option (list EPUBParser.NavPoint)) (items : list EPUBParser.NavItem) :
  EPUBParser.parseEPUB3Navigation tocNav = Ok items
  \/ EPUBParser.parseEPUB2Navigation navMap = Ok items ->
  EPUBParser.extractChapters zipHas extractHTMLContent extractTextContent
    extractFragmentContent manifest spine (Some items)
  = EPUBParser.extractChapters zipHas extractHTMLContent extractTextContent
      extractFragmentContent' manifest spine (Some items).
Proof.
  intros H. pose proof (parsed_navigation tocNav navMap items H) as Hp.
  unfold EPUBParser.extractChapters. destruct items as [|navItem items]; [reflexivity|].
  unfold EPUBParser.extractChaptersFromNavigation. f_equal.
  apply fold_without_fragment. exact Hp.
Qed.

Lemma fragment_extraction_is_never_used_witness :
  EPUBParser.extractChapters sampleZipHas sampleHTML sampleLongText
    sampleFragment sampleManifest sampleSpine
    (Some (EPUBParser.parseNavigationList (Some sampleToc) None [] 0))
  = EPUBParser.extractChapters sampleZipHas sampleHTML sampleLongText
      (fun _ _ => None) sampleManifest sampleSpine
      (Some (EPUBParser.parseNavigationList (Some sampleToc) None [] 0)).
Proof.
  apply (fragment_extraction_is_never_used sampleZipHas sampleHTML sampleLongText
           sampleFragment (fun _ _ => None) sampleManifest sampleSpine
           (Some (Some sampleToc)) None).
  left. reflexivity.
Defined.

(** There is no way back to the spine: when the navigation has entries
    and none of them matches a resource of the manifest that is in the
    archive, the book has no chapter, whatever its spine holds. *)
Theorem unmatched_navigation_gives_no_chapter
    (zipHas : jsstring -> bool)
    (extractHTMLContent extractTextContent : jsstring -> option jsstring)
    (extractFragmentContent : jsstring -> jsstring -> option jsstring)
    (manifest : EPUBParser.Manifest) (spine : list EPUBParser.SpineItem)
    (navItem : EPUBParser.NavItem) (items : list EPUBParser.NavItem) :
  Forall (fun navItem => fileKeyOf zipHas manifest navItem = None) (navItem :: items) ->
  EPUBParser.extractChapters zipHas extractHTMLContent extractTextContent
    extractFragmentContent manifest spine (Some (navItem :: items))
  = [].
Proof.
  intros H. unfold EPUBParser.extractChapters, EPUBParser.extractChaptersFromNavigation.
  rewrite (fold_navStep_no_key zipHas extractHTMLContent extractTextContent manifest
             extractFragmentContent (navItem :: items) H).
  reflexivity.
Qed.

Lemma unmatched_navigation_gives_no_chapter_witness :
  EPUBParser.extractChapters sampleZipHas sampleHTML sampleLongText sampleFragment
    sampleManifest sampleSpine
    (Some [EPUBParser.mkNavItem (lit "nav-root-0-0") (lit "Story") (lit "Text/story.xhtml")])
  = []
  /\ EPUBParser.extractChapters sampleZipHas sampleHTML sampleLongText sampleFragment
       sampleManifest sampleSpine None
     <> [].
Proof.
  split.
  - apply (unmatched_navigation_gives_no_chapter sampleZipHas sampleHTML sampleLongText
             sampleFragment sampleManifest sampleSpine).
    repeat constructor.
  - vm_compute. discriminate.
Defined.

(* ================================================================== *)
(** ** Selection and export *)

Lemma setHas_add (key : jsstring) (set : list jsstring) : setHas key (setAdd key set) = true.
Proof.
  unfold setAdd. destruct (setHas key set) eqn:E; [exact E|].
  unfold setHas. rewrite existsb_app. simpl. rewrite eqs_refl. apply orb_true_r.
Qed.

Lemma setHas_add_keeps (key other : jsstring) (set : list jsstring) :
  setHas key set = true -> setHas key (setAdd other set) = true.
Proof.
  intros H. unfold setAdd. destruct (setHas other set); [exact H|].
  unfold setHas in *. rewrite existsb_app, H. reflexivity.
Qed.

Lemma fold_setAdd_keeps {A : Type} (f : A -> jsstring) (l : list A) (key : jsstring) :
  forall set,
    setHas key set = true ->
    setHas key (fold_left (fun set a => setAdd (f a) set) l set) = true.
Proof.
  induction l as [|a l IH]; intros set H; [exact H|].
  simpl. apply IH. apply setHas_add_keeps. exact H.
Qed.

Lemma fold_setAdd_has {A : Type} (f : A -> jsstring) (l : list A) (a : A) :
  In a l ->
  forall set, setHas (f a) (fold_left (fun set a => setAdd (f a) set) l set) = true.
Proof.
  induction l as [|b l IH]; intros Hin set; [destruct Hin|].
  simpl. destruct Hin as [-> | Hin].
  - apply fold_setAdd_keeps. apply setHas_add.
  - apply IH. exact Hin.
Qed.

Lemma setHas_nonempty (key : jsstring) (set : list jsstring) :
  setHas key set = true -> (len set =? 0) = false.
Proof. destruct set; [discriminate|]. intros _. unfold len. simpl. lia. Qed.

Lemma insertBySpineOrder_head (a : Chapter) (l : list Chapter) :
  Forall (fun b => spineOrder a <= spineOrder b) l -> insertBySpineOrder a l = a :: l.
Proof.
  intros H. destruct l as [|b l]; [reflexivity|]. simpl.
  apply Forall_inv in H. replace (spineOrder a <=? spineOrder b) with true by lia.
  reflexivity.
Qed.

Lemma insertBySpineOrder_in (a x : Chapter) (l : list Chapter) :
  In x (insertBySpineOrder a l) -> x = a \/ In x l.
Proof.
  intros H. apply (Permutation_in x (Permutation_sym (insertBySpineOrder_perm a l))) in H.
  destruct H as [<- | H]; [left; reflexivity | right; exact H].
Qed.

Lemma insertBySpineOrder_sorted (a : Chapter) (l : list Chapter) :
  StronglySorted (fun x y => spineOrder x <= spineOrder y) l ->
  StronglySorted (fun x y => spineOrder x <= spineOrder y) (insertBySpineOrder a l).
Proof.
  induction 1 as [|b l Hl IH Hb]; simpl.
  - constructor; constructor.
  - destruct (spineOrder a <=? spineOrder b) eqn:E.
    + constructor; [constructor; assumption|].
      constructor; [lia|]. eapply Forall_impl; [|exact Hb]. simpl. intros c Hc. lia.
    + constructor; [exact IH|].
      apply Forall_forall. intros x Hx. apply insertBySpineOrder_in in Hx.
      destruct Hx as [-> | Hx]; [lia|]. rewrite Forall_forall in Hb. exact (Hb x Hx).
Qed.

Lemma sortBySpineOrder_is_sorted (l : list Chapter) :
  StronglySorted (fun x y => spineOrder x <= spineOrder y) (sortBySpineOrder l).
Proof.
  unfold sortBySpineOrder. induction l as [|a l IH]; simpl; [constructor|].
  apply insertBySpineOrder_sorted. exact IH.
Qed.

Lemma sortBySpineOrder_fixed (l : list Chapter) :
  StronglySorted (fun x y => spineOrder x <= spineOrder y) l -> sortBySpineOrder l = l.
Proof.
  unfold sortBySpineOrder. induction 1 as [|a l Hl IH Ha]; [reflexivity|].
  simpl. rewrite IH. apply insertBySpineOrder_head. exact Ha.
Qed.

Lemma filter_insertBySpineOrder (p : Chapter -> bool) (a : Chapter) (l : list Chapter) :
  StronglySorted (fun x y => spineOrder x <= spineOrder y) l ->
  filter p (insertBySpineOrder a l)
  = if p a then insertBySpineOrder a (filter p l) else filter p l.
Proof.
  induction 1 as [|b l Hl IH Hb]; simpl.
  - destruct (p a); reflexivity.
  - destruct (spineOrder a <=? spineOrder b) eqn:E.
    + simpl. destruct (p a) eqn:Ea; [|reflexivity].
      symmetry. apply (insertBySpineOrder_head a (filter p (b :: l))).
      apply Forall_forall. intros x Hx. apply filter_In in Hx. destruct Hx as [Hx _].
      destruct Hx as [<- | Hx]; [lia|]. rewrite Forall_forall in Hb.
      specialize (Hb x Hx). simpl in Hb. lia.
    + simpl. rewrite IH. destruct (p b) eqn:Eb, (p a) eqn:Ea; try reflexivity.
      simpl. rewrite E. reflexivity.
Qed.

Lemma filter_sortBySpineOrder (p : Chapter -> bool) (l : list Chapter) :
  filter p (sortBySpineOrder l) = sortBySpineOrder (filter p l).
Proof.
  induction l as [|a l IH]; [reflexivity|].
  change (sortBySpineOrder (a :: l)) with (insertBySpineOrder a (sortBySpineOrder l)).
  rewrite filter_insertBySpineOrder by apply sortBySpineOrder_is_sorted.
  simpl. destruct (p a); rewrite IH; reflexivity.
Qed.

(** Chapters of one [spineOrder] keep their order when the chapters are
    sorted. *)
Lemma sortBySpineOrder_stable (order : Z) (l : list Chapter) :
  filter (fun ch => spineOrder ch =? order) (sortBySpineOrder l)
  = filter (fun ch => spineOrder ch =? order) l.
Proof.
  rewrite filter_sortBySpineOrder. apply sortBySpineOrder_fixed.
  induction l as [|a l IH]; simpl; [constructor|].
  destruct (spineOrder a =? order) eqn:E; [|exact IH].
  constructor; [exact IH|]. apply Forall_forall. intros x Hx.
  apply filter_In in Hx. destruct Hx as [_ Hx]. lia.
Qed.

(** After [selectAllChapters] the export holds every chapter of the
    book, in the order of the chapter list: the exported chapters are the
    chapters of the book, each as often as the book holds it; their
    [spineOrder] never decreases along the export; and chapters of equal
    [spineOrder] follow each other as the parser returned them.  What was
    selected before does not matter. *)
Theorem select_all_exports_every_chapter (chapters : list Chapter)
    (currentChunks : list FinalChunk) (selectedChapters selectedChunks : list jsstring) :
  chapters <> [] ->
  exists selectedItems,
    exportSelectedChapters ChaptersMode chapters currentChunks
      (selectAllChapters chapters selectedChapters) selectedChunks
    = ExportedChapters selectedItems
    /\ Permutation selectedItems chapters
    /\ StronglySorted (fun a b => spineOrder a <= spineOrder b) selectedItems
    /\ forall order,
         filter (fun ch => spineOrder ch =? order) selectedItems
         = filter (fun ch => spineOrder ch =? order) chapters.
Proof.
  intros Hne. exists (sortBySpineOrder chapters).
  split; [|split; [apply Permutation_sym, sortBySpineOrder_perm|
                   split; [apply sortBySpineOrder_is_sorted|
                           intros order; apply sortBySpineOrder_stable]]].
  unfold exportSelectedChapters, selectAllChapters.
  destruct chapters as [|c chapters]; [congruence|].
  rewrite (setHas_nonempty (ch_id c))
    by (apply (fold_setAdd_has ch_id (c :: chapters) c); left; reflexivity).
  rewrite filter_all; [reflexivity|].
  apply Forall_forall. intros ch Hin.
  exact (fold_setAdd_has ch_id (c :: chapters) ch Hin selectedChapters).
Qed.

Lemma select_all_exports_every_chapter_witness :
  exists selectedItems,
    exportSelectedChapters ChaptersMode unsortedChapters []
      (selectAllChapters unsortedChapters [lit "nav-root-0-0"]) []
    = ExportedChapters selectedItems
    /\ Permutation selectedItems unsortedChapters
    /\ StronglySorted (fun a b => spineOrder a <= spineOrder b) selectedItems
    /\ forall order,
         filter (fun ch => spineOrder ch =? order) selectedItems
         = filter (fun ch => spineOrder ch =? order) unsortedChapters.
Proof.
  apply (select_all_exports_every_chapter unsortedChapters [] [lit "nav-root-0-0"] []).
  discriminate.
Defined.

(** *** The number in the identifier of a chunk *)

Local Abbreviation decimalValue :=
  (fold_left (fun n c => 10 * n + (Z.of_N c - 48))).

Lemma lit_String (a : ascii) (s : string) : lit (String a s) = N_of_ascii a :: lit s.
Proof. reflexivity. Qed.

Ltac digit_code :=
  match goal with
  | |- context [N_of_ascii ?a] =>
      let v := eval vm_compute in (N_of_ascii a) in change (N_of_ascii a) with v
  end.

Lemma string_of_uint_acc (d : Decimal.uint) :
  forall acc,
    decimalValue (lit (NilEmpty.string_of_uint d)) (Z.pos acc)
    = Z.pos (Pos.of_uint_acc d acc).
Proof.
  induction d; intros acc; cbn [NilEmpty.string_of_uint Pos.of_uint_acc];
    try reflexivity; rewrite lit_String; cbn [fold_left]; rewrite <- IHd;
    f_equal; digit_code; lia.
Qed.

Lemma string_of_uint_value (d : Decimal.uint) :
  decimalValue (lit (NilEmpty.string_of_uint d)) 0 = Z.of_N (Pos.of_uint d).
Proof.
  induction d; cbn [NilEmpty.string_of_uint Pos.of_uint]; try reflexivity;
    rewrite lit_String; cbn [fold_left]; digit_code;
    try exact IHd; cbn [Z.of_N]; rewrite <- string_of_uint_acc; reflexivity.
Qed.

Lemma string_of_uint_digits (d : Decimal.uint) :
  Forall (fun c => isDigit c = true) (lit (NilEmpty.string_of_uint d)).
Proof.
  induction d; cbn [NilEmpty.string_of_uint]; try rewrite lit_String;
    constructor; try reflexivity; exact IHd.
Qed.

Lemma showZ_spec (n : Z) :
  0 <= n ->
  showZ n <> []
  /\ Forall (fun c => isDigit c = true) (showZ n)
  /\ decimalValue (showZ n) 0 = n.
Proof.
  intros Hn. unfold showZ. destruct n as [|p|p]; [| |lia].
  - split; [discriminate|]. split; [repeat constructor | reflexivity].
  - cbn [Z.to_int NilEmpty.string_of_int].
    split; [|split].
    + pose proof (Unsigned.to_uint_nonnil p) as Hnil.
      destruct (Pos.to_uint p); try congruence; discriminate.
    + apply string_of_uint_digits.
    + rewrite string_of_uint_value, DecimalPos.Unsigned.of_to. reflexivity.
Qed.

Lemma digitsPrefix_digits (s : jsstring) :
  Forall (fun c => isDigit c = true) s ->
  digitsPrefix 10 s = map (fun c => Z.of_N c - 48) s.
Proof.
  induction 1 as [|c s Hc _ IH]; [reflexivity|].
  simpl. unfold digitValue. rewrite Hc.
  unfold isDigit in Hc. apply andb_true_iff in Hc. destruct Hc as [H1 H2].
  apply N.leb_le in H1, H2.
  replace (Z.of_N c - 48 <? 10) with true by lia. rewrite IH. reflexivity.
Qed.

Lemma fold_left_digits (s : jsstring) (acc : Z) :
  fold_left (fun n d => 10 * n + d) (map (fun c => Z.of_N c - 48) s) acc
  = decimalValue s acc.
Proof. revert acc. induction s as [|c s IH]; intros acc; [reflexivity|]. simpl. apply IH. Qed.

Lemma isDigit_facts (c : N) :
  isDigit c = true ->
  isSpace c = false /\ (c =? 45)%N = false /\ (c =? 43)%N = false
  /\ (c =? 120)%N = false /\ (c =? 88)%N = false.
Proof.
  unfold isDigit. intros H. apply andb_true_iff in H. destruct H as [H1 H2].
  apply N.leb_le in H1, H2. unfold isSpace.
  repeat match goal with
         | |- context [(?a =? ?b)%N] =>
             replace (a =? b)%N with false by (symmetry; apply N.eqb_neq; lia)
         | |- context [(?a <=? ?b)%N] =>
             first [replace (a <=? b)%N with false by (symmetry; apply N.leb_gt; lia)
                   | replace (a <=? b)%N with true by (symmetry; apply N.leb_le; lia)]
         end.
  repeat split.
Qed.

Lemma parseInt_showZ (n : Z) : 0 <= n -> parseInt (showZ n) = Some n.
Proof.
  intros Hn. destruct (showZ_spec n Hn) as [Hne [Hd Hv]].
  unfold parseInt. destruct (showZ n) as [|c s] eqn:E; [congruence|].
  pose proof (Forall_inv Hd) as Hc. destruct (isDigit_facts c Hc) as [Hs [Hm [Hp _]]].
  cbn [dropSpaces]. rewrite Hs, Hm, Hp.
  assert (Hgoal : match digitsPrefix 10 (c :: s) with
                  | [] => None
                  | z :: l => Some (1 * fold_left (fun n0 d => 10 * n0 + d) (z :: l) 0)
                  end = Some n).
  { rewrite (digitsPrefix_digits _ Hd).
    destruct (map (fun c0 => Z.of_N c0 - 48) (c :: s)) as [|z l] eqn:Em; [discriminate|].
    rewrite <- Em, fold_left_digits, Hv. f_equal. lia. }
  destruct s as [|x s]; [exact Hgoal|].
  pose proof (Forall_inv (Forall_inv_tail Hd)) as Hx.
  destruct (isDigit_facts x Hx) as [_ [_ [_ [H1 H2]]]]. rewrite H1, H2.
  rewrite andb_false_r. exact Hgoal.
Qed.

Lemma splitAtFrom_free (c : N) (s : jsstring) :
  Forall (fun x => (x =? c)%N = false) s ->
  forall acc, splitAtFrom c s acc = [rev acc ++ s].
Proof.
  induction 1 as [|x s Hx _ IH]; intros acc; simpl.
  - rewrite app_nil_r. reflexivity.
  - rewrite Hx, IH. simpl. rewrite <- app_assoc. reflexivity.
Qed.

Lemma chunkNumber_chunkId (chunk : FinalChunk) (n : Z) :
  0 <= n -> f_id chunk = chunkId n -> chunkNumber chunk = Some n.
Proof.
  intros Hn Hid. unfold chunkNumber. rewrite Hid. unfold chunkId.
  destruct (showZ_spec n Hn) as [_ [Hd _]].
  assert (Hfree : Forall (fun x => (x =? 45)%N = false) (showZ n)).
  { eapply Forall_impl; [|exact Hd]. intros c Hc. exact (proj1 (proj2 (isDigit_facts c Hc))). }
  unfold splitAt. change (lit "chunk-" ++ showZ n)
    with (99 :: 104 :: 117 :: 110 :: 107 :: 45 :: showZ n)%N.
  cbn [splitAtFrom N.eqb Pos.eqb]. rewrite (splitAtFrom_free _ _ Hfree).
  cbn [nth_error rev app]. apply parseInt_showZ. exact Hn.
Qed.

Lemma insertByNumber_sorted (numbered : list (Z * FinalChunk)) :
  StronglySorted Z.lt (map fst numbered) -> fold_right insertByNumber [] numbered = numbered.
Proof.
  induction numbered as [|a l IH]; intros H; [reflexivity|].
  simpl in H. apply StronglySorted_inv in H. destruct H as [Hl Ha].
  simpl. rewrite (IH Hl). destruct l as [|b l]; [reflexivity|]. simpl.
  apply Forall_inv in Ha. replace (fst a <=? fst b) with true by lia. reflexivity.
Qed.

Lemma filter_numbered (selected : FinalChunk -> bool) (chunks : list FinalChunk) :
  forall numbers,
    map f_id chunks = map chunkId numbers ->
    Forall (fun n => 0 <= n) numbers ->
    StronglySorted Z.lt numbers ->
    exists numbered,
      withNumbers (filter selected chunks) = Some numbered
      /\ map snd numbered = filter selected chunks
      /\ StronglySorted Z.lt (map fst numbered)
      /\ Forall (fun n => In n numbers) (map fst numbered).
Proof.
  induction chunks as [|c chunks IH]; intros numbers Hids Hpos Hs.
  - exists []. simpl. repeat split; constructor.
  - destruct numbers as [|n numbers]; [discriminate|].
    simpl in Hids. injection Hids as Hid Hids.
    apply StronglySorted_inv in Hs. destruct Hs as [Hs Hn].
    pose proof (Forall_inv Hpos) as Hn0. apply Forall_inv_tail in Hpos.
    destruct (IH numbers Hids Hpos Hs) as [numbered [Hw [Hm [Hsorted Hin]]]].
    assert (Hin' : Forall (fun m => In m (n :: numbers)) (map fst numbered))
      by (eapply Forall_impl; [|exact Hin]; intros m Hm'; right; exact Hm').
    simpl. destruct (selected c).
    + exists ((n, c) :: numbered). simpl.
      rewrite (chunkNumber_chunkId c n Hn0 Hid), Hw, Hm.
      split; [reflexivity|]. split; [reflexivity|]. split.
      * constructor; [exact Hsorted|].
        rewrite Forall_forall in *. intros m Hm'. exact (Hn m (Hin m Hm')).
      * constructor; [left; reflexivity | exact Hin'].
    + exists numbered. split; [exact Hw|]. split; [exact Hm|]. split; assumption.
Qed.

(** Exporting chunks keeps the order of the partition: the chunks are
    sorted by the number read from their identifier, which is their
    position, so the tenth chunk follows the ninth.  Whatever is selected,
    the export holds the selected chunks of the partition in their order;
    after [selectAllChunks] it holds the whole partition. *)
Theorem chunk_export_keeps_partition_order (chapters : list Chapter) (chunkCount : Z)
    (fuel : nat) (out : list FinalChunk) (selectedChapters selectedChunks : list jsstring) :
  1 <= chunkCount ->
  splitIntoChunks fuel chapters chunkCount = Ok out ->
  sortByChunkNumber (filter (fun chunk => setHas (f_id chunk) selectedChunks) out)
  = Some (filter (fun chunk => setHas (f_id chunk) selectedChunks) out)
  /\ exportSelectedChapters ChunksMode chapters out selectedChapters
       (selectAllChunks out selectedChunks)
     = ExportedChunks out.
Proof.
  intros Hk Hout.
  assert (Hids : map f_id out = map chunkId (range 1 (chunkCount + 1))).
  { rewrite splitIntoChunks_working in Hout. unfold workingChunks in Hout.
    destruct (refinedChunksOf fuel _ _ _ _) as [r| |] eqn:E; simpl in Hout; try discriminate.
    injection Hout as <-.
    destruct (refinedChunksOf_result _ _ _ _ _ _ Hk E) as [Hl _].
    unfold formatFinalChunks. rewrite map_map. simpl.
    change (map (fun x : Chunk => id x) r) with (map id r).
    unfold refinedChunksOf in E.
    destruct (refineChunksRecursively_origin _ _ _ _ _ _ _ _ E) as [-> | [s ->]].
    - exact (proj1 (initialChunkSplit_numbers _ _ _)).
    - destruct (renumber_numbers s) as [H1 _]. destruct (renumber_spec s) as [Hlen _].
      assert (Hls : len s = chunkCount) by (unfold len in *; lia).
      rewrite H1, Hls. reflexivity. }
  assert (Hpos : Forall (fun n => 0 <= n) (range 1 (chunkCount + 1)))
    by (apply Forall_forall; intros n Hn; apply in_range in Hn; lia).
  assert (Hsorted : StronglySorted Z.lt (range 1 (chunkCount + 1)))
    by (unfold range; apply range_strongly_sorted).
  assert (Hsort : forall selected,
             sortByChunkNumber (filter selected out) = Some (filter selected out)).
  { intros selected.
    destruct (filter_numbered selected out _ Hids Hpos Hsorted)
      as [numbered [Hw [Hm [Hs _]]]].
    unfold sortByChunkNumber. rewrite Hw. simpl.
    rewrite (insertByNumber_sorted _ Hs), Hm. reflexivity. }
  split; [apply Hsort|].
  unfold exportSelectedChapters, selectAllChunks.
  assert (Hne : out <> []).
  { intros ->. simpl in Hids. symmetry in Hids. apply map_eq_nil in Hids.
    rewrite range_cons in Hids by lia. discriminate. }
  destruct out as [|c out]; [congruence|].
  rewrite (setHas_nonempty (f_id c))
    by (apply (fold_setAdd_has f_id (c :: out) c); left; reflexivity).
  rewrite Hsort, filter_all; [reflexivity|].
  apply Forall_forall. intros ch Hin.
  exact (fold_setAdd_has f_id (c :: out) ch Hin selectedChunks).
Qed.

Lemma chunk_export_keeps_partition_order_witness :
  sortByChunkNumber
    (filter (fun chunk => setHas (f_id chunk) [chunkId 12; chunkId 2])
       (valueOr [] (splitIntoChunks 50 sampleChapters 12)))
  = Some (filter (fun chunk => setHas (f_id chunk) [chunkId 12; chunkId 2])
            (valueOr [] (splitIntoChunks 50 sampleChapters 12)))
  /\ exportSelectedChapters ChunksMode sampleChapters
       (valueOr [] (splitIntoChunks 50 sampleChapters 12)) []
       (selectAllChunks (valueOr [] (splitIntoChunks 50 sampleChapters 12))
          [chunkId 12; chunkId 2])
     = ExportedChunks (valueOr [] (splitIntoChunks 50 sampleChapters 12)).
Proof.
  apply (chunk_export_keeps_partition_order sampleChapters 12 50).
  - lia.
  - vm_compute. reflexivity.
Defined.

Lemma setDelete_in (key k : jsstring) (set : list jsstring) :
  In k (setDelete key set) -> In k set /\ k <> key.
Proof.
  unfold setDelete. intros H. apply filter_In in H. destruct H as [Hin Hneq].
  split; [exact Hin|]. intros ->. rewrite eqs_refl in Hneq. discriminate.
Qed.

Lemma fold_setDelete_all (chunks : list FinalChunk) :
  forall set,
    Forall (fun k => In k (map f_id chunks)) set ->
    fold_left (fun set chunk => setDelete (f_id chunk) set) chunks set = [].
Proof.
  induction chunks as [|c chunks IH]; intros set H.
  - destruct set as [|k set]; [reflexivity|]. apply Forall_inv in H. destruct H.
  - simpl. apply IH. apply Forall_forall. intros k Hk.
    apply setDelete_in in Hk. destruct Hk as [Hin Hneq].
    rewrite Forall_forall in H. destruct (H k Hin) as [Heq | Hrest]; [congruence | exact Hrest].
Qed.

(** The two ways of deselecting agree: the chapters are deselected by
    clearing the set, the chunks by deleting the identifier of each
    current chunk, which empties a selection that holds only identifiers
    of current chunks.  The export then does nothing. *)
Theorem deselect_all_chunks_empties_the_selection (chapters : list Chapter)
    (currentChunks : list FinalChunk) (selectedChapters selectedChunks : list jsstring) :
  Forall (fun k => In k (map f_id currentChunks)) selectedChunks ->
  deselectAllChunks currentChunks selectedChunks = deselectAllChapters selectedChapters
  /\ exportSelectedChapters ChunksMode chapters currentChunks selectedChapters
       (deselectAllChunks currentChunks selectedChunks)
     = NothingExported.
Proof.
  intros H. unfold deselectAllChunks, deselectAllChapters, exportSelectedChapters.
  rewrite (fold_setDelete_all currentChunks selectedChunks H). split; reflexivity.
Qed.

Lemma deselect_all_chunks_empties_the_selection_witness :
  deselectAllChunks (valueOr [] (splitIntoChunks 11 sampleChapters 2))
    (selectAllChunks (valueOr [] (splitIntoChunks 11 sampleChapters 2)) [])
  = deselectAllChapters [lit "nav-root-0-0"]
  /\ exportSelectedChapters ChunksMode sampleChapters
       (valueOr [] (splitIntoChunks 11 sampleChapters 2)) [lit "nav-root-0-0"]
       (deselectAllChunks (valueOr [] (splitIntoChunks 11 sampleChapters 2))
          (selectAllChunks (valueOr [] (splitIntoChunks 11 sampleChapters 2)) []))
     = NothingExported.
Proof.
  apply (deselect_all_chunks_empties_the_selection sampleChapters
           (valueOr [] (splitIntoChunks 11 sampleChapters 2)) [lit "nav-root-0-0"]).
  vm_compute. repeat (apply Forall_cons || apply Forall_nil); auto.
Defined.

(* ================================================================== *)
(** ** The file server *)

Lemma splitAtFrom_sep (c : N) (a b : jsstring) :
  forall acc, splitAtFrom c (a ++ c :: b) acc = splitAtFrom c a acc ++ splitAtFrom c b [].
Proof.
  induction a as [|x a IH]; intros acc; simpl.
  - rewrite N.eqb_refl. reflexivity.
  - destruct (x =? c)%N; [rewrite IH; reflexivity | apply IH].
Qed.

Lemma splitAt_sep (c : N) (a b : jsstring) :
  splitAt c (a ++ c :: b) = splitAt c a ++ splitAt c b.
Proof. apply splitAtFrom_sep. Qed.

Lemma splitAt_plain (segment : jsstring) :
  ~ In Server.slash segment -> splitAt Server.slash segment = [segment].
Proof.
  intros H. unfold splitAt. rewrite splitAtFrom_free; [reflexivity|].
  apply Forall_forall. intros x Hx. apply N.eqb_neq. intros ->. exact (H Hx).
Qed.

Lemma splitAt_join (segments : list jsstring) :
  Forall plainSegment segments -> segments <> [] ->
  splitAt Server.slash (join [Server.slash] segments) = segments.
Proof.
  induction 1 as [|s segments [_ [_ [_ Hs]]] Hrest IH]; intros Hne; [congruence|].
  destruct segments as [|s' segments].
  - simpl. apply splitAt_plain. exact Hs.
  - change (join [Server.slash] (s :: s' :: segments))
      with (s ++ Server.slash :: join [Server.slash] (s' :: segments)).
    rewrite splitAt_sep, splitAt_plain by exact Hs. rewrite IH by discriminate. reflexivity.
Qed.

Lemma normalizeStep_plain (kept : list jsstring) (segment : jsstring) :
  plainSegment segment -> Server.normalizeStep kept segment = kept ++ [segment].
Proof.
  intros [H1 [H2 [H3 _]]]. unfold Server.normalizeStep.
  rewrite (eqs_neq _ _ H1), (eqs_neq _ _ H2), (eqs_neq _ _ H3). reflexivity.
Qed.

Lemma fold_normalizeStep_plain (segments : list jsstring) :
  Forall plainSegment segments ->
  forall kept, fold_left Server.normalizeStep segments kept = kept ++ segments.
Proof.
  induction 1 as [|s segments Hs _ IH]; intros kept; simpl.
  - rewrite app_nil_r. reflexivity.
  - rewrite normalizeStep_plain by exact Hs. rewrite IH, <- app_assoc. reflexivity.
Qed.

Lemma normalize_absolute (segments : list jsstring) :
  Forall plainSegment segments ->
  Server.normalizeSegments (absolutePath segments) = segments.
Proof.
  intros H. unfold Server.normalizeSegments, absolutePath.
  destruct segments as [|s segments]; [reflexivity|].
  change ([Server.slash] ++ join [Server.slash] (s :: segments))
    with ([] ++ Server.slash :: join [Server.slash] (s :: segments)).
  rewrite splitAt_sep, splitAt_join by (exact H || discriminate).
  change (splitAt Server.slash []) with [@nil N].
  rewrite fold_left_app.
  change (fold_left Server.normalizeStep [[]] []) with (@nil jsstring).
  exact (fold_normalizeStep_plain _ H []).
Qed.

(** The segments read from an absolute path, followed by those of what
    is appended to it. *)
Lemma normalize_under (segments : list jsstring) (more : jsstring) :
  Forall plainSegment segments ->
  Server.normalizeSegments (absolutePath segments ++ Server.slash :: more)
  = fold_left Server.normalizeStep (splitAt Server.slash more) segments.
Proof.
  intros H. pose proof (normalize_absolute segments H) as Hn.
  unfold Server.normalizeSegments in *.
  rewrite splitAt_sep, fold_left_app, Hn. reflexivity.
Qed.

Lemma resolve_absolute (segments : list jsstring) :
  Forall plainSegment segments ->
  Server.resolve (absolutePath segments) = absolutePath segments.
Proof. intros H. unfold Server.resolve. rewrite normalize_absolute by exact H. reflexivity. Qed.

Lemma endsWith_plain (a segment : jsstring) :
  segment <> [] -> ~ In Server.slash segment ->
  endsWith (a ++ segment) [Server.slash] = false.
Proof.
  intros Hne Hs. unfold endsWith. rewrite rev_app_distr.
  destruct (rev segment) as [|x r] eqn:E.
  - apply (f_equal (@rev N)) in E. rewrite rev_involutive in E. simpl in E. congruence.
  - change (startsWith ((x :: r) ++ rev a) (rev [Server.slash]))
      with ((Server.slash =? x)%N && startsWith (r ++ rev a) []).
    replace (Server.slash =? x)%N with false; [reflexivity|].
    symmetry. apply N.eqb_neq. intros <-. apply Hs. apply in_rev. rewrite E. left. reflexivity.
Qed.

Lemma startsWith_same (p a b : jsstring) : startsWith (p ++ a) (p ++ b) = startsWith a b.
Proof. induction p as [|x p IH]; [reflexivity|]. simpl. rewrite N.eqb_refl. exact IH. Qed.

Lemma join_snoc (sep : jsstring) (segments : list jsstring) (segment : jsstring) :
  segments <> [] ->
  join sep (segments ++ [segment]) = join sep segments ++ sep ++ segment.
Proof.
  induction segments as [|s segments IH]; intros Hne; [congruence|].
  destruct segments as [|s' segments]; [reflexivity|].
  change (join sep ((s :: s' :: segments) ++ [segment]))
    with (s ++ sep ++ join sep ((s' :: segments) ++ [segment])).
  rewrite IH by discriminate.
  change (join sep (s :: s' :: segments)) with (s ++ sep ++ join sep (s' :: segments)).
  rewrite <- !app_assoc. reflexivity.
Qed.

Lemma absolutePath_snoc (segments : list jsstring) (segment : jsstring) :
  absolutePath (segments ++ [segment])
  = (match segments with [] => [Server.slash] | _ => absolutePath segments ++ [Server.slash] end)
    ++ segment.
Proof.
  unfold absolutePath. destruct segments as [|s segments]; [reflexivity|].
  rewrite join_snoc by discriminate. rewrite <- !app_assoc. reflexivity.
Qed.

Lemma plainSegment_files : plainSegment (lit "files").
Proof.
  repeat split; try discriminate.
  intros H. vm_compute in H. repeat (destruct H as [H | H]; [discriminate|]). exact H.
Qed.

Lemma joinPaths_files (a c : jsstring) :
  Server.joinPaths a (lit "files") c
  = [Server.slash]
    ++ join [Server.slash]
         (Server.normalizeSegments
            (a ++ Server.slash
             :: lit "files" ++ match c with [] => [] | _ => Server.slash :: c end))
    ++ (if endsWith (a ++ Server.slash
                     :: lit "files" ++ match c with [] => [] | _ => Server.slash :: c end)
             [Server.slash]
           && negb (eqs (join [Server.slash]
                           (Server.normalizeSegments
                              (a ++ Server.slash
                               :: lit "files"
                                  ++ match c with [] => [] | _ => Server.slash :: c end)))
                      [])
        then [Server.slash] else []).
Proof. destruct c; reflexivity. Qed.

Section Requests.

Variable directory : list jsstring.
Hypothesis directory_plain : Forall plainSegment directory.

Local Abbreviation dirname := (absolutePath directory).

Lemma filesDir_eq :
  Server.resolve (Server.joinPaths dirname (lit "files") [])
  = absolutePath (directory ++ [lit "files"]).
Proof.
  assert (Hall : Forall plainSegment (directory ++ [lit "files"]))
    by (apply Forall_app; split; [exact directory_plain | repeat constructor;
        apply plainSegment_files]).
  assert (Hjoin : Server.joinPaths dirname (lit "files") []
                  = absolutePath (directory ++ [lit "files"])).
  { rewrite joinPaths_files. rewrite app_nil_r.
    rewrite normalize_under by exact directory_plain.
    rewrite splitAt_plain by exact (proj2 (proj2 (proj2 plainSegment_files))).
    cbn [fold_left]. rewrite normalizeStep_plain by exact plainSegment_files.
    change (dirname ++ Server.slash :: lit "files")
      with (dirname ++ [Server.slash] ++ lit "files").
    rewrite (app_assoc dirname [Server.slash] (lit "files")), endsWith_plain
      by (try discriminate; exact (proj2 (proj2 (proj2 plainSegment_files)))).
    simpl andb. cbv iota. rewrite app_nil_r. reflexivity. }
  rewrite Hjoin. apply resolve_absolute. exact Hall.
Qed.

Lemma joinPaths_plain (segment : jsstring) :
  plainSegment segment ->
  Server.joinPaths dirname (lit "files") segment
  = absolutePath (directory ++ [lit "files"; segment]).
Proof.
  intros Hseg. pose proof Hseg as [Hne [_ [_ Hs]]].
  rewrite joinPaths_files.
  replace (match segment with [] => [] | _ => Server.slash :: segment end)
    with (Server.slash :: segment) by (destruct segment; [congruence | reflexivity]).
  rewrite normalize_under by exact directory_plain.
  rewrite splitAt_sep, splitAt_plain by exact (proj2 (proj2 (proj2 plainSegment_files))).
  rewrite splitAt_plain by exact Hs.
  cbn [app fold_left]. rewrite !normalizeStep_plain by (exact plainSegment_files || exact Hseg).
  rewrite <- app_assoc. simpl app at 2.
  replace (endsWith (dirname ++ Server.slash :: lit "files" ++ Server.slash :: segment)
             [Server.slash]) with false.
  - simpl andb. cbv iota. rewrite app_nil_r. reflexivity.
  - symmetry.
    change (dirname ++ Server.slash :: lit "files" ++ Server.slash :: segment)
      with (dirname ++ (Server.slash :: lit "files" ++ [Server.slash]) ++ segment).
    rewrite (app_assoc dirname). apply endsWith_plain; assumption.
Qed.

Lemma joinPaths_sibling (segment : jsstring) :
  plainSegment segment ->
  Server.joinPaths dirname (lit "files") (lit "../" ++ segment)
  = absolutePath (directory ++ [segment]).
Proof.
  intros Hseg. pose proof Hseg as [Hne [_ [_ Hs]]].
  rewrite joinPaths_files.
  change (match lit "../" ++ segment with
          | [] => []
          | _ => Server.slash :: lit "../" ++ segment
          end)
    with (Server.slash :: [Server.dot; Server.dot] ++ Server.slash :: segment).
  rewrite normalize_under by exact directory_plain.
  rewrite splitAt_sep, splitAt_plain by exact (proj2 (proj2 (proj2 plainSegment_files))).
  rewrite splitAt_sep, (splitAt_plain segment) by exact Hs.
  change (splitAt Server.slash [Server.dot; Server.dot]) with [[Server.dot; Server.dot]].
  cbn [app fold_left].
  rewrite (normalizeStep_plain directory (lit "files") plainSegment_files).
  change (Server.normalizeStep (directory ++ [lit "files"]) [Server.dot; Server.dot])
    with (removelast (directory ++ [lit "files"])).
  rewrite removelast_last, normalizeStep_plain by exact Hseg.
  change (dirname ++ Server.slash
          :: lit "files" ++ Server.slash :: Server.dot :: Server.dot :: Server.slash :: segment)
    with (dirname ++ (Server.slash :: lit "files"
                      ++ Server.slash :: [Server.dot; Server.dot] ++ [Server.slash])
          ++ segment).
  rewrite (app_assoc dirname), endsWith_plain by assumption.
  simpl andb. cbv iota. rewrite app_nil_r. reflexivity.
Qed.

Lemma withinFiles_plain (segment : jsstring) :
  plainSegment segment -> Server.withinFiles dirname segment = true.
Proof.
  intros Hseg. unfold Server.withinFiles. cbv zeta.
  rewrite filesDir_eq, joinPaths_plain by exact Hseg.
  rewrite resolve_absolute
    by (apply Forall_app; split;
        [exact directory_plain
        | exact (Forall_cons _ plainSegment_files (Forall_cons _ Hseg (Forall_nil _)))]).
  change (directory ++ [lit "files"; segment])
    with (directory ++ [lit "files"] ++ [segment]).
  rewrite app_assoc, (absolutePath_snoc (directory ++ [lit "files"]) segment).
  apply startsWith_spec.
  destruct (directory ++ [lit "files"]) as [|s l] eqn:E.
  - destruct directory; discriminate.
  - exists ([Server.slash] ++ segment). rewrite <- app_assoc. reflexivity.
Qed.

Lemma withinFiles_sibling (segment : jsstring) :
  plainSegment segment ->
  Server.withinFiles dirname (lit "../" ++ segment) = startsWith segment (lit "files").
Proof.
  intros Hseg. unfold Server.withinFiles. cbv zeta.
  rewrite filesDir_eq, joinPaths_sibling by exact Hseg.
  rewrite resolve_absolute
    by (apply Forall_app; split;
        [exact directory_plain | exact (Forall_cons _ Hseg (Forall_nil _))]).
  rewrite !absolutePath_snoc. apply startsWith_same.
Qed.

End Requests.

(** The guard of the file routes is a test on the text of the path.  A
    plain file name is never refused, whatever its extension.  A name that
    steps out of the directory with [../] is let through exactly when the
    entry it reaches starts with [files], and is refused otherwise: an
    entry beside the [files] directory whose name starts so is handled as
    an entry of the directory would be, although it is not inside it.
    What a request that is let through is answered depends on the file
    system: not found when [fs.access] fails; for [GET], the file when
    [fs.stat], the headers and [fs.readFile] succeed; for [DELETE], the
    deletion when [fs.unlink] succeeds; the error of the server
    otherwise, as for a directory. *)
Theorem file_guard_is_a_prefix_test (directory : list jsstring)
    (fs : Server.FileSystem) (segment : jsstring) :
  Forall plainSegment directory ->
  plainSegment segment ->
  let dirname := absolutePath directory in
  let inside := absolutePath (directory ++ [lit "files"; segment]) in
  let beside := absolutePath (directory ++ [segment]) in
  Server.getFile dirname fs segment
  = (if negb (Server.access fs inside) then Server.FileNotFound
     else if negb (Server.stat fs inside) then Server.ServerError
     else if negb (Server.setHeader fs (Server.contentDisposition segment))
          then Server.ServerError
     else if negb (Server.readFile fs inside) then Server.ServerError
     else Server.FileServed inside)
  /\ Server.deleteFile dirname fs segment
     = (if negb (Server.access fs inside) then Server.FileNotFound
        else if negb (Server.unlink fs inside) then Server.ServerError
        else Server.FileDeleted inside)
  /\ Server.withinFiles dirname (lit "../" ++ segment) = startsWith segment (lit "files")
  /\ (startsWith segment (lit "files") = false ->
      Server.getFile dirname fs (lit "../" ++ segment) = Server.AccessDenied
      /\ Server.deleteFile dirname fs (lit "../" ++ segment) = Server.AccessDenied)
  /\ (startsWith segment (lit "files") = true ->
      Server.getFile dirname fs (lit "../" ++ segment)
      = (if negb (Server.access fs beside) then Server.FileNotFound
         else if negb (Server.stat fs beside) then Server.ServerError
         else if negb (Server.setHeader fs
                         (Server.contentDisposition (lit "../" ++ segment)))
              then Server.ServerError
         else if negb (Server.readFile fs beside) then Server.ServerError
         else Server.FileServed beside)
      /\ Server.deleteFile dirname fs (lit "../" ++ segment)
         = (if negb (Server.access fs beside) then Server.FileNotFound
            else if negb (Server.unlink fs beside) then Server.ServerError
            else Server.FileDeleted beside)
      /\ (segment <> lit "files" ->
          forall below, directory ++ [segment] <> (directory ++ [lit "files"]) ++ below)).
Proof.
  intros Hdir Hseg dirname inside beside. unfold dirname, inside, beside.
  split; [|split; [|split; [|split]]].
  - unfold Server.getFile. cbv zeta.
    rewrite (withinFiles_plain directory Hdir segment Hseg).
    rewrite (joinPaths_plain directory Hdir segment Hseg). reflexivity.
  - unfold Server.deleteFile. cbv zeta.
    rewrite (withinFiles_plain directory Hdir segment Hseg).
    rewrite (joinPaths_plain directory Hdir segment Hseg). reflexivity.
  - exact (withinFiles_sibling directory Hdir segment Hseg).
  - intros Hfiles. unfold Server.getFile, Server.deleteFile. cbv zeta.
    rewrite (withinFiles_sibling directory Hdir segment Hseg), Hfiles.
    split; reflexivity.
  - intros Hfiles. unfold Server.getFile, Server.deleteFile. cbv zeta.
    rewrite (withinFiles_sibling directory Hdir segment Hseg), Hfiles.
    rewrite (joinPaths_sibling directory Hdir segment Hseg).
    split; [reflexivity|]. split; [reflexivity|].
    intros Hne below H. rewrite <- app_assoc in H. apply app_inv_head in H.
    simpl in H. injection H as H _. exact (Hne H).
Qed.

Lemma file_guard_is_a_prefix_test_witness :
  Server.getFile (absolutePath [lit "srv"; lit "app"]) besideFiles
    (lit "../" ++ lit "files.json")
  = Server.FileServed (absolutePath ([lit "srv"; lit "app"] ++ [lit "files.json"]))
  /\ Server.deleteFile (absolutePath [lit "srv"; lit "app"]) besideFiles
       (lit "../" ++ lit "files.json")
     = Server.FileDeleted (absolutePath ([lit "srv"; lit "app"] ++ [lit "files.json"]))
  /\ Server.getFile (absolutePath [lit "srv"; lit "app"]) besideFiles
       (lit "../" ++ lit "files-dir")
     = Server.ServerError
  /\ Server.deleteFile (absolutePath [lit "srv"; lit "app"]) besideFiles
       (lit "../" ++ lit "files-dir")
     = Server.ServerError
  /\ Server.getFile (absolutePath [lit "srv"; lit "app"]) besideFiles
       (lit "../" ++ lit "server.js")
     = Server.AccessDenied.
Proof.
  assert (Hplain : forall s : jsstring,
             s <> [] -> s <> [Server.dot] -> s <> [Server.dot; Server.dot] ->
             existsb (N.eqb Server.slash) s = false -> plainSegment s).
  { intros s H1 H2 H3 H4. repeat split; try assumption.
    intros Hin. assert (Ht : existsb (N.eqb Server.slash) s = true)
      by (apply existsb_exists; exists Server.slash; split; [exact Hin | apply N.eqb_refl]).
    congruence. }
  assert (Hdir : Forall plainSegment [lit "srv"; lit "app"])
    by (repeat constructor; apply Hplain; (discriminate || reflexivity)).
  pose proof (file_guard_is_a_prefix_test [lit "srv"; lit "app"] besideFiles
                (lit "files.json") Hdir
                ltac:(apply Hplain; (discriminate || reflexivity))) as Hfile.
  pose proof (file_guard_is_a_prefix_test [lit "srv"; lit "app"] besideFiles
                (lit "files-dir") Hdir
                ltac:(apply Hplain; (discriminate || reflexivity))) as Hfolder.
  pose proof (file_guard_is_a_prefix_test [lit "srv"; lit "app"] besideFiles
                (lit "server.js") Hdir
                ltac:(apply Hplain; (discriminate || reflexivity))) as Hother.
  cbv zeta in Hfile, Hfolder, Hother.
  destruct Hfile as [_ [_ [_ [_ Hfile]]]]. destruct (Hfile eq_refl) as [Hget [Hdel _]].
  destruct Hfolder as [_ [_ [_ [_ Hfolder]]]].
  destruct (Hfolder eq_refl) as [Hget' [Hdel' _]].
  destruct Hother as [_ [_ [_ [Hother _]]]]. destruct (Hother eq_refl) as [Hget'' _].
  split; [rewrite Hget; reflexivity|]. split; [rewrite Hdel; reflexivity|].
  split; [rewrite Hget'; reflexivity|]. split; [rewrite Hdel'; reflexivity|].
  exact Hget''.
Defined.

(* ================================================================== *)
(** ** The sort in place *)

(** [splitIntoChunks] sorts the chapter array of the book in place.
    Nothing that follows can tell: a partition of the sorted array is the
    partition of the array as parsed, and an export from the sorted array
    holds the same chapters in the same order, whatever is selected. *)
Theorem sort_in_place_is_not_observed (chapters : list Chapter) (chunkCount : Z)
    (fuel : nat) (currentChunks : list FinalChunk)
    (selectedChapters selectedChunks : list jsstring) :
  splitIntoChunks fuel (sortBySpineOrder chapters) chunkCount
  = splitIntoChunks fuel chapters chunkCount
  /\ exportSelectedChapters ChaptersMode (sortBySpineOrder chapters) currentChunks
       selectedChapters selectedChunks
     = exportSelectedChapters ChaptersMode chapters currentChunks
         selectedChapters selectedChunks
  /\ calculateChunks (sortBySpineOrder chapters) (Some chunkCount)
     = calculateChunks chapters (Some chunkCount).
Proof.
  assert (Hsort : sortBySpineOrder (sortBySpineOrder chapters) = sortBySpineOrder chapters)
    by (apply sortBySpineOrder_fixed, sortBySpineOrder_is_sorted).
  assert (Hsum : sumWordCounts (sortBySpineOrder chapters) = sumWordCounts chapters).
  { rewrite !sumWordCounts_spec. apply sumZ_perm, Permutation_map, Permutation_sym,
      sortBySpineOrder_perm. }
  split; [|split].
  - unfold splitIntoChunks, targetWordsPerChunk, fullContentOf. rewrite Hsort, Hsum.
    reflexivity.
  - unfold exportSelectedChapters. rewrite filter_sortBySpineOrder.
    rewrite (sortBySpineOrder_fixed (sortBySpineOrder _))
      by apply sortBySpineOrder_is_sorted.
    reflexivity.
  - unfold calculateChunks. rewrite Hsum. reflexivity.
Qed.

(* ================================================================== *)
(** ** The markup of a final chunk *)

Lemma escaped_unit_no_bracket (c : N) :
  let escaped :=
    if (c =? 38)%N then lit "&amp;"
    else if (c =? 160)%N then lit "&nbsp;"
    else if (c =? 60)%N then lit "&lt;"
    else if (c =? 62)%N then lit "&gt;"
    else [c] in
  ~ In 60%N escaped /\ ~ In 62%N escaped.
Proof.
  cbv zeta.
  destruct (c =? 38)%N; [vm_compute; split; intuition discriminate|].
  destruct (c =? 160)%N; [vm_compute; split; intuition discriminate|].
  destruct (c =? 60)%N eqn:E60; [vm_compute; split; intuition discriminate|].
  destruct (c =? 62)%N eqn:E62; [vm_compute; split; intuition discriminate|].
  apply N.eqb_neq in E60, E62.
  split; intros [H | []]; congruence.
Qed.

Lemma escapeHtml_no_bracket (text : jsstring) :
  ~ In 60%N (escapeHtml text) /\ ~ In 62%N (escapeHtml text).
Proof.
  unfold escapeHtml.
  split; intros H; apply in_flat_map in H; destruct H as [c [_ H]];
    destruct (escaped_unit_no_bracket c) as [H60 H62]; [exact (H60 H) | exact (H62 H)].
Qed.

(** The markup of a final chunk is one [div] around the escaped text of
    the chunk: whatever the book holds, the text between the opening and
    the closing tag contains neither [<] nor [>], so no markup of the book
    reaches the page through a chunk. *)
Theorem chunk_markup_holds_no_tag (chunks : list Chunk) (originalContent : list Content) :
  Forall (fun f =>
            f_htmlContent f
            = lit "<div class=" ++ [quote] ++ lit "chunk-content" ++ [quote] ++ lit ">"
              ++ escapeHtml (f_textContent f) ++ lit "</div>"
            /\ ~ In 60%N (escapeHtml (f_textContent f))
            /\ ~ In 62%N (escapeHtml (f_textContent f)))
    (formatFinalChunks chunks originalContent).
Proof.
  unfold formatFinalChunks. apply Forall_map. apply Forall_forall. intros c _.
  cbn [f_htmlContent f_textContent]. split; [reflexivity|].
  apply escapeHtml_no_bracket.
Qed.

(* ================================================================== *)
(** ** More chunks than words *)

Lemma count_empty_chunks (chunks : list Chunk) :
  Forall wellFormed chunks ->
  len chunks - sumZ (map wordCount chunks)
  <= len (filter (fun c => wordCount c =? 0) chunks).
Proof.
  induction 1 as [|c chunks Hc _ IH]; [unfold len; simpl; lia|].
  pose proof (wellFormed_nonneg c Hc) as H0.
  cbn [map sumZ fold_right filter]. rewrite len_cons. fold (sumZ (map wordCount chunks)).
  destruct (wordCount c =? 0) eqn:E; [rewrite len_cons|]; lia.
Qed.

Lemma filter_map_len {A B : Type} (f : A -> B) (p : B -> bool) (l : list A) :
  len (filter p (map f l)) = len (filter (fun a => p (f a)) l).
Proof.
  induction l as [|a l IH]; [reflexivity|]. simpl.
  destruct (p (f a)); [rewrite !len_cons, IH; reflexivity | exact IH].
Qed.

(** Asked for more chunks than the book has words, the partition still
    has that many chunks: at least as many of them as words are missing
    hold no word, and a chunk without words has the empty text. *)
Theorem more_chunks_than_words_leaves_empty_chunks (chapters : list Chapter)
    (chunkCount : Z) (fuel : nat) (out : list FinalChunk) :
  1 <= chunkCount ->
  splitIntoChunks fuel chapters chunkCount = Ok out ->
  len (corpusWords (fullContentOf chapters)) < chunkCount ->
  len out = chunkCount
  /\ chunkCount - len (corpusWords (fullContentOf chapters))
     <= len (filter (fun f => f_wordCount f =? 0) out)
  /\ Forall (fun f => f_wordCount f = 0 -> f_textContent f = []) out.
Proof.
  intros Hk Hout Hfew. rewrite splitIntoChunks_working in Hout. unfold workingChunks in Hout.
  destruct (refinedChunksOf fuel _ _ _ _) as [r| |] eqn:E; simpl in Hout; try discriminate.
  injection Hout as <-.
  destruct (refinedChunksOf_result _ _ _ _ _ _ Hk E) as [Hl [T _]].
  pose proof (tiles_wellFormed _ _ _ T) as Hw.
  pose proof (tiles_sum _ _ _ T) as Hsum.
  pose proof (count_empty_chunks r Hw) as Hcount.
  unfold formatFinalChunks. split; [|split].
  - unfold len in *. rewrite length_map. exact Hl.
  - rewrite filter_map_len. cbn [f_wordCount]. lia.
  - apply Forall_map. rewrite Forall_forall in *. intros c Hin. simpl. intros H0.
    destruct (Hw c Hin) as [Hwc _]. rewrite H0 in Hwc.
    destruct (words c); [reflexivity | unfold len in Hwc; simpl in Hwc; lia].
Qed.

Lemma more_chunks_than_words_leaves_empty_chunks_witness :
  len (valueOr [] (splitIntoChunks 50 sampleChapters 12)) = 12
  /\ 12 - len (corpusWords (fullContentOf sampleChapters))
     <= len (filter (fun f => f_wordCount f =? 0)
               (valueOr [] (splitIntoChunks 50 sampleChapters 12)))
  /\ Forall (fun f => f_wordCount f = 0 -> f_textContent f = [])
       (valueOr [] (splitIntoChunks 50 sampleChapters 12)).
Proof.
  apply (more_chunks_than_words_leaves_empty_chunks sampleChapters 12 50).
  - lia.
  - vm_compute. reflexivity.
  - vm_compute. reflexivity.
Defined.
